(** * gogo: a Gene Ontology graph store and its query algebra

    A shallow embedding of [graph.go] and [query.go] of kortschak/gogo,
    with the properties of the specification stated and settled on it.

    Conventions of the embedding.
    - [int64] and [int] values are [Z]; handles are never near the
      limits of [int64] in the statements below.
    - A [*rdf.Statement] is an address into a heap of statements; the
      graph stores addresses, so that identity of instances and the
      in-place assignment of UIDs by [addTerm] are visible.
    - A Go map is a [gmap]; [m[k]] on an absent key is the total lookup
      [m !!! k] (the zero value), [delete] on a nil map does nothing,
      which is what [alter] does on an absent key.
    - A slice is a window of a backing array: the location of the array
      in a store of arrays, the offset of its first element and its
      length. Two queries may hold the same slice, windows of one array
      that overlap, or slices with no element in common; a sort in
      place writes to the array.
    - A panic is an [Outcome]; the state at the moment of the panic is
      kept, as a caller that recovers would observe it.
    - What Go leaves open (iteration order of maps, order of equal
      elements after [sort.Sort]) and what the imported gonum packages
      decide ([rdf.Term.Parts]) is a field of the class [Runtime]. *)

From Stdlib Require Import ZArith String Ascii List Lia Permutation Sorted.
From stdpp Require Import gmap strings list fin_maps sorting.

Local Open Scope Z_scope.

(* The solvers of stdpp clear hypotheses that may be gone already. *)
#[local] Set Warnings "-clear-no-such-hyp".

(** ** Terms and statements (gonum [rdf]) *)

Record Term := mkTerm { Value : string; UID : Z }.

(** [rdf.Term.ID]. *)
Definition ID (t : Term) : Z := UID t.

Record Statement := mkStatement
  { Subject : Term; Predicate : Term; Object : Term }.

#[global] Instance Term_eq_dec : EqDecision Term.
Proof. solve_decision. Defined.

#[global] Instance Statement_eq_dec : EqDecision Statement.
Proof. solve_decision. Defined.

#[global] Instance Term_countable : Countable Term.
Proof.
  refine (inj_countable' (fun t => (Value t, UID t))
                         (fun p => mkTerm p.1 p.2) _).
  by intros [].
Defined.

(** The zero value of a statement: what a pointer to a statement that
    was never written holds. *)
#[global] Instance Term_inhabited : Inhabited Term :=
  populate (mkTerm EmptyString 0).
#[global] Instance Statement_inhabited : Inhabited Statement :=
  populate (mkStatement inhabitant inhabitant inhabitant).

(** [rdf.Kind]. *)
Inductive Kind := Invalid | IRI | Literal | Blank.

#[global] Instance Kind_eq_dec : EqDecision Kind.
Proof. solve_decision. Defined.

(** The four results of [rdf.Term.Parts]; [err] is [err != nil]. *)
Record PartsOut := mkParts
  { text : string; qual : string; kind : Kind; err : bool }.

(** A pointer to a statement. *)
Definition addr := nat.

(** [strings.HasPrefix s p]. *)
Definition HasPrefix (s p : string) : bool := String.prefix p s.

(** ** Panics *)

Inductive Failure :=
| PredicateError        (* error extracting predicate *)
| PredicateNotIRI       (* predicate is not an IRI *)
| GlobalInLocal         (* global IRI added to locally namespaced graph *)
| LocalInGlobal         (* local IRI added to globally namespaced graph *)
| SubjectError          (* error extracting subject *)
| SubjectNotIRIOrBlank  (* subject is not an IRI or blank node *)
| ObjectError           (* error extracting object *)
| ObjectInvalid         (* object is not a valid term *)
| TermIDCollision       (* term ID collision *)
| NodeIDCollision       (* node ID collision *)
| NilNode               (* method call on a nil graph.Node *)
| DistinctGraphs        (* binary query operation on distinct graphs *)
| SliceBounds           (* slice bounds out of range *)
| Unreachable           (* uid.Set.NewID: no ID left *)
| OutOfFuel.            (* not a behaviour of the program: the bound of a
                           bounded loop of this model was exhausted; the
                           lemmas named [*_fuel] show it never is *)

Inductive Outcome (A : Type) :=
| Ok (a : A)
| Panic (e : Failure).
Arguments Ok {A} a.
Arguments Panic {A} e.

#[global] Instance Failure_eq_dec : EqDecision Failure.
Proof. solve_decision. Defined.

(** ** What the Go runtime and the gonum library decide *)

Class Runtime := {
  (** [rdf.Term.Parts] applied to the [Value] of a term. *)
  Parts : string -> PartsOut;
  (** The order in which a [range] over a map, or a gonum iterator over
      a map, yields the entries that it is given. *)
  order : forall {A : Type}, list A -> list A;
  order_perm : forall (A : Type) (l : list A), Permutation (order l) l;
  (** [sort.Sort(byID(terms))]: sorted by [ID], not stable. *)
  sortByID : list Term -> list Term;
  sortByID_perm : forall l, Permutation (sortByID l) l;
  sortByID_sorted :
    forall l, StronglySorted (fun x y => ID x <= ID y) (sortByID l)
}.

(** ** Available ID storage (gonum [graph/set/uid])

    The set of the imported package, as the graph uses it: [NewID],
    [Use] and [Release]. No statement below depends on which ID it
    hands out. *)

Module uid.

Definition Max : Z := 9223372036854775807.

Record IDSet := mkSet { maxID : Z; used : gset Z; free : gset Z }.

Definition NewSet : IDSet := mkSet (-1) ∅ ∅.

(** [NewID]: any free ID; otherwise [maxID + 1]; at [Max] the search
    loop of the source runs to a bound that has wrapped around, finds
    nothing and the call panics. *)
Definition NewID `{Runtime} (s : IDSet) : Outcome Z :=
  match order (elements (free s)) with
  | id :: _ => Ok id
  | [] => if decide (maxID s = Max) then Panic Unreachable
          else Ok (maxID s + 1)
  end.

Definition Use (id : Z) (s : IDSet) : IDSet :=
  mkSet (if decide (id > maxID s) then id else maxID s)
        (used s ∪ {[ id ]}) (free s ∖ {[ id ]}).

Definition Release (id : Z) (s : IDSet) : IDSet :=
  mkSet (maxID s) (used s ∖ {[ id ]}) (free s ∪ {[ id ]}).

End uid.

(** ** The graph *)

(** [map[int64]map[int64]map[int64]graph.Line]; a line is the pointer to
    its statement. *)
Abbreviation Index := (gmap Z (gmap Z (gmap Z addr))).

Record Graph := mkGraph {
  nodes : gmap Z Term;
  from : Index;
  to : Index;
  pred : gmap Z (gset addr);
  termIDs : gmap string Z;
  ids : uid.IDSet;
  namespace : Z
}.

Definition local : Z := -1.
Definition unknown : Z := 0.
Definition global : Z := 1.

Definition NewGraph : Graph :=
  mkGraph ∅ ∅ ∅ ∅ ∅ uid.NewSet unknown.

Definition set_nodes (f : gmap Z Term -> gmap Z Term) (g : Graph) : Graph :=
  mkGraph (f (nodes g)) (from g) (to g) (pred g) (termIDs g) (ids g)
          (namespace g).
Definition set_from (f : Index -> Index) (g : Graph) : Graph :=
  mkGraph (nodes g) (f (from g)) (to g) (pred g) (termIDs g) (ids g)
          (namespace g).
Definition set_to (f : Index -> Index) (g : Graph) : Graph :=
  mkGraph (nodes g) (from g) (f (to g)) (pred g) (termIDs g) (ids g)
          (namespace g).
Definition set_pred (f : gmap Z (gset addr) -> gmap Z (gset addr))
    (g : Graph) : Graph :=
  mkGraph (nodes g) (from g) (to g) (f (pred g)) (termIDs g) (ids g)
          (namespace g).
Definition set_termIDs (f : gmap string Z -> gmap string Z)
    (g : Graph) : Graph :=
  mkGraph (nodes g) (from g) (to g) (pred g) (f (termIDs g)) (ids g)
          (namespace g).
Definition set_ids (f : uid.IDSet -> uid.IDSet) (g : Graph) : Graph :=
  mkGraph (nodes g) (from g) (to g) (pred g) (termIDs g) (f (ids g))
          (namespace g).
Definition set_namespace (n : Z) (g : Graph) : Graph :=
  mkGraph (nodes g) (from g) (to g) (pred g) (termIDs g) (ids g) n.

(** [idx[u][v]], the lines of one adjacency cell, and [idx[u][v][l]]. *)
Definition cell (idx : Index) (u v : Z) : gmap Z addr := (idx !!! u) !!! v.
Definition line (idx : Index) (u v l : Z) : option addr := cell idx u v !! l.

(** The keys of a map in the order in which the runtime yields them. *)
Definition keys `{Runtime} {V : Type} (m : gmap Z V) : list Z :=
  order (elements (dom m)).

(** ** The world: the statements the client holds, and one graph *)

Record World := mkWorld { heap : gmap addr Statement; graph : Graph }.

Definition M (A : Type) : Type := World -> Outcome A * World.

Definition ret {A} (a : A) : M A := fun w => (Ok a, w).
Definition panic {A} (e : Failure) : M A := fun w => (Panic e, w).
Definition bind {A B} (m : M A) (k : A -> M B) : M B :=
  fun w => match m w with
           | (Ok a, w') => k a w'
           | (Panic e, w') => (Panic e, w')
           end.

#[global] Instance M_ret : MRet M := @ret.
#[global] Instance M_bind : MBind M := fun A B k m => bind m k.

Definition getG : M Graph := fun w => (Ok (graph w), w).
Definition modifyG (f : Graph -> Graph) : M unit :=
  fun w => (Ok tt, mkWorld (heap w) (f (graph w))).
(** [*s] *)
Definition load (a : addr) : M Statement := fun w => (Ok (heap w !!! a), w).
Definition store (a : addr) (s : Statement) : M unit :=
  fun w => (Ok tt, mkWorld (<[a := s]> (heap w)) (graph w)).
Definition lift {A} (o : Outcome A) : M A := fun w => (o, w).

(** ** Operations of the store *)

Section Store.
Context `{Runtime}.

(** A pointer to one of the three terms of a statement, as in
    [g.addTerm(&s.Subject)]. *)
Inductive Field := FSubject | FPredicate | FObject.

Definition field (f : Field) (s : Statement) : Term :=
  match f with
  | FSubject => Subject s
  | FPredicate => Predicate s
  | FObject => Object s
  end.

(** [t.UID = id] through the pointer. *)
Definition setUID (f : Field) (id : Z) (s : Statement) : Statement :=
  match f with
  | FSubject => mkStatement (mkTerm (Value (Subject s)) id) (Predicate s) (Object s)
  | FPredicate => mkStatement (Subject s) (mkTerm (Value (Predicate s)) id) (Object s)
  | FObject => mkStatement (Subject s) (Predicate s) (mkTerm (Value (Object s)) id)
  end.

(** [addNode]. *)
Definition addNode (n : Term) : M unit :=
  g ← getG;
  match nodes g !! ID n with
  | Some _ => panic NodeIDCollision
  | None =>
      modifyG (set_nodes (<[ID n := n]>));;
      modifyG (set_ids (uid.Use (ID n)))
  end.

(** [addTerm]. *)
Definition addTerm (a : addr) (f : Field) : M unit :=
  s ← load a;
  let t := field f s in
  g ← getG;
  if decide (UID t = 0) then
    match termIDs g !! Value t with
    | Some id => store a (setUID f id s)
    | None =>
        id ← lift (uid.NewID (ids g));
        modifyG (set_ids (uid.Use id));;
        store a (setUID f id s);;
        modifyG (set_termIDs (<[Value t := id]>))
    end
  else
    match termIDs g !! Value t with
    | None => modifyG (set_termIDs (<[Value t := UID t]>))
    | Some id =>
        if decide (id ≠ UID t) then panic TermIDCollision else mret tt
    end.

(** The [switch] of [setLine] on one index: [idx[u][v][l] = a], creating
    the maps that are nil. *)
Definition putLine (u v l : Z) (a : addr) (idx : Index) : Index :=
  match idx !! u with
  | None => <[u := {[ v := {[ l := a ]} ]}]> idx
  | Some mu =>
      match mu !! v with
      | None => <[u := <[v := {[ l := a ]}]> mu]> idx
      | Some c => <[u := <[v := <[l := a]> c]> mu]> idx
      end
  end.

(** [setLine]; the line is the statement at [a], its end points are the
    subject and the object, its ID is the UID of the predicate. *)
Definition setLine (a : addr) : M unit :=
  s ← load a;
  let from_ := Subject s in
  let fid := ID from_ in
  let to_ := Object s in
  let tid := ID to_ in
  let lid := UID (Predicate s) in
  g ← getG;
  (if decide (nodes g !! fid = None) then addNode from_
   else modifyG (set_nodes (<[fid := from_]>)));;
  g ← getG;
  (if decide (nodes g !! tid = None) then addNode to_
   else modifyG (set_nodes (<[tid := to_]>)));;
  modifyG (set_from (putLine fid tid lid a));;
  modifyG (set_to (putLine tid fid lid a));;
  modifyG (set_ids (uid.Use lid)).

(** [AddStatement]. *)
Definition AddStatement (a : addr) : M unit :=
  s ← load a;
  let p := Parts (Value (Predicate s)) in
  if err p then panic PredicateError else
  if decide (kind p ≠ IRI) then panic PredicateNotIRI else
  g ← getG;
  (if HasPrefix (text p) "http:" then
     if decide (namespace g = local) then panic GlobalInLocal
     else modifyG (set_namespace global)
   else
     if decide (namespace g = global) then panic LocalInGlobal
     else modifyG (set_namespace local));;
  let ps := Parts (Value (Subject s)) in
  if err ps then panic SubjectError else
  match kind ps with
  | IRI | Blank =>
      let po := Parts (Value (Object s)) in
      if err po then panic ObjectError else
      if decide (kind po = Invalid) then panic ObjectInvalid else
      modifyG (set_pred (fun pr =>
        <[UID (Predicate s) := (pr !!! UID (Predicate s)) ∪ {[ a ]}]> pr));;
      addTerm a FSubject;;
      addTerm a FPredicate;;
      addTerm a FObject;;
      setLine a
  | _ => panic SubjectNotIRIOrBlank
  end.

(** The two statements of [removeLine] on one index:
    [delete(idx[u][v], l)], then [delete(idx[u], v)] if the cell is
    empty. *)
Definition dropLine (u v l : Z) (idx : Index) : Index :=
  let idx1 := alter (alter (delete l) v) u idx in
  if decide (size (cell idx1 u v) = 0%nat) then alter (delete v) u idx1
  else idx1.

(** [removeLine]. *)
Definition removeLine (fid tid id : Z) (g : Graph) : Graph :=
  if decide (nodes g !! fid = None) then g else
  if decide (nodes g !! tid = None) then g else
  set_ids (uid.Release id)
    (set_to (dropLine tid fid id) (set_from (dropLine fid tid id) g)).

(** [for k := range ks { delete(idx[k], id) }]. *)
Definition dropAll (id : Z) (ks : list Z) (idx : Index) : Index :=
  fold_left (fun m k => alter (delete id) k m) ks idx.

(** [removeNode]. *)
Definition removeNode (id : Z) (g : Graph) : Graph :=
  if decide (nodes g !! id = None) then g else
  let g1 := set_nodes (delete id) g in
  let g2 := set_to (dropAll id (keys (from g1 !!! id))) g1 in
  let g3 := set_from (delete id) g2 in
  let g4 := set_from (dropAll id (keys (to g3 !!! id))) g3 in
  let g5 := set_to (delete id) g4 in
  set_ids (uid.Release id) g5.

(** [g.From(id).Len()] and [g.To(id).Len()]. *)
Definition FromLen (g : Graph) (id : Z) : nat := size (from g !!! id).
Definition ToLen (g : Graph) (id : Z) : nat := size (to g !!! id).

(** [Lines]: the lines of a cell, in the order of the [range]. *)
Definition Lines (g : Graph) (u v : Z) : list addr :=
  let edge := cell (from g) u v in
  order ((map_to_list edge).*2).

(** The part of [RemoveStatement] after the removal of the line. *)
Definition removeOrphan (t : Term) (g : Graph) : Graph :=
  if decide (FromLen g (UID t) = 0%nat /\ ToLen g (UID t) = 0%nat)
  then set_termIDs (delete (Value t)) (removeNode (UID t) g)
  else g.

Definition unindex (a : addr) (s : Statement) (g : Graph) : Graph :=
  let pid := UID (Predicate s) in
  let g1 := set_pred (alter (fun st => st ∖ {[ a ]}) pid) g in
  if decide (size (pred g1 !!! pid) = 0%nat) then
    let g2 := set_pred (delete pid) g1 in
    if decide (size (from g2 !!! pid) = 0%nat) then
      set_termIDs (delete (Value (Predicate s)))
        (set_ids (uid.Release pid) g2)
    else g2
  else g1.

(** [RemoveStatement]. *)
Definition RemoveStatement (a : addr) : M unit :=
  s ← load a;
  g ← getG;
  if decide (a ∈ pred g !!! UID (Predicate s)) then
    modifyG (removeLine (UID (Subject s)) (UID (Object s))
                        (UID (Predicate s)));;
    modifyG (unindex a s);;
    modifyG (removeOrphan (Subject s));;
    modifyG (removeOrphan (Object s))
  else mret tt.

(** [for _, a := range l { g.RemoveStatement(a) }] *)
Fixpoint removeAll (l : list addr) : M unit :=
  match l with
  | [] => mret tt
  | a :: l' => RemoveStatement a;; removeAll l'
  end.

(** [g.Lines(u, n.ID())] for the node [n] that an iterator over the keys
    of an index yields at key [k]: the node is [g.nodes[k]], nil when
    there is none. *)
Definition linesAt (k : Z) (lines : Graph -> Z -> list addr) : M (list addr) :=
  g ← getG;
  match nodes g !! k with
  | None => panic NilNode
  | Some n => mret (lines g (ID n))
  end.

(** The first loop of [RemoveTerm]: [to := g.From(t.UID); for to.Next()].
    The iterator walks the live map [g.from[t.UID]], at most as many
    steps as it had entries when created; a key removed before it is
    reached is not produced. *)
Fixpoint removeOut (n : nat) (t : Term) (seen : gset Z) : M unit :=
  match n with
  | O => mret tt
  | S n' =>
      g ← getG;
      match order (elements (dom (from g !!! UID t) ∖ seen)) with
      | [] => mret tt
      | k :: _ =>
          lines ← linesAt k (fun g v => Lines g (UID t) v);
          removeAll lines;;
          removeOut n' t (seen ∪ {[ k ]})
      end
  end.

(** The second one: [from := g.To(t.UID); if from.Next()]. *)
Definition removeIn (t : Term) : M unit :=
  g ← getG;
  match keys (to g !!! UID t) with
  | [] => mret tt
  | k :: _ =>
      lines ← linesAt k (fun g u => Lines g u (UID t));
      removeAll lines
  end.

(** [RemoveTerm]. *)
Definition RemoveTerm (t : Term) : M unit :=
  g ← getG;
  match pred g !! UID t with
  | Some statements => removeAll (order (elements statements))
  | None => mret tt
  end;;
  g ← getG;
  if decide (nodes g !! UID t = None /\ from g !! UID t = None
             /\ to g !! UID t = None)
  then mret tt
  else
    removeOut (FromLen g (UID t)) t ∅;;
    removeIn t;;
    modifyG (removeNode (UID t));;
    modifyG (set_termIDs (delete (Value t))).

(** [TermFor]. *)
Definition TermFor (w : World) (text : string) : Outcome (Term * bool) :=
  let g := graph w in
  match termIDs g !! text with
  | None => Ok (inhabitant, false)
  | Some id =>
      match nodes g !! id with
      | Some n => Ok (n, true)
      | None =>
          match pred g !! id with
          | None => Ok (inhabitant, false)
          | Some s =>
              match order (elements s) with
              | k :: _ => Ok (Predicate (heap w !!! k), true)
              | [] => Panic NilNode
              end
          end
      end
  end.

End Store.

(** ** Histories of calls *)

Inductive Op :=
| Add (a : addr)            (* g.AddStatement(a) *)
| Remove (a : addr)         (* g.RemoveStatement(a) *)
| RemoveT (t : Term).       (* g.RemoveTerm(t) *)

Section Histories.
Context `{Runtime}.

Definition call (op : Op) : M unit :=
  match op with
  | Add a => AddStatement a
  | Remove a => RemoveStatement a
  | RemoveT t => RemoveTerm t
  end.

(** The world after a call, whether it returned or panicked. *)
Definition after (op : Op) (w : World) : World := (call op w).2.

(** The world after a sequence of calls on a new graph; [h] holds the
    statements as the client made them. *)
Definition history (h : gmap addr Statement) (ops : list Op) : World :=
  fold_left (fun w op => after op w) ops (mkWorld h NewGraph).

(** The addresses passed to [AddStatement] in a sequence of calls. *)
Fixpoint added (ops : list Op) : gset addr :=
  match ops with
  | [] => ∅
  | Add a :: ops' => {[ a ]} ∪ added ops'
  | _ :: ops' => added ops'
  end.

End Histories.

(** ** Invariants of monadic code *)

(** [P] holds of the world after [m] if it held before, also when [m]
    panics. *)
Definition inv {A} (P : World -> Prop) (m : M A) : Prop :=
  forall w, P w -> P (m w).2.

(** A property of the graph alone. *)
Definition onGraph (P : Graph -> Prop) : World -> Prop :=
  fun w => P (graph w).

(** ** Adjacency queries *)

Section Adjacency.
Context `{Runtime}.

(** [From]: the iterator yields [g.nodes[k]] for each key [k] of
    [g.from[id]]; a key without a node yields nil. *)
Definition From (g : Graph) (id : Z) : list (option Term) :=
  (fun k => nodes g !! k) <$> keys (from g !!! id).

(** [To]. *)
Definition To (g : Graph) (id : Z) : list (option Term) :=
  (fun k => nodes g !! k) <$> keys (to g !!! id).

(** [Edge]: of the [multi.Edge] only its lines are ever read. *)
Definition Edge (g : Graph) (u v : Z) : list addr := Lines g u v.

(** [ConnectedByAny], for a function [fn] without effects. *)
Definition ConnectedByAny (h : gmap addr Statement) (e : list addr)
    (fn : Statement -> bool) : bool :=
  existsb (fun a => fn (h !!! a)) e.

End Adjacency.

(** ** Traversal (gonum [graph/traverse]) *)

(** Modelled from the spec: the traversal engine of section 4.3 is the
    gonum package [traverse], which is not part of the sources; the two
    walks below follow its [BreadthFirst.Walk] and [DepthFirst.Walk]: a
    queue (a stack) of nodes, a set of visited IDs filled when a node is
    enqueued (pushed), the callback applied when a node is dequeued
    (popped), and for the breadth-first walk the depth kept by counting
    the nodes left in the current level. *)
Record TraverseGraph := mkTraverse {
  tFrom : Z -> list (option Term);   (* From(id) *)
  tEdge : Z -> Z -> list addr;       (* Edge(uid, vid) *)
  tBound : nat                       (* bound of the loops of the model *)
}.

Section Traverse.
Context `{Runtime}.

(** [*Graph] as a [traverse.Graph]. *)
Definition forward (g : Graph) : TraverseGraph :=
  mkTraverse (From g) (Edge g) (S (size (nodes g))).

(** [reverse{g}]. *)
Definition reverse (g : Graph) : TraverseGraph :=
  mkTraverse (To g) (fun u v => Edge g v u) (S (size (nodes g))).

Section Walks.
Variable G : TraverseGraph.
Variable Traverse : list addr -> bool.

(** Modelled from the spec: the loop [for to.Next()] of the breadth-first
    walk at node [tid]; a neighbour is enqueued once, when an accepted edge
    first reaches it. *)
Fixpoint enqueueAll (tid : Z) (ns : list (option Term)) (visited : gset Z)
    (queue : list Term) (children : Z) : Outcome (gset Z * list Term * Z) :=
  match ns with
  | [] => Ok (visited, queue, children)
  | None :: _ => Panic NilNode
  | Some n :: ns' =>
      let nid := ID n in
      if negb (Traverse (tEdge G tid nid)) then
        enqueueAll tid ns' visited queue children
      else if decide (nid ∈ visited) then
        enqueueAll tid ns' visited queue children
      else
        enqueueAll tid ns' (visited ∪ {[ nid ]}) (queue ++ [n]) (children + 1)
  end.

(** Modelled from the spec: the loop [for b.queue.Len() > 0] of the
    breadth-first walk; the callback [until] receives the node and its
    depth and threads the variables that it assigns. *)
Fixpoint bfsLoop {St : Type} (fuel : nat) (until : Term -> Z -> St -> bool * St)
    (queue : list Term) (visited : gset Z) (depth children untilNext : Z)
    (st : St) : Outcome (option Term * St) :=
  match queue with
  | [] => Ok (None, st)
  | t :: queue' =>
      match fuel with
      | O => Panic OutOfFuel
      | S fuel' =>
          let '(stop, st') := until t depth st in
          if stop then Ok (Some t, st') else
          match enqueueAll (ID t) (tFrom G (ID t)) visited queue' children with
          | Panic e => Panic e
          | Ok (visited', queue'', children') =>
              if decide (untilNext - 1 = 0) then
                bfsLoop fuel' until queue'' visited' (depth + 1) 0 children' st'
              else
                bfsLoop fuel' until queue'' visited' depth children'
                        (untilNext - 1) st'
          end
      end
  end.

(** Modelled from the spec: [BreadthFirst.Walk] on a fresh
    [BreadthFirst]; the start node is visited at depth 0. *)
Definition BreadthFirstWalk {St : Type} (from_ : Term)
    (until : Term -> Z -> St -> bool * St) (st : St)
    : Outcome (option Term * St) :=
  bfsLoop (tBound G) until [from_] {[ ID from_ ]} 0 0 1 st.

(** Modelled from the spec: the loop [for to.Next()] of the depth-first
    walk. *)
Fixpoint pushAll (tid : Z) (ns : list (option Term)) (visited : gset Z)
    (stack : list Term) : Outcome (gset Z * list Term) :=
  match ns with
  | [] => Ok (visited, stack)
  | None :: _ => Panic NilNode
  | Some n :: ns' =>
      let nid := ID n in
      if negb (Traverse (tEdge G tid nid)) then pushAll tid ns' visited stack
      else if decide (nid ∈ visited) then pushAll tid ns' visited stack
      else pushAll tid ns' (visited ∪ {[ nid ]}) (n :: stack)
  end.

(** Modelled from the spec: the loop [for d.stack.Len() > 0] of the
    depth-first walk; it returns the node at which the callback returned
    true, or none. *)
Fixpoint dfsLoop (fuel : nat) (until : Term -> Outcome bool)
    (stack : list Term) (visited : gset Z) : Outcome (option Term) :=
  match stack with
  | [] => Ok None
  | t :: stack' =>
      match fuel with
      | O => Panic OutOfFuel
      | S fuel' =>
          match until t with
          | Panic e => Panic e
          | Ok true => Ok (Some t)
          | Ok false =>
              match pushAll (ID t) (tFrom G (ID t)) visited stack' with
              | Panic e => Panic e
              | Ok (visited', stack'') => dfsLoop fuel' until stack'' visited'
              end
          end
      end
  end.

(** Modelled from the spec: [DepthFirst.Walk] on a fresh [DepthFirst]. *)
Definition DepthFirstWalk (from_ : Term) (until : Term -> Outcome bool)
    : Outcome (option Term) :=
  dfsLoop (tBound G) until [from_] {[ ID from_ ]}.

End Walks.
End Traverse.

(** ** Queries *)

(** The backing arrays of the slices of terms, by location. *)
Definition loc := nat.
Abbreviation Arrays := (gmap loc (list Term)).

(** A slice [[]rdf.Term]: the window of [len] elements from the offset
    [off] of the array at [arr]. *)
Record Slice := mkSlice { arr : loc; off : nat; len : nat }.

(** [Query]; [qg] is the pointer to the graph. *)
Record Query := mkQuery { qg : nat; terms : Slice }.

(** The elements of a slice. *)
Definition view (s : Slice) (sl : Arrays) : list Term :=
  take (len s) (drop (off s) (sl !!! arr s)).

(** An array with the elements of the window of [s] replaced by [new]. *)
Definition splice (s : Slice) (new : list Term) (a : list Term) : list Term :=
  take (off s) a ++ new ++ drop (off s + len s) a.

Section Queries.
Context `{Runtime}.

(** [g.Query(from...)] for the graph at [gid] and the slice [from_]. *)
Definition GraphQuery (gid : nat) (from_ : Slice) : Query := mkQuery gid from_.

(** [Result]. *)
Definition Result (q : Query) (sl : Arrays) : list Term := view (terms q) sl.

(** A query on a new backing array: the slice that [append] has built
    from nil. *)
Definition newQuery (gid : nat) (r : list Term) (sl : Arrays)
    : Outcome Query * Arrays :=
  let l := fresh (dom sl) in
  (Ok (mkQuery gid (mkSlice l 0 (length r))), <[l := r]> sl).

(** [sort.Sort(byID(q.terms))], in place: the array of the slice holds
    the sorted elements in the window of the slice. *)
Definition sortTerms (q : Query) (sl : Arrays) : Arrays :=
  let s := terms q in
  alter (fun a => splice s (sortByID (take (len s) (drop (off s) a))) a)
        (arr s) sl.

(** The inner loop of [Out] and [In] at the term [sid]: [edge n] is the
    edge tested for the node [n]. *)
Fixpoint step (h : gmap addr Statement) (fn : Statement -> bool)
    (edge : Z -> list addr) (ns : list (option Term)) (r : list Term)
    : Outcome (list Term) :=
  match ns with
  | [] => Ok r
  | None :: _ => Panic NilNode
  | Some n :: ns' =>
      if ConnectedByAny h (edge (ID n)) fn then step h fn edge ns' (r ++ [n])
      else step h fn edge ns' r
  end.

(** The loop of [Out] over the terms of the receiver. *)
Fixpoint outTerms (w : World) (fn : Statement -> bool) (ts : list Term)
    (r : list Term) : Outcome (list Term) :=
  match ts with
  | [] => Ok r
  | s :: ts' =>
      match step (heap w) fn (fun v => Edge (graph w) (ID s) v)
                 (From (graph w) (ID s)) r with
      | Panic e => Panic e
      | Ok r' => outTerms w fn ts' r'
      end
  end.

(** The loop of [In]. *)
Fixpoint inTerms (w : World) (fn : Statement -> bool) (ts : list Term)
    (r : list Term) : Outcome (list Term) :=
  match ts with
  | [] => Ok r
  | s :: ts' =>
      match step (heap w) fn (fun u => Edge (graph w) u (ID s))
                 (To (graph w) (ID s)) r with
      | Panic e => Panic e
      | Ok r' => inTerms w fn ts' r'
      end
  end.

(** [Out]; [w] is the graph that [q.g] points to. *)
Definition Out (w : World) (fn : Statement -> bool) (q : Query)
    (sl : Arrays) : Outcome Query * Arrays :=
  match outTerms w fn (view (terms q) sl) [] with
  | Panic e => (Panic e, sl)
  | Ok r => newQuery (qg q) r sl
  end.

(** [In]. *)
Definition In (w : World) (fn : Statement -> bool) (q : Query)
    (sl : Arrays) : Outcome Query * Arrays :=
  match inTerms w fn (view (terms q) sl) [] with
  | Panic e => (Panic e, sl)
  | Ok r => newQuery (qg q) r sl
  end.

(** The merge loop of [And]: at most [n] turns from the indices [i] and
    [j]; it ends when an index leaves its slice. *)
Fixpoint andLoop (n : nat) (qs ps : list Term) (i j : nat) (r : list Term)
    : list Term :=
  match n with
  | O => r
  | S n' =>
      match qs !! i, ps !! j with
      | Some qi, Some pj =>
          if decide (ID qi < ID pj) then andLoop n' qs ps (S i) j r
          else if decide (ID pj < ID qi) then andLoop n' qs ps i (S j) r
          else andLoop n' qs ps (S i) (S j) (r ++ [qi])
      | _, _ => r
      end
  end.

(** [And]. *)
Definition And (q p : Query) (sl : Arrays) : Outcome Query * Arrays :=
  if decide (qg q ≠ qg p) then (Panic DistinctGraphs, sl) else
  let sl1 := sortTerms q sl in
  let sl2 := sortTerms p sl1 in
  let qs := view (terms q) sl2 in
  let ps := view (terms p) sl2 in
  newQuery (qg q) (andLoop (length qs + length ps) qs ps 0 0 []) sl2.

(** [len(r.terms) == 0 || r.terms[len(r.terms)-1].UID != t.UID]. *)
Definition isNew (r : list Term) (t : Term) : bool :=
  match last r with
  | None => true
  | Some x => bool_decide (UID x ≠ UID t)
  end.

Definition appendNew (r : list Term) (t : Term) : list Term :=
  if isNew r t then r ++ [t] else r.

(** The merge loop of [Or]; it returns the indices with the result. *)
Fixpoint orLoop (n : nat) (qs ps : list Term) (i j : nat) (r : list Term)
    : nat * nat * list Term :=
  match n with
  | O => (i, j, r)
  | S n' =>
      match qs !! i, ps !! j with
      | Some qi, Some pj =>
          if decide (ID qi < ID pj) then
            orLoop n' qs ps (S i) j (appendNew r qi)
          else if decide (ID pj < ID qi) then
            orLoop n' qs ps i (S j) (appendNew r pj)
          else orLoop n' qs ps (S i) (S j) (appendNew r qi)
      | _, _ => (i, j, r)
      end
  end.

(** [Or]. *)
Definition Or (q p : Query) (sl : Arrays) : Outcome Query * Arrays :=
  if decide (qg q ≠ qg p) then (Panic DistinctGraphs, sl) else
  let sl1 := sortTerms q sl in
  let sl2 := sortTerms p sl1 in
  let qs := view (terms q) sl2 in
  let ps := view (terms p) sl2 in
  let '(i, j, r) := orLoop (length qs + length ps) qs ps 0 0 [] in
  newQuery (qg q) ((r ++ drop i qs) ++ drop j ps) sl2.

(** The merge loop of [Not]. *)
Fixpoint notLoop (n : nat) (qs ps : list Term) (i j : nat) (r : list Term)
    : nat * nat * list Term :=
  match n with
  | O => (i, j, r)
  | S n' =>
      match qs !! i, ps !! j with
      | Some qi, Some pj =>
          if decide (ID qi < ID pj) then notLoop n' qs ps (S i) j (r ++ [qi])
          else if decide (ID pj < ID qi) then notLoop n' qs ps i (S j) r
          else notLoop n' qs ps (S i) j r
      | _, _ => (i, j, r)
      end
  end.

(** [s[lo:hi]]. The upper bound of Go is the capacity of [s]; where this
    is used [hi] is [len(s) + min(0, _)], which is never above the
    length. *)
Definition slice (s : list Term) (lo hi : Z) : Outcome (list Term) :=
  if decide (0 <= lo /\ lo <= hi /\ hi <= Z.of_nat (length s)) then
    Ok (take (Z.to_nat hi - Z.to_nat lo) (drop (Z.to_nat lo) s))
  else Panic SliceBounds.

(** [Not]. *)
Definition Not (q p : Query) (sl : Arrays) : Outcome Query * Arrays :=
  if decide (qg q ≠ qg p) then (Panic DistinctGraphs, sl) else
  let sl1 := sortTerms q sl in
  let sl2 := sortTerms p sl1 in
  let qs := view (terms q) sl2 in
  let ps := view (terms p) sl2 in
  let '(i, j, r) := notLoop (length qs + length ps) qs ps 0 0 [] in
  if decide (length r < length qs)%nat then
    let lenq := Z.of_nat (length qs) in
    let lenr := Z.of_nat (length r) in
    match slice qs (Z.of_nat i) (lenq + Z.min 0 (Z.of_nat i - lenr)) with
    | Panic e => (Panic e, sl2)
    | Ok tl => newQuery (qg q) (r ++ tl) sl2
    end
  else newQuery (qg q) r sl2.

(** The loop of [Unique]: [prev] is [q.terms[i-1]], none when [i == 0]. *)
Fixpoint uniqueLoop (prev : option Term) (ts : list Term) (r : list Term)
    : list Term :=
  match ts with
  | [] => r
  | t :: ts' =>
      match prev with
      | Some x =>
          if decide (UID t ≠ UID x) then uniqueLoop (Some t) ts' (r ++ [t])
          else uniqueLoop (Some t) ts' r
      | None => uniqueLoop (Some t) ts' (r ++ [t])
      end
  end.

(** [Unique]. *)
Definition Unique (q : Query) (sl : Arrays) : Outcome Query * Arrays :=
  let sl1 := sortTerms q sl in
  newQuery (qg q) (uniqueLoop None (view (terms q) sl1) []) sl1.

End Queries.

(** ** Ontology algorithms *)

(** [Descendant]; the field [Term] of the source is [DTerm] here. *)
Record Descendant := mkDescendant { DTerm : Term; Depth : Z }.

(** The double quote. *)
Definition dq : string := String "034"%char EmptyString.

(** The names that the algorithms select by the namespace of the graph. *)
Record Names := mkNames {
  goTerm : string;
  subClassOf : string;
  deprecated : string;
  w3True : string;
  standardRoots : list string
}.

Definition localNames : Names :=
  mkNames "<obo:GO_" "<rdfs:subClassOf>" "<owl:deprecated>"
    (dq +:+ "true" +:+ dq +:+ "^^<xsd:boolean>")
    [ "<obo:GO_0003674>"; "<obo:GO_0005575>"; "<obo:GO_0008150>" ].

Definition globalNames : Names :=
  mkNames "<http://purl.obolibrary.org/obo/GO_"
    "<http://www.w3.org/2000/01/rdf-schema#subClassOf>"
    "<http://www.w3.org/2002/07/owl#deprecated>"
    (dq +:+ "true" +:+ dq +:+ "^^<http://www.w3.org/2001/XMLSchema#boolean>")
    [ "<http://purl.obolibrary.org/obo/GO_0003674>";
      "<http://purl.obolibrary.org/obo/GO_0005575>";
      "<http://purl.obolibrary.org/obo/GO_0008150>" ].

(** The [switch g.namespace] that opens each algorithm. *)
Definition names (g : Graph) : option Names :=
  if decide (namespace g = local) then Some localNames
  else if decide (namespace g = global) then Some globalNames
  else None.

Section Ontology.
Context `{Runtime}.

(** The edge tests: a sub-class statement to, or from, a GO term. *)
Definition isaTo (nm : Names) (s : Statement) : bool :=
  HasPrefix (Value (Object s)) (goTerm nm)
  && bool_decide (Value (Predicate s) = subClassOf nm).

Definition isaFrom (nm : Names) (s : Statement) : bool :=
  HasPrefix (Value (Subject s)) (goTerm nm)
  && bool_decide (Value (Predicate s) = subClassOf nm).

(** [DescendantsOf]. *)
Definition DescendantsOf (w : World) (t : Term) : Outcome (list Descendant) :=
  match names (graph w) with
  | None => Ok []
  | Some nm =>
      if negb (HasPrefix (Value t) (goTerm nm)) then Ok [] else
      match
        BreadthFirstWalk (reverse (graph w))
          (fun e => ConnectedByAny (heap w) e (isaFrom nm)) t
          (fun n d desc =>
             (false, if decide (n ≠ t) then desc ++ [mkDescendant n d]
                     else desc))
          []
      with
      | Panic e => Panic e
      | Ok (_, desc) => Ok desc
      end
  end.

(** [IsDescendantOf]. *)
Definition IsDescendantOf (w : World) (a q : Term) : Outcome (bool * Z) :=
  match names (graph w) with
  | None => Ok (false, -1)
  | Some nm =>
      if negb (HasPrefix (Value a) (goTerm nm)) then Ok (false, -1) else
      if negb (HasPrefix (Value q) (goTerm nm)) then Ok (false, -1) else
      match
        BreadthFirstWalk (forward (graph w))
          (fun e => ConnectedByAny (heap w) e (isaTo nm)) q
          (fun n d st => if decide (n = a) then (true, (true, d))
                         else (false, st))
          (false, -1)
      with
      | Panic e => Panic e
      | Ok (_, yd) => Ok yd
      end
  end.

(** The first loop of [Roots]: the standard roots that [TermFor] finds. *)
Fixpoint knownRoots (w : World) (rs : list string) (rootSet : gset Term)
    : Outcome (gset Term) :=
  match rs with
  | [] => Ok rootSet
  | r :: rs' =>
      match TermFor w r with
      | Panic e => Panic e
      | Ok (t, true) => knownRoots w rs' (rootSet ∪ {[ t ]})
      | Ok (_, false) => knownRoots w rs' rootSet
      end
  end.

(** The callback of the depth-first walk of [Roots]: a GO term that is
    not deprecated and has no sub-class statement to a GO term. *)
Definition isFinal (w : World) (nm : Names) (t : Term) : Outcome bool :=
  if negb (HasPrefix (Value t) (goTerm nm)) then Ok false else
  match
    outTerms w (fun s => bool_decide (Value (Predicate s) = deprecated nm)
                         && bool_decide (Value (Object s) = w3True nm))
             [t] []
  with
  | Panic e => Panic e
  | Ok dep =>
      if decide (length dep ≠ 0%nat) then Ok false else
      match outTerms w (isaTo nm) [t] [] with
      | Panic e => Panic e
      | Ok more => Ok (bool_decide (length more = 0%nat))
      end
  end.

(** The second loop of [Roots]: a walk from each node. *)
Fixpoint searchRoots (w : World) (nm : Names) (ns : list Term)
    (rootSet : gset Term) : Outcome (gset Term) :=
  match ns with
  | [] => Ok rootSet
  | t :: ns' =>
      match
        DepthFirstWalk (forward (graph w))
          (fun e => ConnectedByAny (heap w) e (isaTo nm)) t (isFinal w nm)
      with
      | Panic e => Panic e
      | Ok (Some final) => searchRoots w nm ns' (rootSet ∪ {[ final ]})
      | Ok None => searchRoots w nm ns' rootSet
      end
  end.

(** [Roots]. *)
Definition Roots (w : World) (force : bool) : Outcome (list Term) :=
  match names (graph w) with
  | None => Ok []
  | Some nm =>
      match knownRoots w (standardRoots nm) ∅ with
      | Panic e => Panic e
      | Ok rootSet =>
          if force || bool_decide (size rootSet = 0%nat) then
            match
              searchRoots w nm
                (order ((map_to_list (nodes (graph w))).*2)) rootSet
            with
            | Panic e => Panic e
            | Ok rootSet' => Ok (order (elements rootSet'))
            end
          else Ok (order (elements rootSet))
      end
  end.

End Ontology.

(** ** The properties of the store that the statements below use *)

(** The forward and the reverse index hold the same lines. *)
Definition mirror (g : Graph) : Prop :=
  forall s o l, line (from g) s o l = line (to g) o s l.

(** ** One runtime

    The statements that hold for every runtime are proved for every
    runtime; a closed example needs one. This one yields the entries of
    a map in the order in which [gmap] lists them, sorts by merging, and
    reads a term by its first and last character, which is what
    [rdf.Term.Parts] finds for the IRIs, blank nodes and literals of the
    examples below. *)

Definition byID (x y : Term) : Prop := ID x <= ID y.

#[global] Instance byID_dec x y : Decision (byID x y).
Proof. unfold byID. apply _. Defined.

#[global] Instance byID_trans : Transitive byID.
Proof. unfold byID. intros x y z. lia. Qed.

#[global] Instance byID_total : Total byID.
Proof. unfold byID. intros x y. lia. Qed.

Definition plainParts (v : string) : PartsOut :=
  let n := String.length v in
  if String.prefix "<" v && String.eqb (substring (n - 1) 1 v) ">" then
    mkParts (substring 1 (n - 2) v) EmptyString IRI false
  else if String.prefix "_:" v then
    mkParts (substring 2 (n - 2) v) EmptyString Blank false
  else if String.prefix dq v then
    mkParts v EmptyString Literal false
  else mkParts EmptyString EmptyString Invalid true.

Definition plain : Runtime :=
  {| Parts := plainParts;
     order := fun A l => l;
     order_perm := fun A l => Permutation_refl l;
     sortByID := merge_sort byID;
     sortByID_perm := merge_sort_Permutation byID;
     sortByID_sorted := StronglySorted_merge_sort byID |}.

(** The same runtime with every iteration in the opposite order. *)
Definition reversed : Runtime :=
  {| Parts := plainParts;
     order := fun A l => rev l;
     order_perm := fun A l => Permutation_sym (Permutation_rev l);
     sortByID := merge_sort byID;
     sortByID_perm := merge_sort_Permutation byID;
     sortByID_sorted := StronglySorted_merge_sort byID |}.

(** ** Examples used by the closed statements *)

Module Ex.

(** Terms with handles given by the client. *)
Definition A : Term := mkTerm "<ex:A>" 1.
Definition B : Term := mkTerm "<ex:B>" 2.
Definition T : Term := mkTerm "<ex:T>" 3.
Definition p : Term := mkTerm "<ex:p>" 10.

(** Two instances of one statement. *)
Definition twins : gmap addr Statement :=
  {[ 1%nat := mkStatement A p B; 2%nat := mkStatement A p B ]}.

End Ex.

(** Every instance in the predicate index is in [S]. *)
Definition indexedIn (S : gset addr) (g : Graph) : Prop :=
  forall k x, x ∈ pred g !!! k -> x ∈ S.

(** The zero-handle term of a text, as a decoder hands it over when the
    client has reset the UIDs. *)
Definition fresh_term (v : string) : Term := mkTerm v 0.

Module Ex2.

(** A statement whose subject is a literal. *)
Definition literal_subject : gmap addr Statement :=
  {[ 1%nat := mkStatement (fresh_term (dq +:+ "x" +:+ dq))
                          (fresh_term "<ex:p>") (fresh_term "<ex:B>") ]}.

(** Two instances of one triple, and a third with another predicate. *)
Definition triples : gmap addr Statement :=
  {[ 1%nat := mkStatement (fresh_term "<ex:A>") (fresh_term "<ex:p>")
                          (fresh_term "<ex:B>");
     2%nat := mkStatement (fresh_term "<ex:A>") (fresh_term "<ex:p>")
                          (fresh_term "<ex:B>");
     3%nat := mkStatement (fresh_term "<ex:A>") (fresh_term "<ex:q>")
                          (fresh_term "<ex:B>") ]}.

(** Two statements into one object. *)
Definition fan_in : gmap addr Statement :=
  {[ 1%nat := mkStatement Ex.A Ex.p Ex.T;
     2%nat := mkStatement Ex.B Ex.p Ex.T ]}.

End Ex2.

(** The nodes after the first half of [setLine]. *)
Definition withNode (n : Term) (g : Graph) : Graph :=
  if decide (nodes g !! ID n = None)
  then set_ids (uid.Use (ID n)) (set_nodes (<[ID n := n]>) g)
  else set_nodes (<[ID n := n]>) g.


(** A slice lies within its array. *)
Definition bounded (s : Slice) (sl : Arrays) : Prop :=
  exists a, sl !! arr s = Some a /\ (off s + len s <= length a)%nat.

(** Two slices share no element of an array. *)
Definition apart (s t : Slice) : Prop :=
  arr s ≠ arr t \/ len s = 0%nat \/ len t = 0%nat
  \/ (off s + len s <= off t)%nat \/ (off t + len t <= off s)%nat.

(** Two slices that a binary combinator can sort one after the other
    without the second sort moving elements of the first: the same slice,
    or slices with no element in common. *)
Definition separate (s t : Slice) : Prop := s = t \/ apart s t.

#[global] Instance Slice_eq_dec : EqDecision Slice.
Proof. solve_decision. Defined.

#[global] Instance bounded_dec s sl : Decision (bounded s sl).
Proof.
  unfold bounded. destruct (sl !! arr s) as [a|].
  - destruct (decide (off s + len s <= length a)%nat).
    + left. by exists a.
    + right. intros (b & [= <-] & ?). done.
  - right. by intros (b & [=] & ?).
Defined.

#[global] Instance separate_dec s t : Decision (separate s t).
Proof. unfold separate, apart. apply _. Defined.

(** The frontier of the query that a combinator returns. *)
Definition resultOf (o : Outcome Query * Arrays) : option (list Term) :=
  match o with
  | (Ok r, sl) => Some (Result r sl)
  | (Panic _, _) => None
  end.

(** A combinator returns a query on a new backing array and leaves the
    frontier of its receiver [q] sorted by ID: the same terms, each as
    often as before. *)
Definition sorts_receiver (q : Query) (sl : Arrays)
    (o : Outcome Query * Arrays) : Prop :=
  exists r sl',
    o = (Ok r, sl')
    /\ (arr (terms r) ∉ dom sl)
    /\ Permutation (Result q sl') (Result q sl)
    /\ StronglySorted byID (Result q sl').

Module Ex3.

Definition t1 : Term := mkTerm "<ex:t1>" 1.
Definition t5 : Term := mkTerm "<ex:t5>" 5.
Definition t6 : Term := mkTerm "<ex:t6>" 6.

(** One graph, four arrays: a frontier out of order, a frontier that
    holds one term twice, an empty one, and the array [ts] of which
    [ts[0:2]] and [ts[1:3]] are two frontiers that overlap. *)
Definition slices : Arrays :=
  {[ 0%nat := [Ex.B; Ex.A]; 1%nat := [Ex.A; Ex.A]; 2%nat := [];
     3%nat := [t5; t6; t1] ]}.
Definition q : Query := GraphQuery 0%nat (mkSlice 0%nat 0%nat 2%nat).
Definition twice : Query := GraphQuery 0%nat (mkSlice 1%nat 0%nat 2%nat).
Definition none : Query := GraphQuery 0%nat (mkSlice 2%nat 0%nat 0%nat).
Definition low : Query := GraphQuery 0%nat (mkSlice 3%nat 0%nat 2%nat).
Definition high : Query := GraphQuery 0%nat (mkSlice 3%nat 1%nat 2%nat).

End Ex3.

(** ** What a walk visits *)

Section Visits.
Context `{Runtime}.
Variable G : TraverseGraph.
Variable Traverse : list addr -> bool.

(** The nodes that the breadth-first walk hands to its callback, each
    with its depth, when the callback never stops the walk: the loop of
    [bfsLoop] without the callback. *)
Fixpoint bfsTrace (fuel : nat) (queue : list Term) (visited : gset Z)
    (depth children untilNext : Z) : Outcome (list (Term * Z)) :=
  match queue with
  | [] => Ok []
  | t :: queue' =>
      match fuel with
      | O => Panic OutOfFuel
      | S fuel' =>
          match enqueueAll G Traverse (ID t) (tFrom G (ID t)) visited queue'
                           children with
          | Panic e => Panic e
          | Ok (visited', queue'', children') =>
              match
                (if decide (untilNext - 1 = 0) then
                   bfsTrace fuel' queue'' visited' (depth + 1) 0 children'
                 else
                   bfsTrace fuel' queue'' visited' depth children'
                            (untilNext - 1))
              with
              | Panic e => Panic e
              | Ok tr => Ok ((t, depth) :: tr)
              end
          end
      end
  end.

(** The callback applied along a list of visits, up to the first visit
    at which it stops. *)
Fixpoint scan {St : Type} (until : Term -> Z -> St -> bool * St)
    (tr : list (Term * Z)) (st : St) : option Term * St :=
  match tr with
  | [] => (None, st)
  | (t, d) :: tr' =>
      let '(stop, st') := until t d st in
      if stop then (Some t, st') else scan until tr' st'
  end.

(** An edge that the walk follows from [u] to [v]. *)
Definition follows (u v : Z) : Prop :=
  exists n, Some n ∈ tFrom G u /\ ID n = v /\ Traverse (tEdge G u v) = true.

End Visits.

(** A path of [n] edges. *)
Inductive path (E : Z -> Z -> Prop) : nat -> Z -> Z -> Prop :=
| path_here u : path E 0 u u
| path_step n u v w : path E n u v -> E v w -> path E (S n) u w.

(** The number of edges of a shortest path. *)
Definition dist (E : Z -> Z -> Prop) (u v : Z) (d : nat) : Prop :=
  path E d u v /\ forall n, (n < d)%nat -> ~ path E n u v.

(** Reached by a path of at most [k] edges. *)
Definition within (E : Z -> Z -> Prop) (u : Z) (k : nat) (v : Z) : Prop :=
  exists n, (n <= k)%nat /\ path E n u v.

(** ** Graphs whose statements agree with the node table *)

(** The statement of a line has the nodes of its cell as subject and
    object, and the line is in the reverse index. *)
Definition line_ok (w : World) (u v l : Z) (x : addr) : Prop :=
  nodes (graph w) !! u = Some (Subject (heap w !!! x))
  /\ nodes (graph w) !! v = Some (Object (heap w !!! x))
  /\ line (to (graph w)) v u l = Some x.

Definition consistent (w : World) : Prop :=
  map_Forall (fun k n => UID n = k) (nodes (graph w))
  /\ map_Forall (fun u mu => map_Forall (fun v c =>
       is_Some (nodes (graph w) !! v)
       /\ map_Forall (fun l x => line_ok w u v l x) c) mu) (from (graph w))
  /\ map_Forall (fun v mv => map_Forall (fun u c =>
       is_Some (nodes (graph w) !! u)
       /\ map_Forall (fun l x => line (from (graph w)) u v l = Some x) c) mv)
       (to (graph w)).

#[global] Instance line_ok_dec w u v l x : Decision (line_ok w u v l x).
Proof. unfold line_ok. apply _. Defined.

#[global] Instance consistent_dec w : Decision (consistent w).
Proof. unfold consistent. apply _. Defined.

Module Ex4.

(** [GO_1] is a sub-class of [GO_2], which is one of [GO_3]. *)
Definition chain : gmap addr Statement :=
  {[ 1%nat := mkStatement (fresh_term "<obo:GO_1>")
                (fresh_term "<rdfs:subClassOf>") (fresh_term "<obo:GO_2>");
     2%nat := mkStatement (fresh_term "<obo:GO_2>")
                (fresh_term "<rdfs:subClassOf>") (fresh_term "<obo:GO_3>") ]}.

(** Handles given by the client: the handle 1 stands for [<ex:x>] in
    the first statement and for [<obo:GO_1>] in the second. *)
Definition collide : gmap addr Statement :=
  {[ 1%nat := mkStatement (mkTerm "<ex:x>" 1)
                (mkTerm "<rdfs:subClassOf>" 10) (mkTerm "<obo:GO_2>" 2);
     2%nat := mkStatement (mkTerm "<obo:GO_1>" 1)
                (mkTerm "<ex:p>" 11) (mkTerm "<obo:GO_3>" 3) ]}.

Definition GO_1 : Term := mkTerm "<obo:GO_1>" 0.
Definition GO_2 : Term := mkTerm "<obo:GO_2>" 2.
Definition GO_3 : Term := mkTerm "<obo:GO_3>" 3.

End Ex4.

(** ** Graphs built by calls *)

(** [idx[u]] has the key [v]. *)
Definition key (idx : Index) (u v : Z) : Prop :=
  is_Some (idx !! u ≫= fun mu => mu !! v).

(** Every cell of the forward index holds a line, and its second end
    point is a node. *)
Definition closed (g : Graph) : Prop :=
  forall u v, key (from g) u v ->
    (exists l x, line (from g) u v l = Some x) /\ is_Some (nodes g !! v).

(** ** The conditions of the statement on [Roots] *)

#[global] Instance Outcome_eq_dec {A} `{EqDecision A} : EqDecision (Outcome A).
Proof. solve_decision. Defined.

Section RootsConditions.
Context `{Runtime}.

(** [TermFor] finds the term of a text. *)
Definition present (w : World) (r : string) : bool :=
  match TermFor w r with
  | Ok (_, true) => true
  | _ => false
  end.

(** Every node at which the search of [Roots] ends is one of the
    standard roots, as [TermFor] finds them. *)
Definition ends_at_roots (w : World) (nm : Names) : Prop :=
  map_Forall (fun _ n =>
    isFinal w nm n = Ok true ->
    Exists (fun r => TermFor w r = Ok (n, true)) (standardRoots nm))
    (nodes (graph w)).

#[global] Instance ends_at_roots_dec w nm : Decision (ends_at_roots w nm).
Proof. unfold ends_at_roots. apply _. Defined.

End RootsConditions.

Module Ex5.

(** A term under each of the three roots, and a deprecated term. *)
Definition ontology : gmap addr Statement :=
  {[ 1%nat := mkStatement (fresh_term "<obo:GO_1>")
                (fresh_term "<rdfs:subClassOf>")
                (fresh_term "<obo:GO_0003674>");
     2%nat := mkStatement (fresh_term "<obo:GO_2>")
                (fresh_term "<rdfs:subClassOf>")
                (fresh_term "<obo:GO_0005575>");
     3%nat := mkStatement (fresh_term "<obo:GO_3>")
                (fresh_term "<rdfs:subClassOf>")
                (fresh_term "<obo:GO_0008150>");
     4%nat := mkStatement (fresh_term "<obo:GO_4>")
                (fresh_term "<owl:deprecated>")
                (fresh_term (dq +:+ "true" +:+ dq +:+ "^^<xsd:boolean>")) ]}.

Definition calls : list Op := [Add 1%nat; Add 2%nat; Add 3%nat; Add 4%nat].

End Ex5.


(** * The rest of the store, of the queries and of the ontology *)

(** ** Nodes and edges by ID *)

(** [Node]: nil is [None]. *)
Definition Node (g : Graph) (id : Z) : option Term := nodes g !! id.

(** [HasEdgeFromTo]. *)
Definition HasEdgeFromTo (g : Graph) (uid vid : Z) : bool :=
  bool_decide (is_Some ((from g !!! uid) !! vid)).

(** [HasEdgeBetween]. *)
Definition HasEdgeBetween (g : Graph) (xid yid : Z) : bool :=
  if bool_decide (is_Some ((from g !!! xid) !! yid)) then true
  else bool_decide (is_Some ((from g !!! yid) !! xid)).

(** ** What every call keeps of the indices *)

(** No cell of an index is empty. *)
Definition full (idx : Index) : Prop :=
  forall u v, key idx u v -> exists l x, line idx u v l = Some x.

(** Every ID with an entry in the forward or in the reverse index is the
    ID of a node. *)
Definition anchored (g : Graph) : Prop :=
  (forall u, is_Some (from g !! u) -> is_Some (nodes g !! u))
  /\ (forall v, is_Some (to g !! v) -> is_Some (nodes g !! v)).

(** Every node is stored under its own ID. *)
Definition keyed (g : Graph) : Prop :=
  forall k n, nodes g !! k = Some n -> ID n = k.

Definition kept (g : Graph) : Prop :=
  mirror g /\ closed g /\ full (to g) /\ anchored g /\ keyed g.

(** ** Calls that return *)

(** From no world of [P] the computation [m] panics. *)
Definition safe {A} (P : World -> Prop) (m : M A) : Prop :=
  forall w, P w -> exists a, (m w).1 = Ok a.

(** The statement [s] with the handles [i], [j] and [k] for its subject,
    predicate and object. *)
Definition withUIDs (s : Statement) (i j k : Z) : Statement :=
  mkStatement (mkTerm (Value (Subject s)) i) (mkTerm (Value (Predicate s)) j)
              (mkTerm (Value (Object s)) k).

(** The terms of the statement [s] come with handles of their own and
    are new to the graph: no handle is 0 or the ID of a node, no
    statement is recorded under the handle of the predicate, and no text
    is interned. *)
Definition newTo (g : Graph) (s : Statement) : Prop :=
  UID (Subject s) ≠ 0 /\ UID (Predicate s) ≠ 0 /\ UID (Object s) ≠ 0
  /\ nodes g !! UID (Subject s) = None
  /\ nodes g !! UID (Predicate s) = None
  /\ nodes g !! UID (Object s) = None
  /\ pred g !! UID (Predicate s) = None
  /\ termIDs g !! Value (Subject s) = None
  /\ termIDs g !! Value (Predicate s) = None
  /\ termIDs g !! Value (Object s) = None.

#[global] Instance newTo_dec g s : Decision (newTo g s).
Proof. unfold newTo. apply _. Defined.

(** ** Listings of the graph *)

(** A [multi.Edge]: its two ends, nil when [g.Node] finds none, and its
    lines. *)
Record MultiEdge := mkEdge {
  EF : option Term;
  ET : option Term;
  ELines : list addr
}.

Section Listings.
Context `{Runtime}.

(** [Nodes]: the iterator over the node table. *)
Definition Nodes (g : Graph) : list Term := order ((map_to_list (nodes g)).*2).

(** The inner loop of [Edges] for the node [u]: one edge for every cell
    of [g.from[u.ID()]] that holds a line. *)
Definition edgesFrom (w : World) (u : Term) : list MultiEdge :=
  let g := graph w in
  omap (fun e : gmap Z addr =>
          let lines := order ((map_to_list e).*2) in
          match lines with
          | [] => None
          | l0 :: _ =>
              Some (mkEdge (Node g (ID u))
                           (Node g (ID (Object (heap w !!! l0)))) lines)
          end)
       (order ((map_to_list (from g !!! ID u)).*2)).

(** [Edges]. *)
Definition Edges (w : World) : list MultiEdge :=
  concat (edgesFrom w <$> order ((map_to_list (nodes (graph w))).*2)).

(** The loop of [Predicates]: [p[i] = s.Predicate; i++] for the first
    statement of each set. An index out of range panics. *)
Fixpoint predLoop (h : gmap addr Statement) (sets : list (gset addr))
    (p : list Term) (i : nat) : Outcome (list Term) :=
  match sets with
  | [] => Ok p
  | statements :: sets' =>
      match order (elements statements) with
      | s :: _ =>
          if decide (i < length p)%nat
          then predLoop h sets' (<[i := Predicate (h !!! s)]> p) (S i)
          else Panic SliceBounds
      | [] => predLoop h sets' p i
      end
  end.

(** [Predicates]. *)
Definition Predicates (w : World) : Outcome (list Term) :=
  let g := graph w in
  predLoop (heap w) (order ((map_to_list (pred g)).*2))
           (replicate (size (pred g)) inhabitant) 0.

End Listings.

(** No set of the predicate index is empty. *)
Definition inhabited_pred (g : Graph) : Prop :=
  forall k st, pred g !! k = Some st -> st ≠ ∅.

(** ** The statement iterator *)

(** [Statements]: what the iterators [eit] and [lit] have not yet
    yielded; nil is [None]. *)
Record Statements := mkStatements {
  eit : option (list MultiEdge);
  lit : option (list addr)
}.

(** [Next], with the statement that [Statement] returns after it: the
    line at which [lit] then stands. *)
Definition Next (s : Statements) : option addr * Statements :=
  match lit s with
  | Some (a :: rest) => (Some a, mkStatements (eit s) (Some rest))
  | _ =>
      match eit s with
      | None | Some [] => (None, s)
      | Some (e :: es) =>
          match ELines e with
          | a :: rest => (Some a, mkStatements (Some es) (Some rest))
          | [] => (None, mkStatements (Some es) (Some []))
          end
      end
  end.

(** [for it.Next() { ... it.Statement() ... }]: the statements of the
    first [n] turns of the loop. *)
Fixpoint statements (n : nat) (s : Statements) : list addr :=
  match n with
  | O => []
  | S n' =>
      match Next s with
      | (Some a, s') => a :: statements n' s'
      | (None, _) => []
      end
  end.

Section Iterators.
Context `{Runtime}.

(** [AllStatements]. *)
Definition AllStatements (w : World) : Statements :=
  mkStatements (Some (Edges w)) None.

(** [g.Statements(uid, vid)]. *)
Definition GraphStatements (g : Graph) (uid vid : Z) : Statements :=
  mkStatements None (Some (Lines g uid vid)).

End Iterators.

(** The lines of an index, cell by cell. *)
Definition allLines (idx : Index) : list addr :=
  concat ((fun mu : gmap Z (gmap Z addr) =>
             concat ((fun c : gmap Z addr => (map_to_list c).*2)
                       <$> (map_to_list mu).*2))
            <$> (map_to_list idx).*2).

(** ** Ancestors *)

(** A line from [u] to [v] whose statement passes the test [fn]: the
    edges that a walk with the test [ConnectedByAny(e, fn)] follows. *)
Definition linked (w : World) (fn : Statement -> bool) (u v : Z) : Prop :=
  exists l x, line (from (graph w)) u v l = Some x /\ fn (heap w !!! x) = true.

(** [v] is reached from [u] along such lines. *)
Definition reaches (w : World) (fn : Statement -> bool) (u v : Z) : Prop :=
  exists n, path (linked w fn) n u v.

(** The test of the first query in the callback of [Roots]: the
    statement says that its subject is deprecated. *)
Definition isDeprecated (nm : Names) (s : Statement) : bool :=
  bool_decide (Value (Predicate s) = deprecated nm)
  && bool_decide (Value (Object s) = w3True nm).

Section Ancestors.
Context `{Runtime}.

(** [ClosestCommonAncestor]: the first walk fills [seen], the second
    one stops at the first node that the first has seen. *)
Definition ClosestCommonAncestor (w : World) (a b : Term)
    : Outcome (Term * bool) :=
  match names (graph w) with
  | None => Ok (inhabitant, false)
  | Some nm =>
      if negb (HasPrefix (Value a) (goTerm nm))
         || negb (HasPrefix (Value b) (goTerm nm))
      then Ok (inhabitant, false) else
      if decide (a = b) then Ok (a, true) else
      let Traverse := fun e => ConnectedByAny (heap w) e (isaTo nm) in
      match
        BreadthFirstWalk (forward (graph w)) Traverse a
          (fun n d (seen : gset Z) => (false, seen ∪ {[ ID n ]})) ∅
      with
      | Panic e => Panic e
      | Ok (_, seen) =>
          match
            BreadthFirstWalk (forward (graph w)) Traverse b
              (fun n d (st : Term * bool) =>
                 if decide (ID n ∈ seen) then (true, (n, true))
                 else (false, st))
              (inhabitant, false)
          with
          | Panic e => Panic e
          | Ok (_, rok) => Ok rok
          end
      end
  end.

End Ancestors.


(** * Properties *)

(** ** Invariants of monadic code *)

Section Invariants.
Context `{Runtime}.

Lemma inv_ret {A} P (a : A) : inv P (mret a).
Proof. by intros w Hw. Qed.

Lemma inv_panic {A} P e : inv P (@panic A e).
Proof. by intros w Hw. Qed.

Lemma inv_lift {A} P (o : Outcome A) : inv P (lift o).
Proof. by intros w Hw. Qed.

Lemma inv_getG P : inv P getG.
Proof. by intros w Hw. Qed.

Lemma inv_load P a : inv P (load a).
Proof. by intros w Hw. Qed.

Lemma inv_bind {A B} P (m : M A) (k : A -> M B) :
  inv P m -> (forall a, inv P (k a)) -> inv P (m ≫= k).
Proof.
  intros Hm Hk w Hw. unfold mbind, M_bind, bind.
  specialize (Hm w Hw). destruct (m w) as [[a|e] w']; simpl in *; [|done].
  by apply Hk.
Qed.

Lemma inv_modifyG (P : Graph -> Prop) f :
  (forall g, P g -> P (f g)) -> inv (onGraph P) (modifyG f).
Proof. intros Hf w Hw. by apply Hf. Qed.

Lemma inv_store (P : Graph -> Prop) a s : inv (onGraph P) (store a s).
Proof. by intros w Hw. Qed.

End Invariants.

(** Unfolding of the monad, for proofs by computation. *)
Ltac unfold_M :=
  unfold mbind, M_bind, bind, mret, M_ret, ret, panic, getG, modifyG, load,
    store, lift in *.

Ltac inv_step :=
  first
    [ apply inv_ret | apply inv_panic | apply inv_lift | apply inv_getG
    | apply inv_load | apply inv_store
    | apply inv_bind; [| intros ?] ].

(** ** Lines of an index *)

Section Lines.
Context `{Runtime}.

Lemma line_alt (idx : Index) u v l :
  line idx u v l = idx !! u ≫= fun mu => mu !! v ≫= fun c => c !! l.
Proof.
  unfold line, cell. rewrite !lookup_total_alt.
  destruct (idx !! u) as [mu|]; simpl; [|done].
  by destruct (mu !! v).
Qed.

Lemma line_empty u v l : line (∅ : Index) u v l = None.
Proof. by rewrite line_alt, lookup_empty. Qed.

Lemma line_putLine u v l a (idx : Index) u' v' l' :
  line (putLine u v l a idx) u' v' l' =
  if decide (u' = u /\ v' = v /\ l' = l) then Some a else line idx u' v' l'.
Proof.
  rewrite !line_alt. unfold putLine.
  destruct (idx !! u) as [mu|] eqn:Hu.
  - destruct (mu !! v) as [c|] eqn:Hv.
    + rewrite lookup_insert. destruct (decide (u = u')) as [<-|]; simpl.
      * rewrite lookup_insert, Hu. simpl.
        destruct (decide (v = v')) as [<-|]; simpl.
        -- rewrite lookup_insert, Hv. simpl.
           destruct (decide (l = l')) as [<-|]; case_decide; naive_solver.
        -- case_decide; naive_solver.
      * case_decide; naive_solver.
    + rewrite lookup_insert. destruct (decide (u = u')) as [<-|]; simpl.
      * rewrite lookup_insert, Hu. simpl.
        destruct (decide (v = v')) as [<-|]; simpl.
        -- rewrite lookup_singleton, Hv. simpl.
           destruct (decide (l = l')) as [<-|]; case_decide; naive_solver.
        -- case_decide; naive_solver.
      * case_decide; naive_solver.
  - rewrite lookup_insert. destruct (decide (u = u')) as [<-|]; simpl.
    + rewrite Hu. simpl. rewrite lookup_singleton.
      destruct (decide (v = v')) as [<-|]; simpl.
      * rewrite lookup_singleton.
        destruct (decide (l = l')) as [<-|]; case_decide; naive_solver.
      * case_decide; naive_solver.
    + case_decide; naive_solver.
Qed.

Lemma line_alter_delete_line u v l (idx : Index) u' v' l' :
  line (alter (alter (delete l) v) u idx) u' v' l' =
  if decide (u' = u /\ v' = v /\ l' = l) then None else line idx u' v' l'.
Proof.
  rewrite !line_alt, lookup_alter.
  destruct (decide (u = u')) as [<-|]; [|case_decide; naive_solver].
  destruct (idx !! u) as [mu|]; simpl; [|by case_decide].
  rewrite lookup_alter.
  destruct (decide (v = v')) as [<-|]; [|case_decide; naive_solver].
  destruct (mu !! v) as [c|]; simpl; [|by case_decide].
  rewrite lookup_delete.
  destruct (decide (l = l')) as [<-|]; case_decide; naive_solver.
Qed.

Lemma line_alter_delete_cell v u (idx : Index) u' v' l' :
  line (alter (delete v) u idx) u' v' l' =
  if decide (u' = u /\ v' = v) then None else line idx u' v' l'.
Proof.
  rewrite !line_alt, lookup_alter.
  destruct (decide (u = u')) as [<-|]; [|case_decide; naive_solver].
  destruct (idx !! u) as [mu|]; simpl; [|by case_decide].
  rewrite lookup_delete.
  destruct (decide (v = v')) as [<-|]; case_decide; naive_solver.
Qed.

Lemma line_empty_cell (idx : Index) u v l :
  size (cell idx u v) = 0%nat -> line idx u v l = None.
Proof.
  intros Hs%map_size_empty_inv. unfold line. by rewrite Hs, lookup_empty.
Qed.

Lemma line_dropLine u v l (idx : Index) u' v' l' :
  line (dropLine u v l idx) u' v' l' =
  if decide (u' = u /\ v' = v /\ l' = l) then None else line idx u' v' l'.
Proof.
  unfold dropLine. case_decide as Hs.
  - rewrite line_alter_delete_cell.
    destruct (decide (u' = u /\ v' = v)) as [[-> ->]|].
    + apply (line_empty_cell _ _ _ l') in Hs.
      by rewrite line_alter_delete_line in Hs.
    + rewrite line_alter_delete_line. case_decide; naive_solver.
  - apply line_alter_delete_line.
Qed.

Lemma line_dropAll id ks (idx : Index) u v l :
  line (dropAll id ks idx) u v l =
  if decide (u ∈ ks /\ v = id) then None else line idx u v l.
Proof.
  unfold dropAll. revert idx.
  induction ks as [|k ks IH]; intros idx; cbn [fold_left].
  - rewrite decide_False; [done|]. intros [Hd _]. by apply elem_of_nil in Hd.
  - rewrite IH, line_alter_delete_cell.
    repeat case_decide; try done; set_solver.
Qed.

Lemma line_delete id (idx : Index) u v l :
  line (delete id idx) u v l =
  if decide (u = id) then None else line idx u v l.
Proof.
  rewrite !line_alt, lookup_delete.
  destruct (decide (id = u)) as [<-|]; case_decide; naive_solver.
Qed.

Lemma elem_of_keys {V} (m : gmap Z V) k : k ∈ keys m <-> is_Some (m !! k).
Proof.
  unfold keys. rewrite (order_perm _ (elements (dom m))).
  by rewrite elem_of_elements, elem_of_dom.
Qed.

(** A line of the index is in the map of its first end point. *)
Lemma line_keys (idx : Index) u v l a :
  line idx u v l = Some a -> v ∈ keys (idx !!! u).
Proof.
  rewrite line_alt, elem_of_keys, lookup_total_alt.
  destruct (idx !! u) as [mu|]; simpl; [|done].
  destruct (mu !! v); simpl; [eauto|done].
Qed.

End Lines.

(** ** The forward and the reverse index mirror each other *)

Section Mirror.
Context `{Runtime}.

Lemma mirror_new : mirror NewGraph.
Proof. intros s o l. simpl. by rewrite !line_empty. Qed.

Lemma mirror_setLine fid tid lid a g :
  mirror g ->
  mirror (set_to (putLine tid fid lid a) (set_from (putLine fid tid lid a) g)).
Proof.
  intros Hm s o l. simpl. rewrite !line_putLine, Hm.
  repeat case_decide; naive_solver.
Qed.

Lemma mirror_removeLine fid tid id g : mirror g -> mirror (removeLine fid tid id g).
Proof.
  intros Hm. unfold removeLine. repeat case_decide; try done.
  intros s o l. simpl. rewrite !line_dropLine, Hm.
  repeat case_decide; naive_solver.
Qed.

Lemma mirror_removeNode id g : mirror g -> mirror (removeNode id g).
Proof.
  intros Hm. unfold removeNode. case_decide; [done|].
  intros s o l. simpl.
  rewrite line_dropAll, !line_delete, line_dropAll.
  destruct (decide (o = id)) as [->|Ho].
  - (* a line into [id] is found by the second loop through its mirror *)
    case_decide as Hk; [done|]. case_decide; [done|].
    destruct (line (from g) s id l) as [a|] eqn:Hl; [|done].
    exfalso. apply Hk. split; [|done].
    apply (line_keys _ _ _ l a).
    rewrite line_dropAll, decide_False by naive_solver. by rewrite <- Hm.
  - rewrite (decide_False (P := _ /\ o = id)) by naive_solver.
    destruct (decide (s = id)) as [->|Hs].
    + case_decide as Hk; [done|].
      destruct (line (to g) o id l) as [a|] eqn:Hl; [|done].
      exfalso. apply Hk. split; [|done].
      apply (line_keys _ _ _ l a). by rewrite Hm.
    + rewrite decide_False by naive_solver. apply Hm.
Qed.

Lemma mirror_ext g g' :
  from g' = from g -> to g' = to g -> mirror g -> mirror g'.
Proof. intros Hf Ht Hm s o l. rewrite Hf, Ht. apply Hm. Qed.

Lemma mirror_removeOrphan t g : mirror g -> mirror (removeOrphan t g).
Proof.
  intros Hm. unfold removeOrphan. case_decide; [|done].
  eapply mirror_ext; [..|by apply (mirror_removeNode (UID t))]; done.
Qed.

Lemma mirror_unindex a s g : mirror g -> mirror (unindex a s g).
Proof.
  intros Hm. unfold unindex. repeat case_decide; by eapply mirror_ext.
Qed.

Lemma inv_mirror_addNode n : inv (onGraph mirror) (addNode n).
Proof.
  intros w Hw. unfold addNode. unfold_M.
  destruct (nodes (graph w) !! ID n); simpl; [done|]. by eapply mirror_ext.
Qed.

Lemma inv_mirror_addTerm a f : inv (onGraph mirror) (addTerm a f).
Proof.
  unfold addTerm. inv_step; [inv_step|]. inv_step; [inv_step|].
  case_decide.
  - destruct (termIDs _ !! _); [inv_step|].
    repeat inv_step; try (apply inv_modifyG; intros g Hg; by eapply mirror_ext).
  - destruct (termIDs _ !! _); [case_decide; inv_step|].
    apply inv_modifyG; intros g Hg; by eapply mirror_ext.
Qed.

Lemma inv_mirror_setLine a : inv (onGraph mirror) (setLine a).
Proof.
  unfold setLine. inv_step; [inv_step|]. inv_step; [inv_step|].
  inv_step.
  { case_decide; [apply inv_mirror_addNode|].
    apply inv_modifyG. intros g Hg. by eapply mirror_ext. }
  inv_step; [inv_step|]. inv_step.
  { case_decide; [apply inv_mirror_addNode|].
    apply inv_modifyG. intros g Hg. by eapply mirror_ext. }
  intros w Hw. unfold_M. simpl. unfold onGraph. simpl.
  eapply mirror_ext; [..|by apply mirror_setLine]; done.
Qed.

Lemma inv_mirror_AddStatement a : inv (onGraph mirror) (AddStatement a).
Proof.
  unfold AddStatement. inv_step; [inv_step|].
  destruct (err _); [inv_step|]. case_decide; [inv_step|].
  inv_step; [inv_step|]. inv_step.
  { destruct (HasPrefix _ _); case_decide;
      first [ apply inv_panic
            | apply inv_modifyG; intros g Hg; by eapply mirror_ext ]. }
  destruct (err _); [inv_step|].
  destruct (kind (Parts (Value (Subject _)))); try apply inv_panic;
    (destruct (err _); [inv_step|]; case_decide; [inv_step|];
     inv_step; [apply inv_modifyG; intros g Hg; by eapply mirror_ext|];
     inv_step; [apply inv_mirror_addTerm|];
     inv_step; [apply inv_mirror_addTerm|];
     inv_step; [apply inv_mirror_addTerm|];
     apply inv_mirror_setLine).
Qed.

Lemma inv_mirror_RemoveStatement a : inv (onGraph mirror) (RemoveStatement a).
Proof.
  unfold RemoveStatement. inv_step; [inv_step|]. inv_step; [inv_step|].
  case_decide; [|inv_step].
  inv_step; [apply inv_modifyG, mirror_removeLine|].
  inv_step; [apply inv_modifyG, mirror_unindex|].
  inv_step; apply inv_modifyG, mirror_removeOrphan.
Qed.

Lemma inv_mirror_removeAll l : inv (onGraph mirror) (removeAll l).
Proof.
  induction l as [|a l IH]; simpl; [inv_step|].
  inv_step; [apply inv_mirror_RemoveStatement|done].
Qed.

Lemma inv_mirror_linesAt k f : inv (onGraph mirror) (linesAt k f).
Proof.
  unfold linesAt. inv_step; [inv_step|]. destruct (nodes _ !! k); inv_step.
Qed.

Lemma inv_mirror_removeOut n t seen : inv (onGraph mirror) (removeOut n t seen).
Proof.
  revert seen. induction n as [|n IH]; intros seen; simpl; [inv_step|].
  inv_step; [inv_step|]. destruct (order _) as [|k ?]; [inv_step|].
  inv_step; [apply inv_mirror_linesAt|].
  inv_step; [apply inv_mirror_removeAll|apply IH].
Qed.

Lemma inv_mirror_removeIn t : inv (onGraph mirror) (removeIn t).
Proof.
  unfold removeIn. inv_step; [inv_step|]. destruct (keys _) as [|k ?]; [inv_step|].
  inv_step; [apply inv_mirror_linesAt|apply inv_mirror_removeAll].
Qed.

Lemma inv_mirror_RemoveTerm t : inv (onGraph mirror) (RemoveTerm t).
Proof.
  unfold RemoveTerm. inv_step; [inv_step|]. inv_step.
  { destruct (pred _ !! _); [apply inv_mirror_removeAll|inv_step]. }
  inv_step; [inv_step|]. case_decide; [inv_step|].
  inv_step; [apply inv_mirror_removeOut|].
  inv_step; [apply inv_mirror_removeIn|].
  inv_step; [apply inv_modifyG, mirror_removeNode|].
  apply inv_modifyG. intros g Hg. by eapply mirror_ext.
Qed.

Lemma inv_mirror_call op : inv (onGraph mirror) (call op).
Proof.
  destruct op; simpl.
  - apply inv_mirror_AddStatement.
  - apply inv_mirror_RemoveStatement.
  - apply inv_mirror_RemoveTerm.
Qed.

(** An invariant of every call that holds of a new graph holds after
    every history. *)
Lemma history_inv (P : World -> Prop) h ops :
  (forall op, inv P (call op)) -> P (mkWorld h NewGraph) -> P (history h ops).
Proof.
  intros Hinv. unfold history. generalize (mkWorld h NewGraph).
  induction ops as [|op ops IH]; intros w Hw; simpl; [done|].
  apply IH. by apply Hinv.
Qed.

(** C1. In every graph built by a sequence of calls of [AddStatement],
    [RemoveStatement] and [RemoveTerm], whatever their outcome and
    whatever the runtime decides, the forward index at [s], [o], [l] and
    the reverse index at [o], [s], [l] hold the same line, or both hold
    none. *)
Theorem forward_reverse_mirror h ops s o l :
  line (from (graph (history h ops))) s o l
  = line (to (graph (history h ops))) o s l.
Proof.
  revert s o l. apply (history_inv (onGraph mirror)).
  - apply inv_mirror_call.
  - apply mirror_new.
Qed.

End Mirror.


(** ** Only the instances that were added are indexed *)

Section Indexed.
Context `{Runtime}.

Lemma indexedIn_ext S g g' : pred g' = pred g -> indexedIn S g -> indexedIn S g'.
Proof. intros Hp Hi k x. rewrite Hp. apply Hi. Qed.

Lemma indexedIn_mono S S' g : S ⊆ S' -> indexedIn S g -> indexedIn S' g.
Proof. intros HS Hi k x Hx. apply HS. by eapply Hi. Qed.

Lemma indexedIn_record S a k g :
  a ∈ S -> indexedIn S g ->
  indexedIn S (set_pred (fun pr => <[k := (pr !!! k) ∪ {[ a ]}]> pr) g).
Proof.
  intros Ha Hi k' x. cbn [pred set_pred]. rewrite lookup_total_insert.
  case_decide; [|apply Hi]. rewrite elem_of_union, elem_of_singleton.
  intros [Hx| ->]; [by eapply Hi|done].
Qed.

Lemma indexedIn_unindex S a s g : indexedIn S g -> indexedIn S (unindex a s g).
Proof.
  intros Hi.
  assert (indexedIn S (set_pred (alter (fun st => st ∖ {[ a ]})
                                       (UID (Predicate s))) g)) as H1.
  { intros k x. cbn [pred set_pred]. rewrite lookup_total_alter.
    case_decide; [|apply Hi].
    subst. specialize (Hi (UID (Predicate s)) x).
    rewrite lookup_total_alt in Hi.
    destruct (pred g !! UID (Predicate s)); simpl in *; set_solver. }
  assert (forall g1, indexedIn S g1 ->
            indexedIn S (set_pred (delete (UID (Predicate s))) g1)) as H2.
  { intros g1 Hg1 k x. specialize (Hg1 k x). cbn [pred set_pred].
    rewrite lookup_total_alt, lookup_delete in *.
    case_decide; [|done]. simpl. by rewrite elem_of_empty. }
  unfold unindex. repeat case_decide; try done.
  - eapply indexedIn_ext; [|by apply H2, H1]. done.
  - by apply H2.
Qed.

Lemma indexedIn_removeLine S u v l g : indexedIn S g -> indexedIn S (removeLine u v l g).
Proof. unfold removeLine. intros. repeat case_decide; by eapply indexedIn_ext. Qed.

Lemma indexedIn_removeNode S id g : indexedIn S g -> indexedIn S (removeNode id g).
Proof. unfold removeNode. intros. case_decide; by eapply indexedIn_ext. Qed.

Lemma indexedIn_removeOrphan S t g : indexedIn S g -> indexedIn S (removeOrphan t g).
Proof.
  unfold removeOrphan. intros. case_decide; [|done].
  eapply indexedIn_ext; [|by apply (indexedIn_removeNode S (UID t))]. done.
Qed.

Ltac same_pred := apply inv_modifyG; intros ? ?; by eapply indexedIn_ext.

Lemma inv_indexedIn_addTerm S a f : inv (onGraph (indexedIn S)) (addTerm a f).
Proof.
  unfold addTerm. inv_step; [inv_step|]. inv_step; [inv_step|].
  case_decide.
  - destruct (termIDs _ !! _); [inv_step|].
    repeat inv_step; same_pred.
  - destruct (termIDs _ !! _); [case_decide; inv_step|]. same_pred.
Qed.

Lemma inv_indexedIn_addNode S n : inv (onGraph (indexedIn S)) (addNode n).
Proof.
  unfold addNode. inv_step; [inv_step|].
  destruct (nodes _ !! _); [inv_step|]. inv_step; same_pred.
Qed.

Lemma inv_indexedIn_setLine S a : inv (onGraph (indexedIn S)) (setLine a).
Proof.
  unfold setLine. inv_step; [inv_step|]. inv_step; [inv_step|].
  inv_step. { case_decide; [apply inv_indexedIn_addNode|same_pred]. }
  inv_step; [inv_step|].
  inv_step. { case_decide; [apply inv_indexedIn_addNode|same_pred]. }
  repeat inv_step; same_pred.
Qed.

Lemma inv_indexedIn_AddStatement S a :
  a ∈ S -> inv (onGraph (indexedIn S)) (AddStatement a).
Proof.
  intros Ha. unfold AddStatement. inv_step; [inv_step|].
  destruct (err _); [inv_step|]. case_decide; [inv_step|].
  inv_step; [inv_step|]. inv_step.
  { destruct (HasPrefix _ _); case_decide;
      first [ apply inv_panic | same_pred ]. }
  destruct (err _); [inv_step|].
  destruct (kind (Parts (Value (Subject _)))); try apply inv_panic;
    (destruct (err _); [inv_step|]; case_decide; [inv_step|];
     inv_step; [apply inv_modifyG; intros g Hg; by apply indexedIn_record|];
     inv_step; [apply inv_indexedIn_addTerm|];
     inv_step; [apply inv_indexedIn_addTerm|];
     inv_step; [apply inv_indexedIn_addTerm|];
     apply inv_indexedIn_setLine).
Qed.

Lemma inv_indexedIn_RemoveStatement S a :
  inv (onGraph (indexedIn S)) (RemoveStatement a).
Proof.
  unfold RemoveStatement. inv_step; [inv_step|]. inv_step; [inv_step|].
  case_decide; [|inv_step].
  inv_step; [apply inv_modifyG, indexedIn_removeLine|].
  inv_step; [apply inv_modifyG, indexedIn_unindex|].
  inv_step; apply inv_modifyG, indexedIn_removeOrphan.
Qed.

Lemma inv_indexedIn_removeAll S l : inv (onGraph (indexedIn S)) (removeAll l).
Proof.
  induction l as [|a l IH]; simpl; [inv_step|].
  inv_step; [apply inv_indexedIn_RemoveStatement|done].
Qed.

Lemma inv_indexedIn_linesAt S k f : inv (onGraph (indexedIn S)) (linesAt k f).
Proof.
  unfold linesAt. inv_step; [inv_step|]. destruct (nodes _ !! k); inv_step.
Qed.

Lemma inv_indexedIn_RemoveTerm S t : inv (onGraph (indexedIn S)) (RemoveTerm t).
Proof.
  unfold RemoveTerm. inv_step; [inv_step|]. inv_step.
  { destruct (pred _ !! _); [apply inv_indexedIn_removeAll|inv_step]. }
  inv_step; [inv_step|]. case_decide; [inv_step|].
  inv_step.
  { generalize (FromLen a1 (UID t)) (∅ : gset Z).
    intros n. induction n as [|n IH]; intros seen; simpl; [inv_step|].
    inv_step; [inv_step|]. destruct (order _) as [|k ?]; [inv_step|].
    inv_step; [apply inv_indexedIn_linesAt|].
    inv_step; [apply inv_indexedIn_removeAll|apply IH]. }
  inv_step.
  { unfold removeIn. inv_step; [inv_step|].
    destruct (keys _) as [|k ?]; [inv_step|].
    inv_step; [apply inv_indexedIn_linesAt|apply inv_indexedIn_removeAll]. }
  inv_step; [apply inv_modifyG, indexedIn_removeNode|]. same_pred.
Qed.

Lemma indexedIn_calls ops S w :
  indexedIn S (graph w) ->
  indexedIn (S ∪ added ops) (graph (fold_left (fun w op => after op w) ops w)).
Proof.
  revert S w. induction ops as [|op ops IH]; intros S w Hw; simpl.
  - eapply indexedIn_mono; [|exact Hw]. set_solver.
  - assert (indexedIn (S ∪ match op with Add a => {[ a ]} | _ => ∅ end)
                      (graph (after op w))) as Hop.
    { unfold after. destruct op as [a|a|t]; simpl.
      - apply (inv_indexedIn_AddStatement _ a); [set_solver|].
        eapply indexedIn_mono; [|exact Hw]. set_solver.
      - apply (inv_indexedIn_RemoveStatement _ a).
        eapply indexedIn_mono; [|exact Hw]. set_solver.
      - apply (inv_indexedIn_RemoveTerm _ t).
        eapply indexedIn_mono; [|exact Hw]. set_solver. }
    apply IH in Hop. eapply indexedIn_mono; [|exact Hop].
    destruct op; set_solver.
Qed.

Lemma indexedIn_history h ops : indexedIn (added ops) (graph (history h ops)).
Proof.
  unfold history. eapply indexedIn_mono; [|apply (indexedIn_calls ops ∅)].
  - set_solver.
  - intros k x. simpl. by rewrite lookup_total_empty, elem_of_empty.
Qed.

(** C10. After any history, [RemoveStatement] of a statement instance
    that was not passed to [AddStatement] returns and leaves the world as
    it was, whatever the instance holds: an instance is in the predicate
    index by its address only. *)
Theorem RemoveStatement_other_instance h ops a :
  a ∉ added ops ->
  RemoveStatement a (history h ops) = (Ok tt, history h ops).
Proof.
  intros Ha. unfold RemoveStatement. unfold_M.
  rewrite decide_False; [done|].
  intros Hin. apply Ha. by eapply indexedIn_history.
Qed.

End Indexed.

(** The instance at 2 holds what the instance at 1 holds; only the one
    at 1 was added. *)
Lemma RemoveStatement_other_instance_witness :
  Ex.twins !! 1%nat = Ex.twins !! 2%nat
  /\ (2%nat ∉ added [Add 1%nat])
  /\ @RemoveStatement plain 2%nat (@history plain Ex.twins [Add 1%nat])
     = (Ok tt, @history plain Ex.twins [Add 1%nat]).
Proof.
  split; [reflexivity|]. split.
  - simpl. set_solver.
  - apply (@RemoveStatement_other_instance plain Ex.twins [Add 1%nat] 2%nat).
    simpl. set_solver.
Defined.


(** ** Outcomes of sequences *)

Section Outcomes.
Context `{Runtime}.

Lemma bind_Ok {A B} (m : M A) (k : A -> M B) w b w' :
  (m ≫= k) w = (Ok b, w') ->
  exists a w1, m w = (Ok a, w1) /\ k a w1 = (Ok b, w').
Proof.
  unfold mbind, M_bind, bind. destruct (m w) as [[a|e] w1]; [eauto|done].
Qed.

Lemma bind_Panic {A B} (m : M A) (k : A -> M B) w e w' :
  (m ≫= k) w = (Panic e, w') ->
  m w = (Panic e, w') \/ exists a w1, m w = (Ok a, w1) /\ k a w1 = (Panic e, w').
Proof.
  unfold mbind, M_bind, bind. destruct (m w) as [[a|e1] w1]; [eauto|].
  intros [= -> ->]. by left.
Qed.

Lemma inv_modifyG_world (P : World -> Prop) f :
  (forall w, P w -> P (mkWorld (heap w) (f (graph w)))) -> inv P (modifyG f).
Proof. intros Hf w Hw. by apply Hf. Qed.

Lemma inv_store_world (P : World -> Prop) a s :
  (forall w, P w -> P (mkWorld (<[a := s]> (heap w)) (graph w))) ->
  inv P (store a s).
Proof. intros Hf w Hw. by apply Hf. Qed.


(** [addNode] of a node that the graph does not hold returns. *)
Lemma addNode_ok n w :
  nodes (graph w) !! ID n = None ->
  addNode n w = (Ok tt, mkWorld (heap w)
    (set_ids (uid.Use (ID n)) (set_nodes (<[ID n := n]>) (graph w)))).
Proof. intros Hn. unfold addNode. unfold_M. by rewrite Hn. Qed.

(** [setLine] returns; the graph after it. *)
Lemma setLine_ok a w :
  let s := heap w !!! a in
  setLine a w =
  (Ok tt, mkWorld (heap w)
    (set_ids (uid.Use (UID (Predicate s)))
      (set_to (putLine (ID (Object s)) (ID (Subject s)) (UID (Predicate s)) a)
        (set_from (putLine (ID (Subject s)) (ID (Object s))
                           (UID (Predicate s)) a)
          (withNode (Object s) (withNode (Subject s) (graph w))))))).
Proof.
  intros s. unfold setLine. unfold_M. fold s. cbn beta iota.
  set (g1 := withNode (Subject s) (graph w)).
  assert ((if decide (nodes (graph w) !! ID (Subject s) = None)
           then addNode (Subject s)
           else fun w0 => (Ok tt, mkWorld (heap w0)
                  (set_nodes <[ID (Subject s):=Subject s]> (graph w0)))) w
          = (Ok tt, mkWorld (heap w) g1)) as ->.
  { unfold g1, withNode. case_decide; [by apply addNode_ok|done]. }
  cbn beta iota. cbn [graph heap].
  assert ((if decide (nodes g1 !! ID (Object s) = None)
           then addNode (Object s)
           else fun w0 => (Ok tt, mkWorld (heap w0)
                  (set_nodes <[ID (Object s):=Object s]> (graph w0))))
            (mkWorld (heap w) g1)
          = (Ok tt, mkWorld (heap w) (withNode (Object s) g1))) as ->.
  { unfold withNode at 1. case_decide; [by rewrite addNode_ok|done]. }
  done.
Qed.

End Outcomes.

(** ** What a failing [AddStatement] leaves behind *)

Section AddFailure.
Context `{Runtime}.

(** [addTerm] touches the interning table, the ID storage and the
    statement only. *)
Lemma inv_addTerm_frame (P : Graph -> Prop) a f :
  (forall g g', nodes g' = nodes g -> from g' = from g -> to g' = to g ->
                pred g' = pred g -> namespace g' = namespace g ->
                P g -> P g') ->
  inv (onGraph P) (addTerm a f).
Proof.
  intros HP. unfold addTerm. inv_step; [inv_step|]. inv_step; [inv_step|].
  case_decide.
  - destruct (termIDs _ !! _); [inv_step|].
    repeat inv_step; apply inv_modifyG; intros g Hg; by apply (HP g).
  - destruct (termIDs _ !! _); [case_decide; inv_step|].
    apply inv_modifyG; intros g Hg; by apply (HP g).
Qed.

(** The panics of [addTerm]. *)
Lemma addTerm_panics a f w e w' :
  addTerm a f w = (Panic e, w') -> e = TermIDCollision \/ e = Unreachable.
Proof.
  unfold addTerm. unfold_M. cbn beta iota.
  destruct (decide (UID (field f (heap w !!! a)) = 0)).
  - destruct (termIDs (graph w) !! _); [done|].
    unfold uid.NewID. destruct (order _); [|done].
    case_decide; [|done]. intros [= <- <-]. by right.
  - destruct (termIDs (graph w) !! _); [|done].
    case_decide; [|done]. intros [= <- <-]. by left.
Qed.

(** The panics of the part of [AddStatement] that interns the terms and
    sets the line. *)
Lemma intern_panics (P : Graph -> Prop) a w e w' :
  (forall g g', nodes g' = nodes g -> from g' = from g -> to g' = to g ->
                pred g' = pred g -> namespace g' = namespace g ->
                P g -> P g') ->
  P (graph w) ->
  (addTerm a FSubject ≫= fun _ => addTerm a FPredicate ≫= fun _ =>
   addTerm a FObject ≫= fun _ => setLine a) w = (Panic e, w') ->
  (e = TermIDCollision \/ e = Unreachable) /\ P (graph w').
Proof.
  intros HP Hw Hp.
  pose proof (inv_addTerm_frame P a FSubject HP) as I1.
  pose proof (inv_addTerm_frame P a FPredicate HP) as I2.
  pose proof (inv_addTerm_frame P a FObject HP) as I3.
  apply bind_Panic in Hp as [Hp|([] & w1 & H1 & Hp)].
  { split; [by eapply addTerm_panics|].
    specialize (I1 w Hw). by rewrite Hp in I1. }
  specialize (I1 w Hw). rewrite H1 in I1.
  apply bind_Panic in Hp as [Hp|([] & w2 & H2 & Hp)].
  { split; [by eapply addTerm_panics|].
    specialize (I2 w1 I1). by rewrite Hp in I2. }
  specialize (I2 w1 I1). rewrite H2 in I2.
  apply bind_Panic in Hp as [Hp|([] & w3 & H3 & Hp)].
  { split; [by eapply addTerm_panics|].
    specialize (I3 w2 I2). by rewrite Hp in I3. }
  by rewrite setLine_ok in Hp.
Qed.

Lemma set_namespace_same g : set_namespace (namespace g) g = g.
Proof. by destruct g. Qed.

(** C2, as amended. A call of [AddStatement] that panics on the
    predicate leaves the world as it was. One that panics on the subject
    or the object has changed nothing but the namespace mode, set from
    the predicate before the subject is looked at; nothing at all when
    the mode was established. Any later panic (a term ID collision, no
    ID left) comes before the node table and the two adjacency indices
    are touched, and after the statement has been recorded in the
    predicate index. *)
Theorem AddStatement_failure a w e w' :
  AddStatement a w = (Panic e, w') ->
  match e with
  | PredicateError | PredicateNotIRI | GlobalInLocal | LocalInGlobal =>
      w' = w
  | SubjectError | SubjectNotIRIOrBlank | ObjectError | ObjectInvalid =>
      heap w' = heap w
      /\ graph w' = set_namespace (namespace (graph w')) (graph w)
      /\ (namespace (graph w) = local \/ namespace (graph w) = global ->
          w' = w)
  | _ =>
      nodes (graph w') = nodes (graph w)
      /\ from (graph w') = from (graph w)
      /\ to (graph w') = to (graph w)
      /\ a ∈ pred (graph w') !!! UID (Predicate (heap w !!! a))
  end.
Proof.
  intros Hadd. unfold AddStatement in Hadd.
  apply bind_Panic in Hadd as [Hadd|(s & w0 & [= <- <-] & Hadd)]; [done|].
  destruct w as [h g]. cbn [heap graph] in *.
  set (s := h !!! a) in *.
  destruct (err (Parts (Value (Predicate s)))).
  { by injection Hadd as <- <-. }
  destruct (decide (kind (Parts (Value (Predicate s))) ≠ IRI)).
  { by injection Hadd as <- <-. }
  apply bind_Panic in Hadd as [Hadd|(g0 & w0 & [= <- <-] & Hadd)]; [done|].
  cbn [graph] in Hadd.
  set (ns := if HasPrefix (text (Parts (Value (Predicate s)))) "http:"
             then global else local).
  apply bind_Panic in Hadd as [Hadd|([] & w1 & Hns & Hadd)].
  { unfold panic, modifyG in Hadd.
    destruct (HasPrefix _ _); destruct (decide (namespace g = _));
      try discriminate Hadd; by injection Hadd as <- <-. }
  assert (w1 = mkWorld h (set_namespace ns g)) as Hw1.
  { unfold ns. unfold panic, modifyG in Hns.
    destruct (HasPrefix _ _); destruct (decide (namespace g = _));
      try discriminate Hns; by injection Hns as <-. }
  assert (namespace g = local \/ namespace g = global ->
          set_namespace ns g = g) as Hsame.
  { unfold ns. intros Hg. clear Hadd. unfold panic, modifyG in Hns.
    destruct (HasPrefix _ _); destruct (decide (namespace g = _));
      try discriminate Hns;
      destruct Hg as [Hg|Hg]; try congruence;
      rewrite <- Hg at 1; apply set_namespace_same. }
  clear Hns. subst w1.
  assert (forall e0, (@panic unit e0) (mkWorld h (set_namespace ns g))
                     = (Panic e, w') ->
            e = e0 /\ heap w' = h
            /\ graph w' = set_namespace (namespace (graph w')) g
            /\ (namespace g = local \/ namespace g = global ->
                w' = mkWorld h g)) as Hearly.
  { intros e0 [= <- <-]. split; [done|]. split; [done|]. split; [done|].
    intros Hg. by rewrite Hsame. }
  destruct (err (Parts (Value (Subject s)))).
  { by apply Hearly in Hadd as [-> ?]. }
  destruct (kind (Parts (Value (Subject s)))).
  1,3: by apply Hearly in Hadd as [-> ?].
  all: (destruct (err (Parts (Value (Object s))));
    [by apply Hearly in Hadd as [-> ?]|];
    destruct (decide (kind (Parts (Value (Object s))) = Invalid));
    [by apply Hearly in Hadd as [-> ?]|]).
  all: (apply bind_Panic in Hadd as [Hadd|([] & w1 & [= <-] & Hadd)];
    [done|]).
  all: (apply (intern_panics (fun g' =>
          nodes g' = nodes g /\ from g' = from g /\ to g' = to g
          /\ a ∈ pred g' !!! UID (Predicate s))) in Hadd;
    [ by destruct Hadd as [[-> | ->] ?]
    | intros g1 g2 Hn Hf Ht Hp _ (? & ? & ? & ?);
      by rewrite Hn, Hf, Ht, Hp
    | cbn [graph heap nodes from to pred set_pred set_namespace];
      split; [done|]; split; [done|]; split; [done|];
      rewrite lookup_total_insert_eq; set_solver ]).
Qed.

End AddFailure.

(** C2 fails as stated: on a new graph, a statement with a well-formed
    predicate and a literal as subject makes [AddStatement] panic after
    it has set the namespace mode. *)
Lemma namespace_set_before_failure :
  let w := mkWorld Ex2.literal_subject NewGraph in
  (@AddStatement plain 1%nat w).1 = Panic SubjectNotIRIOrBlank
  /\ graph (@AddStatement plain 1%nat w).2 <> graph w
  /\ namespace (graph w) = unknown
  /\ namespace (graph (@AddStatement plain 1%nat w).2) = local.
Proof.
  cbv zeta. split; [by vm_compute|]. split; [|split; by vm_compute].
  intros Heq. apply (f_equal namespace) in Heq. by vm_compute in Heq.
Qed.

Lemma AddStatement_failure_witness :
  let w := mkWorld Ex2.literal_subject NewGraph in
  let w' := (@AddStatement plain 1%nat w).2 in
  @AddStatement plain 1%nat w = (Panic SubjectNotIRIOrBlank, w')
  /\ heap w' = heap w
  /\ graph w' = set_namespace (namespace (graph w')) (graph w)
  /\ (namespace (graph w) = local \/ namespace (graph w) = global -> w' = w).
Proof.
  cbv zeta. split; [by vm_compute|].
  apply (@AddStatement_failure plain 1%nat
           (mkWorld Ex2.literal_subject NewGraph) SubjectNotIRIOrBlank).
  by vm_compute.
Defined.


(** ** The lines of one adjacency cell *)

Section Cells.
Context `{Runtime}.

Lemma elem_of_Lines g u v a :
  a ∈ Lines g u v <-> exists l, line (from g) u v l = Some a.
Proof.
  unfold Lines, line. rewrite (order_perm _ _), list_elem_of_fmap. split.
  - intros ([l b] & -> & Hl). exists l. by apply elem_of_map_to_list.
  - intros [l Hl]. exists (l, a). split; [done|]. by apply elem_of_map_to_list.
Qed.

Lemma from_withNode n g : from (withNode n g) = from g.
Proof. unfold withNode. by case_decide. Qed.

(** [addTerm] leaves the indices and the other statements alone. *)
Lemma inv_addTerm_world (P : World -> Prop) a f :
  (forall w w', from (graph w') = from (graph w) ->
                (forall b, b ≠ a -> heap w' !!! b = heap w !!! b) ->
                P w -> P w') ->
  inv P (addTerm a f).
Proof.
  intros HP.
  assert (forall g, inv P (modifyG g) \/ True) as _ by (by right).
  assert (forall s, inv P (store a s)) as Hst.
  { intros s. apply inv_store_world. intros w Hw. apply (HP w); [done| |done].
    intros b Hb. simpl. by rewrite lookup_total_insert_ne. }
  unfold addTerm. inv_step; [inv_step|]. inv_step; [inv_step|].
  case_decide.
  - destruct (termIDs _ !! _); [apply Hst|].
    inv_step; [inv_step|].
    inv_step; [apply inv_modifyG_world; intros w Hw; by apply (HP w)|].
    inv_step; [apply Hst|].
    apply inv_modifyG_world; intros w Hw; by apply (HP w).
  - destruct (termIDs _ !! _); [case_decide; inv_step|].
    apply inv_modifyG_world; intros w Hw; by apply (HP w).
Qed.

(** A call of [AddStatement] that returns has put the address of the
    statement into the cell of its subject and object, under the handle
    of its predicate, and has changed no other statement. *)
Lemma AddStatement_Ok a w w' :
  AddStatement a w = (Ok tt, w') ->
  let s' := heap w' !!! a in
  (forall b, b ≠ a -> heap w' !!! b = heap w !!! b)
  /\ from (graph w') =
     putLine (UID (Subject s')) (UID (Object s')) (UID (Predicate s')) a
             (from (graph w)).
Proof.
  intros Hadd. unfold AddStatement in Hadd.
  apply bind_Ok in Hadd as (s & w0 & [= <- <-] & Hadd).
  destruct (err (Parts (Value (Predicate _)))); [done|].
  destruct (decide (kind (Parts (Value (Predicate _))) ≠ IRI)); [done|].
  apply bind_Ok in Hadd as (g0 & w0 & [= <- <-] & Hadd).
  apply bind_Ok in Hadd as ([] & w1 & Hns & Hadd).
  assert (from (graph w1) = from (graph w) /\ heap w1 = heap w) as [Hf1 Hh1].
  { unfold panic, modifyG in Hns.
    destruct (HasPrefix _ _); destruct (decide (namespace (graph w) = _));
      try discriminate Hns; by injection Hns as <-. }
  clear Hns.
  set (P := fun w0 : World => from (graph w0) = from (graph w)
              /\ forall b, b ≠ a -> heap w0 !!! b = heap w !!! b).
  assert (forall f, inv P (addTerm a f)) as Hinv.
  { intros f. apply inv_addTerm_world. intros x x' Hf Hh [Hx1 Hx2]. split.
    - by rewrite Hf.
    - intros b Hb. rewrite Hh by done. by apply Hx2. }
  assert (forall w2,
    (modifyG (set_pred (fun pr => <[UID (Predicate (heap w !!! a)) :=
        (pr !!! UID (Predicate (heap w !!! a))) ∪ {[ a ]}]> pr)) ≫= fun _ =>
     addTerm a FSubject ≫= fun _ => addTerm a FPredicate ≫= fun _ =>
     addTerm a FObject ≫= fun _ => setLine a) w1 = (Ok tt, w2) ->
    (forall b, b ≠ a -> heap w2 !!! b = heap w !!! b)
    /\ from (graph w2) =
       putLine (UID (Subject (heap w2 !!! a))) (UID (Object (heap w2 !!! a)))
               (UID (Predicate (heap w2 !!! a))) a (from (graph w))) as Htail.
  { intros w2 Ht.
    apply bind_Ok in Ht as ([] & w3 & [= <-] & Ht).
    assert (P (mkWorld (heap w1) (set_pred (fun pr =>
        <[UID (Predicate (heap w !!! a)) :=
          (pr !!! UID (Predicate (heap w !!! a))) ∪ {[ a ]}]> pr) (graph w1))))
      as HP0.
    { split; [done|]. intros b _. simpl. by rewrite Hh1. }
    apply bind_Ok in Ht as ([] & w4 & H4 & Ht).
    pose proof (Hinv FSubject _ HP0) as HP1. rewrite H4 in HP1.
    cbn [snd] in HP1.
    apply bind_Ok in Ht as ([] & w5 & H5 & Ht).
    pose proof (Hinv FPredicate _ HP1) as HP2. rewrite H5 in HP2.
    cbn [snd] in HP2.
    apply bind_Ok in Ht as ([] & w6 & H6 & Ht).
    pose proof (Hinv FObject _ HP2) as [HP3 HP3']. rewrite H6 in HP3, HP3'.
    cbn [snd] in HP3, HP3'.
    rewrite setLine_ok in Ht. injection Ht as <-. simpl in *.
    split; [done|]. by rewrite !from_withNode, HP3. }
  destruct (err (Parts (Value (Subject _)))); [done|].
  destruct (kind (Parts (Value (Subject _)))); try done;
    (destruct (err (Parts (Value (Object _)))); [done|];
     destruct (decide (kind (Parts (Value (Object _))) = Invalid)); [done|];
     by apply Htail).
Qed.

(** C6, as amended. Let two calls of [AddStatement] return, for
    statements that end with the same subject and object handles. The
    line identity is the handle of the predicate, which is interned by
    text. If the two predicate handles differ, both instances are lines
    of the cell and [Lines] yields both. If the two statements share the
    predicate handle, as two instances of one triple do, the cell holds
    under that handle the instance added last. *)
Theorem lines_by_predicate_handle a1 a2 w w1 w2 :
  AddStatement a1 w = (Ok tt, w1) ->
  AddStatement a2 w1 = (Ok tt, w2) ->
  let s1 := heap w2 !!! a1 in
  let s2 := heap w2 !!! a2 in
  let u := UID (Subject s2) in
  let v := UID (Object s2) in
  UID (Subject s1) = u ->
  UID (Object s1) = v ->
  (UID (Predicate s1) ≠ UID (Predicate s2) ->
     line (from (graph w2)) u v (UID (Predicate s1)) = Some a1
     /\ line (from (graph w2)) u v (UID (Predicate s2)) = Some a2
     /\ a1 ∈ Lines (graph w2) u v /\ a2 ∈ Lines (graph w2) u v)
  /\ (UID (Predicate s1) = UID (Predicate s2) ->
     line (from (graph w2)) u v (UID (Predicate s2)) = Some a2).
Proof.
  intros H1 H2 s1 s2 u v Hu Hv.
  apply AddStatement_Ok in H1 as [_ Hf1].
  apply AddStatement_Ok in H2 as [Hh2 Hf2]. fold s2 u v in Hf2.
  assert (line (from (graph w2)) u v (UID (Predicate s2)) = Some a2) as L2.
  { rewrite Hf2, line_putLine. by rewrite decide_True. }
  split; [|done]. intros Hne.
  assert (a1 ≠ a2) as Hna.
  { intros ->. by apply Hne. }
  assert (line (from (graph w2)) u v (UID (Predicate s1)) = Some a1) as L1.
  { rewrite Hf2, line_putLine, decide_False by naive_solver.
    rewrite Hf1, line_putLine. unfold s1 in *.
    rewrite Hh2 in Hu, Hv, Hne |- * by done.
    rewrite decide_True; [done|]. by rewrite Hu, Hv. }
  repeat split; try done; apply elem_of_Lines; eauto.
Qed.

End Cells.

(** C6 fails as stated: two instances of one triple, added to a new
    graph, end with the same predicate handle, and the cell of their
    subject and object holds the second instance only. *)
Lemma same_triple_one_line :
  let w := mkWorld Ex2.triples NewGraph in
  let w1 := (@AddStatement plain 1%nat w).2 in
  let w2 := (@AddStatement plain 2%nat w1).2 in
  (@AddStatement plain 1%nat w).1 = Ok tt
  /\ (@AddStatement plain 2%nat w1).1 = Ok tt
  /\ heap w2 !!! 1%nat = heap w2 !!! 2%nat
  /\ heap w2 !!! 1%nat =
     mkStatement (mkTerm "<ex:A>" 0) (mkTerm "<ex:p>" 1) (mkTerm "<ex:B>" 2)
  /\ @Lines plain (graph w2) 0 2 = [2%nat]
  /\ 1%nat ∉ @Lines plain (graph w2) 0 2.
Proof.
  cbv zeta. repeat split; try by vm_compute.
  replace (@Lines plain _ 0 2) with [2%nat] by (by vm_compute).
  by intros [= ]%list_elem_of_singleton.
Qed.

Lemma lines_by_predicate_handle_witness :
  let w := mkWorld Ex2.triples NewGraph in
  let w1 := (@AddStatement plain 1%nat w).2 in
  let w2 := (@AddStatement plain 3%nat w1).2 in
  @AddStatement plain 1%nat w = (Ok tt, w1)
  /\ @AddStatement plain 3%nat w1 = (Ok tt, w2)
  /\ UID (Predicate (heap w2 !!! 1%nat)) ≠ UID (Predicate (heap w2 !!! 3%nat))
  /\ 1%nat ∈ @Lines plain (graph w2) 0 2
  /\ 3%nat ∈ @Lines plain (graph w2) 0 2.
Proof.
  cbv zeta.
  assert (UID (Predicate (heap (@AddStatement plain 3%nat
            (@AddStatement plain 1%nat (mkWorld Ex2.triples NewGraph)).2).2
            !!! 1%nat))
          ≠ UID (Predicate (heap (@AddStatement plain 3%nat
            (@AddStatement plain 1%nat (mkWorld Ex2.triples NewGraph)).2).2
            !!! 3%nat))) as Hne.
  { by vm_compute. }
  split; [by vm_compute|]. split; [by vm_compute|]. split; [exact Hne|].
  assert (@AddStatement plain 1%nat (mkWorld Ex2.triples NewGraph)
          = (Ok tt, (@AddStatement plain 1%nat
                       (mkWorld Ex2.triples NewGraph)).2)) as H1.
  { by vm_compute. }
  assert (@AddStatement plain 3%nat
            (@AddStatement plain 1%nat (mkWorld Ex2.triples NewGraph)).2
          = (Ok tt, (@AddStatement plain 3%nat
               (@AddStatement plain 1%nat
                  (mkWorld Ex2.triples NewGraph)).2).2)) as H2.
  { by vm_compute. }
  destruct (@lines_by_predicate_handle plain 1%nat 3%nat _ _ _ H1 H2)
    as [R _]; [by vm_compute|by vm_compute|].
  destruct (R Hne) as (_ & _ & R1 & R3). split; [exact R1|exact R3].
Defined.

(** ** [RemoveTerm] of a term with two incoming neighbours *)

(** C7 fails on the code: [A -p-> T] and [B -p-> T] are added and [T] is
    removed. The loop over the incoming neighbours is an [if]: one
    neighbour is handled, [removeNode] then drops the adjacency of [T],
    and the statement of the other neighbour stays in the predicate
    index, its subject stays a node with no adjacency. Which of the two
    statements stays depends on the order of the iteration: the one of
    [A] in one order, the one of [B] in the opposite order. *)
Lemma RemoveTerm_keeps_statement :
  let w := @history plain Ex2.fan_in [Add 1%nat; Add 2%nat] in
  let w' := (@RemoveTerm plain Ex.T w).2 in
  let v := @history reversed Ex2.fan_in [Add 1%nat; Add 2%nat] in
  let v' := (@RemoveTerm reversed Ex.T v).2 in
  ((@RemoveTerm plain Ex.T w).1 = Ok tt
   /\ Object (heap w' !!! 1%nat) = Ex.T
   /\ pred (graph w') !! 10 = Some {[ 1%nat ]}
   /\ nodes (graph w') = {[ 1 := Ex.A ]}
   /\ FromLen (graph w') 1 = 0%nat /\ ToLen (graph w') 1 = 0%nat)
  /\ ((@RemoveTerm reversed Ex.T v).1 = Ok tt
      /\ Object (heap v' !!! 2%nat) = Ex.T
      /\ pred (graph v') !! 10 = Some {[ 2%nat ]}
      /\ nodes (graph v') = {[ 2 := Ex.B ]}
      /\ FromLen (graph v') 2 = 0%nat /\ ToLen (graph v') 2 = 0%nat).
Proof. cbv zeta. repeat split; by vm_compute. Qed.


(** ** The query algebra *)

Section QueryAlgebra.
Context `{Runtime}.

Lemma sortByID_byID l : StronglySorted byID (sortByID l).
Proof. apply sortByID_sorted. Qed.

(** *** Slices as windows of arrays *)

Lemma splice_length s new (a : list Term) :
  length new = length (take (len s) (drop (off s) a)) ->
  length (splice s new a) = length a.
Proof.
  intros Hn. unfold splice.
  rewrite !length_app, Hn, !length_take, !length_drop. lia.
Qed.

Lemma splice_self s new (a : list Term) :
  (off s + len s <= length a)%nat -> length new = len s ->
  take (len s) (drop (off s) (splice s new a)) = new.
Proof.
  intros Hb Hn. unfold splice.
  rewrite drop_app_length' by (rewrite length_take; lia).
  by rewrite take_app_length'.
Qed.

Lemma splice_apart s t new (a : list Term) :
  (off s + len s <= length a)%nat -> length new = len s ->
  ((off t + len t <= off s)%nat \/ (off s + len s <= off t)%nat) ->
  take (len t) (drop (off t) (splice s new a))
  = take (len t) (drop (off t) a).
Proof.
  intros Hb Hn [Hlt|Hgt]; unfold splice.
  - rewrite drop_app_le by (rewrite length_take; lia).
    rewrite take_app_le by (rewrite length_drop, length_take; lia).
    rewrite !take_drop_commute, take_take. do 2 f_equal. lia.
  - rewrite app_assoc.
    rewrite drop_app_ge by (rewrite length_app, length_take; lia).
    rewrite length_app, length_take, Hn, drop_drop. do 2 f_equal. lia.
Qed.

Lemma sortByID_length l : length (sortByID l) = length l.
Proof. apply Permutation_length, sortByID_perm. Qed.

Lemma sortByID_nil : sortByID [] = [].
Proof. apply Permutation_nil. symmetry. apply sortByID_perm. Qed.

Lemma view_length s (sl : Arrays) : bounded s sl -> length (view s sl) = len s.
Proof.
  intros (a & Ha & Hb). unfold view.
  rewrite lookup_total_alt, Ha. cbn. rewrite length_take, length_drop. lia.
Qed.

Lemma sortTerms_dom q (sl : Arrays) : dom (sortTerms q sl) = dom sl.
Proof. apply dom_alter_L. Qed.

Lemma bounded_sortTerms s q (sl : Arrays) :
  bounded s sl -> bounded s (sortTerms q sl).
Proof.
  intros (a & Ha & Hb). unfold sortTerms, bounded. rewrite lookup_alter.
  case_decide as Hq.
  - rewrite Hq, Ha. cbn. eexists. split; [done|].
    rewrite splice_length; [done|]. apply sortByID_length.
  - by exists a.
Qed.

Lemma sortTerms_self q (sl : Arrays) :
  bounded (terms q) sl ->
  view (terms q) (sortTerms q sl) = sortByID (view (terms q) sl).
Proof.
  intros (a & Ha & Hb). unfold view, sortTerms.
  rewrite lookup_total_alter_eq, lookup_total_alt, Ha. cbn.
  apply splice_self; [done|].
  rewrite sortByID_length, length_take, length_drop. lia.
Qed.

Lemma sortTerms_other q s (sl : Arrays) :
  bounded (terms q) sl -> apart s (terms q) ->
  view s (sortTerms q sl) = view s sl.
Proof.
  intros (a & Ha & Hb) Hap. unfold view, sortTerms.
  destruct (decide (arr s = arr (terms q))) as [Heq|Hne]; cycle 1.
  { by rewrite lookup_total_alter_ne. }
  rewrite Heq, lookup_total_alter_eq, lookup_total_alt, Ha. cbn.
  destruct Hap as [?|[Hs|[Hq|Hoff]]]; [done| | |].
  - by rewrite Hs.
  - unfold splice. rewrite Hq, Nat.add_0_r, take_0.
    by rewrite sortByID_nil, app_nil_l, take_drop.
  - apply splice_apart; [done| |lia].
    rewrite sortByID_length, length_take, length_drop. lia.
Qed.

Lemma apart_sym s t : apart s t -> apart t s.
Proof. unfold apart. naive_solver. Qed.

(** A frontier after the sorts of a binary combinator. *)
Lemma sorted_after q p (sl : Arrays) s :
  (s = terms q \/ s = terms p) ->
  separate (terms q) (terms p) ->
  bounded (terms q) sl -> bounded (terms p) sl ->
  Permutation (view s (sortTerms p (sortTerms q sl))) (view s sl)
  /\ StronglySorted byID (view s (sortTerms p (sortTerms q sl))).
Proof.
  intros Hs [Heq|Hap] Bq Bp.
  - assert (s = terms p) as -> by (destruct Hs; congruence).
    assert (sortTerms q sl = sortTerms p sl) as ->.
    { unfold sortTerms. by rewrite Heq. }
    rewrite !sortTerms_self by (by try apply bounded_sortTerms).
    split; [|apply sortByID_byID].
    by rewrite !(sortByID_perm _).
  - pose proof (bounded_sortTerms _ q sl Bp) as Bp1.
    destruct Hs as [->| ->].
    + rewrite sortTerms_other by done.
      rewrite sortTerms_self by done.
      split; [apply sortByID_perm|apply sortByID_byID].
    + rewrite sortTerms_self by done.
      split; [|apply sortByID_byID].
      rewrite (sortByID_perm _).
      rewrite sortTerms_other; [done|done|by apply apart_sym].
Qed.

Lemma newQuery_spec gid r (sl : Arrays) :
  exists l, (l ∉ dom sl)
    /\ newQuery gid r sl
       = (Ok (mkQuery gid (mkSlice l 0 (length r))), <[l := r]> sl).
Proof. exists (fresh (dom sl)). split; [apply is_fresh|done]. Qed.

Lemma view_new l r (sl : Arrays) :
  view (mkSlice l 0 (length r)) (<[l := r]> sl) = r.
Proof.
  unfold view. cbn. rewrite lookup_total_insert_eq. apply firstn_all.
Qed.

Lemma Result_new gid l r (sl : Arrays) :
  Result (mkQuery gid (mkSlice l 0 (length r))) (<[l := r]> sl) = r.
Proof. apply view_new. Qed.

Lemma Result_old q l r (sl : Arrays) :
  bounded (terms q) sl -> l ∉ dom sl ->
  Result q (<[l := r]> sl) = Result q sl.
Proof.
  intros (a & Ha & _) Hl. unfold Result, view.
  rewrite lookup_total_insert_ne; [done|].
  intros ->. apply Hl, elem_of_dom. by eexists.
Qed.

(** *** Sorted frontiers *)

Lemma sorted_IDs l : StronglySorted byID l -> StronglySorted Z.le (ID <$> l).
Proof. apply StronglySorted_fmap. by intros x y. Qed.

(** With no handle twice, the order after a sort is determined. *)
Lemma sorted_perm_unique l1 l2 :
  StronglySorted byID l1 -> StronglySorted byID l2 ->
  Permutation l1 l2 -> NoDup (ID <$> l1) -> l1 = l2.
Proof.
  intros S1 S2 Hp Hn.
  assert (ID <$> l1 = ID <$> l2) as Hids.
  { apply (StronglySorted_unique Z.le); [by apply sorted_IDs..|].
    by apply fmap_Permutation. }
  clear S1 S2. revert l2 Hp Hids.
  induction l1 as [|x l1 IH]; intros [|y l2] Hp Hids; try done.
  injection Hids as Hxy Hids. apply NoDup_cons in Hn as [Hx Hn].
  assert (x = y) as <-.
  { assert (y ∈ x :: l1) as [->|Hy]%elem_of_cons; [|done|].
    - rewrite Hp. by left.
    - exfalso. apply Hx. rewrite Hxy. by apply list_elem_of_fmap_2. }
  f_equal. apply IH; [done| |done]. by eapply Permutation_cons_inv.
Qed.

(** *** [And] of a query with itself *)

Lemma andLoop_self l n i r :
  (length l - i <= n)%nat -> andLoop n l l i i r = r ++ drop i l.
Proof.
  revert i r. induction n as [|n IH]; intros i r Hn; simpl.
  - rewrite drop_ge by lia. by rewrite app_nil_r.
  - destruct (l !! i) as [x|] eqn:Hx.
    + rewrite !decide_False by lia. rewrite IH.
      * erewrite (drop_S l x i) by done. by rewrite <- app_assoc.
      * apply lookup_lt_Some in Hx. lia.
    + apply lookup_ge_None in Hx. rewrite drop_ge by lia.
      by rewrite app_nil_r.
Qed.

Lemma uniqueLoop_distinct l prev r :
  NoDup (ID <$> l) ->
  (forall x, prev = Some x -> ID x ∉ ID <$> l) ->
  uniqueLoop prev l r = r ++ l.
Proof.
  revert prev r. induction l as [|t l IH]; intros prev r Hn Hprev; csimpl.
  - by rewrite app_nil_r.
  - rewrite fmap_cons in Hn. apply NoDup_cons in Hn as [Ht Hn].
    assert (uniqueLoop (Some t) l (r ++ [t]) = r ++ t :: l) as Hgo.
    { rewrite IH; [by rewrite <- app_assoc|done|]. by intros x [= <-]. }
    destruct prev as [x|]; [|done].
    rewrite decide_True; [done|].
    intros Heq. apply (Hprev x eq_refl). rewrite fmap_cons.
    apply elem_of_cons. left. unfold ID. congruence.
Qed.

(** C4, as amended. [q.And(q)] holds the frontier of [q] sorted by
    handle, every term as often as [q] holds it, and it is the frontier
    of [q] after the call. It is the result of [q.Unique()] when no
    handle occurs twice in the frontier of [q]. *)
Theorem And_self q (sl : Arrays) :
  bounded (terms q) sl ->
  exists r sl',
    And q q sl = (Ok r, sl')
    /\ Result r sl' = Result q sl'
    /\ Permutation (Result r sl') (Result q sl)
    /\ StronglySorted byID (Result r sl')
    /\ (NoDup (ID <$> Result q sl) ->
        exists r2 sl2,
          Unique q sl = (Ok r2, sl2)
          /\ qg r2 = qg r /\ Result r2 sl2 = Result r sl').
Proof.
  intros Hq. unfold And. rewrite decide_False by (by intros []).
  set (sl2 := sortTerms q (sortTerms q sl)).
  destruct (newQuery_spec (qg q)
    (andLoop (length (view (terms q) sl2) + length (view (terms q) sl2))
             (view (terms q) sl2) (view (terms q) sl2) 0 0 []) sl2)
    as (l & Hl & ->).
  eexists _, _. split; [done|].
  rewrite (Result_new (qg q) l _ sl2), andLoop_self by lia.
  rewrite app_nil_l, drop_0.
  assert (bounded (terms q) sl2) as Hq2.
  { unfold sl2. by do 2 apply bounded_sortTerms. }
  rewrite Result_old by done. unfold Result.
  destruct (sorted_after q q sl (terms q)) as [Hperm Hsort];
    [by left|by left|done|done|].
  fold sl2 in Hperm, Hsort.
  split; [done|]. split; [done|]. split; [done|].
  intros Hn. unfold Unique.
  destruct (newQuery_spec (qg q)
    (uniqueLoop None (view (terms q) (sortTerms q sl)) []) (sortTerms q sl))
    as (l2 & Hl2 & ->).
  eexists _, _. split; [done|]. split; [done|].
  cbn [terms]. rewrite view_new.
  rewrite uniqueLoop_distinct; [|..|done]; rewrite ?app_nil_l.
  - rewrite sortTerms_self by done. apply sorted_perm_unique.
    + apply sortByID_byID.
    + done.
    + rewrite Hperm. apply sortByID_perm.
    + by rewrite (sortByID_perm _).
  - rewrite sortTerms_self by done. by rewrite (sortByID_perm _).
Qed.

(** *** [Not] *)

Lemma filter_ext_elem {A} (P Q : A -> Prop) `{!forall x, Decision (P x)}
    `{!forall x, Decision (Q x)} (l : list A) :
  (forall x, x ∈ l -> (P x <-> Q x)) -> filter P l = filter Q l.
Proof.
  induction l as [|x l IH]; intros HPQ; [done|].
  rewrite !filter_cons.
  rewrite IH by (intros y Hy; apply HPQ; by right).
  pose proof (HPQ x (list_elem_of_here _ _)) as Hx.
  destruct (decide (P x)) as [HP|HP], (decide (Q x)) as [HQ|HQ];
    try done; exfalso; tauto.
Qed.

Lemma filter_all {A} (P : A -> Prop) `{!forall x, Decision (P x)} (l : list A) :
  (forall x, x ∈ l -> P x) -> filter P l = l.
Proof.
  induction l as [|x l IH]; intros HP; [done|].
  rewrite filter_cons_True by (apply HP; by left).
  f_equal. apply IH. intros y Hy. apply HP. by right.
Qed.

(** In a sorted slice, what follows an element is not below it. *)
Lemma sorted_drop l i x :
  StronglySorted byID l -> l !! i = Some x ->
  forall y, y ∈ drop (S i) l -> ID x <= ID y.
Proof.
  intros Hs Hx y Hy.
  rewrite <- (take_drop_middle l i x Hx) in Hs.
  apply StronglySorted_app_1_r in Hs.
  apply StronglySorted_cons in Hs as [Hall _].
  rewrite Forall_forall in Hall. by apply Hall.
Qed.

Lemma notLoop_spec qs ps :
  StronglySorted byID qs -> StronglySorted byID ps ->
  forall n i j r,
    (length qs - i + (length ps - j) <= n)%nat ->
    (length r <= i)%nat -> (i <= length qs)%nat ->
    exists i' j' r',
      notLoop n qs ps i j r = (i', j', r')
      /\ (length r' <= i')%nat /\ (i' <= length qs)%nat
      /\ r' ++ drop i' qs
         = r ++ filter (fun t => ID t ∉ ID <$> drop j ps) (drop i qs).
Proof.
  intros Sq Sp n. induction n as [|n IH]; intros i j r Hn Hr Hi.
  - exists i, j, r. repeat split; try done.
    rewrite (drop_ge qs i) by lia. done.
  - cbn [notLoop].
    destruct (qs !! i) as [qi|] eqn:Hqi; cycle 1.
    { exists i, j, r. repeat split; try done.
      apply lookup_ge_None in Hqi. by rewrite (drop_ge qs i) by lia. }
    destruct (ps !! j) as [pj|] eqn:Hpj; cycle 1.
    { exists i, j, r. repeat split; try done.
      apply lookup_ge_None in Hpj. rewrite (drop_ge ps j) by lia.
      rewrite filter_all; [done|]. intros x _. rewrite fmap_nil.
      apply not_elem_of_nil. }
    pose proof (lookup_lt_Some _ _ _ Hqi) as Hlq.
    pose proof (lookup_lt_Some _ _ _ Hpj) as Hlp.
    rewrite (drop_S qs qi i Hqi), (drop_S ps pj j Hpj).
    pose proof (sorted_drop _ _ _ Sq Hqi) as Hqs.
    pose proof (sorted_drop _ _ _ Sp Hpj) as Hps.
    destruct (decide (ID qi < ID pj)) as [Hlt|Hge].
    + destruct (IH (S i) j (r ++ [qi])) as (i' & j' & r' & -> & ? & ? & Heq);
        [lia|rewrite length_app; simpl; lia|lia|].
      exists i', j', r'. repeat split; try done.
      rewrite Heq, (drop_S ps pj j Hpj), <- app_assoc.
      rewrite filter_cons_True; [done|].
      rewrite fmap_cons, not_elem_of_cons. split; [lia|].
      intros (y & Hy & Hin)%list_elem_of_fmap. apply Hps in Hin. lia.
    + destruct (decide (ID pj < ID qi)) as [Hlt|Hge'].
      * destruct (IH i (S j) r) as (i' & j' & r' & -> & ? & ? & Heq);
          [lia|lia|lia|].
        exists i', j', r'. repeat split; try done.
        rewrite Heq, (drop_S qs qi i Hqi). f_equal.
        apply filter_ext_elem. intros x Hx.
        rewrite fmap_cons, not_elem_of_cons.
        assert (ID qi <= ID x).
        { apply elem_of_cons in Hx as [->|Hx]; [lia|by apply Hqs]. }
        split; [|naive_solver]. intros Hx'. split; [lia|done].
      * destruct (IH (S i) j r) as (i' & j' & r' & -> & ? & ? & Heq);
          [lia|lia|lia|].
        exists i', j', r'. repeat split; try done.
        rewrite Heq, (drop_S ps pj j Hpj).
        rewrite filter_cons_False; [done|].
        intros Hnot. apply Hnot. rewrite fmap_cons. apply elem_of_cons.
        left. lia.
Qed.

Lemma Not_spec q p (sl : Arrays) :
  qg q = qg p -> bounded (terms q) sl -> bounded (terms p) sl ->
  separate (terms q) (terms p) ->
  exists r sl',
    Not q p sl = (Ok r, sl')
    /\ Result r sl'
       = filter (fun t => ID t ∉ ID <$> Result p sl) (Result q sl')
    /\ Permutation (Result q sl') (Result q sl)
    /\ StronglySorted byID (Result q sl').
Proof.
  intros Hg Hq Hp Hsep. unfold Not. rewrite decide_False by (by intros []).
  set (sl2 := sortTerms p (sortTerms q sl)).
  destruct (sorted_after q p sl (terms q)) as [Pq Sq]; [by left|done..|].
  destruct (sorted_after q p sl (terms p)) as [Pp Sp]; [by right|done..|].
  fold sl2 in Pq, Sq, Pp, Sp.
  assert (bounded (terms q) sl2) as Hq2.
  { unfold sl2. by do 2 apply bounded_sortTerms. }
  destruct (notLoop_spec _ _ Sq Sp
              (length (view (terms q) sl2) + length (view (terms p) sl2))%nat
              0%nat 0%nat []) as (i & j & r & -> & Hr & Hi & Heq);
    [lia|simpl; lia|lia|].
  rewrite app_nil_l, !drop_0 in Heq.
  assert (filter (fun t => ID t ∉ ID <$> view (terms p) sl2) (view (terms q) sl2)
          = filter (fun t => ID t ∉ ID <$> view (terms p) sl) (view (terms q) sl2))
    as Hfilter.
  { apply list_filter_iff. intros x. by rewrite Pp. }
  case_decide as Hlen.
  - unfold slice. rewrite Z.min_l by lia. rewrite Z.add_0_r.
    rewrite decide_True by lia. rewrite !Nat2Z.id.
    rewrite take_ge by (rewrite length_drop; lia).
    destruct (newQuery_spec (qg q) (r ++ drop i (view (terms q) sl2)) sl2)
      as (l & Hl & ->).
    eexists _, _. split; [done|].
    rewrite Result_new, Result_old by done. unfold Result.
    by rewrite Heq, Hfilter.
  - destruct (newQuery_spec (qg q) r sl2) as (l & Hl & ->).
    eexists _, _. split; [done|].
    rewrite Result_new, Result_old by done. unfold Result.
    rewrite <- Hfilter, <- Heq. rewrite drop_ge by lia. by rewrite app_nil_r.
Qed.

(** C5, as amended. For two queries on one graph whose frontiers are the
    same slice or share no element of an array, [q.Not(p)] returns; its
    frontier is the frontier of [q] as the call leaves it, sorted by
    handle, without the terms whose handle occurs in [p]: the terms of
    [q] whose handle does not occur in [p], each as often as [q] holds
    it. *)
Theorem Not_difference q p (sl : Arrays) :
  qg q = qg p -> bounded (terms q) sl -> bounded (terms p) sl ->
  separate (terms q) (terms p) ->
  exists r sl',
    Not q p sl = (Ok r, sl')
    /\ Result r sl'
       = filter (fun t => ID t ∉ ID <$> Result p sl) (Result q sl')
    /\ Permutation (Result q sl') (Result q sl)
    /\ StronglySorted byID (Result q sl').
Proof. apply Not_spec. Qed.

(** *** The receiver of a combinator *)

Lemma Out_In_store r0 gid (sl : Arrays) r sl' :
  match r0 with
  | Panic e => (Panic e, sl)
  | Ok r => newQuery gid r sl
  end = (Ok r, sl') ->
  (arr (terms r) ∉ dom sl) /\ forall l, l ∈ dom sl -> sl' !! l = sl !! l.
Proof.
  destruct r0 as [ts|e]; [|done]. intros [= <- <-]. simpl.
  split; [apply is_fresh|]. intros l Hl. rewrite lookup_insert_ne; [done|].
  intros <-. by apply (is_fresh (dom sl)).
Qed.

(** C9, as amended. Every combinator that returns, returns a query on a
    new backing array. [Out] and [In] leave every array of the store,
    that of the receiver among them, as it was. [Unique] returns and
    sorts the frontier of the receiver in place: after the call [Result]
    shows the same terms, each as often as before, in ascending order of
    handle. So do [And], [Or] and [Not] when the frontier of the argument
    is the slice of the receiver or shares no element of an array with
    it. *)
Theorem combinators_receiver q (sl : Arrays) :
  bounded (terms q) sl ->
  (forall w fn r sl',
     Out w fn q sl = (Ok r, sl') \/ In w fn q sl = (Ok r, sl') ->
     (arr (terms r) ∉ dom sl) /\ forall l, l ∈ dom sl -> sl' !! l = sl !! l)
  /\ sorts_receiver q sl (Unique q sl)
  /\ (forall p, qg q = qg p -> bounded (terms p) sl ->
      separate (terms q) (terms p) ->
      sorts_receiver q sl (And q p sl)
      /\ sorts_receiver q sl (Or q p sl)
      /\ sorts_receiver q sl (Not q p sl)).
Proof.
  intros Hq. split.
  { intros w fn r sl' [Ho|Hi]; by eapply Out_In_store. }
  assert (forall gid ts sl2,
    dom sl2 = dom sl -> bounded (terms q) sl2 ->
    Permutation (view (terms q) sl2) (view (terms q) sl) ->
    StronglySorted byID (view (terms q) sl2) ->
    sorts_receiver q sl (newQuery gid ts sl2)) as Hnew.
  { intros gid ts sl2 Hd Hq2 Hperm Hsort.
    destruct (newQuery_spec gid ts sl2) as (l & Hl & ->).
    eexists _, _. split; [done|]. cbn [terms arr]. rewrite <- Hd.
    split; [done|]. by rewrite Result_old. }
  split.
  { unfold Unique. apply Hnew.
    - apply sortTerms_dom.
    - by apply bounded_sortTerms.
    - rewrite sortTerms_self by done. apply sortByID_perm.
    - rewrite sortTerms_self by done. apply sortByID_byID. }
  intros p Hg Hp Hsep.
  destruct (sorted_after q p sl (terms q)) as [Pq Sq]; [by left|done..|].
  assert (dom (sortTerms p (sortTerms q sl)) = dom sl) as Hd2.
  { by rewrite !sortTerms_dom. }
  assert (bounded (terms q) (sortTerms p (sortTerms q sl))) as Hq2.
  { by do 2 apply bounded_sortTerms. }
  split; [|split].
  - unfold And. rewrite decide_False by (by intros []). by apply Hnew.
  - unfold Or. rewrite decide_False by (by intros []).
    destruct (orLoop _ _ _ _ _ _) as [[i j] r]. by apply Hnew.
  - destruct (Not_spec q p sl Hg Hq Hp Hsep) as (r & sl' & Hnot & _ & ? & ?).
    exists r, sl'. repeat split; try done.
    revert Hnot. unfold Not. rewrite decide_False by (by intros []).
    destruct (notLoop _ _ _ _ _ _) as [[i j] r']. case_decide.
    + destruct (slice _ _ _); [|done]. intros [= <- _]. cbn [terms arr].
      rewrite <- Hd2. apply is_fresh.
    + intros [= <- _]. cbn [terms arr]. rewrite <- Hd2. apply is_fresh.
Qed.

End QueryAlgebra.

(** C4 fails as stated: on a frontier that holds one term twice, [And]
    of the query with itself keeps both, [Unique] keeps one. *)
Lemma And_keeps_duplicates :
  resultOf (@And plain Ex3.twice Ex3.twice Ex3.slices) = Some [Ex.A; Ex.A]
  /\ resultOf (@Unique plain Ex3.twice Ex3.slices) = Some [Ex.A].
Proof. split; by vm_compute. Qed.

Lemma And_self_witness :
  bounded (terms Ex3.q) Ex3.slices
  /\ exists r sl',
      @And plain Ex3.q Ex3.q Ex3.slices = (Ok r, sl')
      /\ Result r sl' = Result Ex3.q sl'
      /\ Permutation (Result r sl') (Result Ex3.q Ex3.slices)
      /\ StronglySorted byID (Result r sl')
      /\ (NoDup (ID <$> Result Ex3.q Ex3.slices) ->
          exists r2 sl2,
            @Unique plain Ex3.q Ex3.slices = (Ok r2, sl2)
            /\ qg r2 = qg r /\ Result r2 sl2 = Result r sl').
Proof.
  assert (bounded (terms Ex3.q) Ex3.slices) as Hb.
  { apply (bool_decide_unpack _). by vm_compute. }
  split; [exact Hb|].
  apply (@And_self plain Ex3.q Ex3.slices). exact Hb.
Defined.

(** C5 fails as stated: [Not] keeps both instances of a term that the
    receiver holds twice. *)
Lemma Not_keeps_duplicates :
  resultOf (@Not plain Ex3.twice Ex3.none Ex3.slices) = Some [Ex.A; Ex.A].
Proof. by vm_compute. Qed.

(** The frontiers of the amended C5 must be the same slice or share no
    element: with [ts = [t5, t6, t1]], [q] on [ts[0:2]] and [p] on
    [ts[1:3]], the sort of [p] in place leaves [t5, t1, t6] in the
    array, the frontier of [q] is then [t5, t1], and [q.Not(p)] holds
    [t5] and [t1], where the difference of [t5, t6] and [t6, t1] is
    [t5]. *)
Lemma Not_of_overlapping_slices :
  qg Ex3.low = qg Ex3.high
  /\ ~ separate (terms Ex3.low) (terms Ex3.high)
  /\ Result Ex3.low Ex3.slices = [Ex3.t5; Ex3.t6]
  /\ Result Ex3.high Ex3.slices = [Ex3.t6; Ex3.t1]
  /\ resultOf (@Not plain Ex3.low Ex3.high Ex3.slices)
     = Some [Ex3.t5; Ex3.t1]
  /\ Result Ex3.low (@Not plain Ex3.low Ex3.high Ex3.slices).2
     = [Ex3.t5; Ex3.t1].
Proof.
  split; [done|]. split.
  { apply (bool_decide_eq_false_1 (separate _ _)). by vm_compute. }
  repeat split; by vm_compute.
Qed.

Lemma Not_difference_witness :
  qg Ex3.q = qg Ex3.twice
  /\ bounded (terms Ex3.q) Ex3.slices
  /\ bounded (terms Ex3.twice) Ex3.slices
  /\ separate (terms Ex3.q) (terms Ex3.twice)
  /\ exists r sl',
      @Not plain Ex3.q Ex3.twice Ex3.slices = (Ok r, sl')
      /\ Result r sl'
         = filter (fun t => ID t ∉ ID <$> Result Ex3.twice Ex3.slices)
                  (Result Ex3.q sl')
      /\ Permutation (Result Ex3.q sl') (Result Ex3.q Ex3.slices)
      /\ StronglySorted byID (Result Ex3.q sl').
Proof.
  assert (bounded (terms Ex3.q) Ex3.slices) as Hq.
  { apply (bool_decide_unpack _). by vm_compute. }
  assert (bounded (terms Ex3.twice) Ex3.slices) as Hp.
  { apply (bool_decide_unpack _). by vm_compute. }
  assert (separate (terms Ex3.q) (terms Ex3.twice)) as Hs.
  { apply (bool_decide_unpack _). by vm_compute. }
  split; [reflexivity|]. split; [exact Hq|]. split; [exact Hp|].
  split; [exact Hs|].
  apply (@Not_difference plain Ex3.q Ex3.twice Ex3.slices);
    [reflexivity|exact Hq|exact Hp|exact Hs].
Defined.

(** C9 fails as stated: [Unique] leaves the frontier of its receiver in
    another order. *)
Lemma Unique_sorts_receiver :
  Result Ex3.q Ex3.slices = [Ex.B; Ex.A]
  /\ resultOf (@Unique plain Ex3.q Ex3.slices) = Some [Ex.A; Ex.B]
  /\ Result Ex3.q (@Unique plain Ex3.q Ex3.slices).2 = [Ex.A; Ex.B].
Proof. repeat split; by vm_compute. Qed.

(** The condition of the amended C9 on the argument of a binary
    combinator is needed: with [q] on [ts[0:2]] and [p] on [ts[1:3]] of
    [ts = [t5, t6, t1]], after [q.And(p)], [q.Or(p)] or [q.Not(p)] the
    frontier of [q] is [t5, t1]: not in ascending order, and with a term
    that it did not hold. *)
Lemma receiver_of_overlapping_slices :
  ~ separate (terms Ex3.low) (terms Ex3.high)
  /\ Result Ex3.low Ex3.slices = [Ex3.t5; Ex3.t6]
  /\ Result Ex3.low (@And plain Ex3.low Ex3.high Ex3.slices).2
     = [Ex3.t5; Ex3.t1]
  /\ Result Ex3.low (@Or plain Ex3.low Ex3.high Ex3.slices).2
     = [Ex3.t5; Ex3.t1]
  /\ Result Ex3.low (@Not plain Ex3.low Ex3.high Ex3.slices).2
     = [Ex3.t5; Ex3.t1].
Proof.
  split.
  { apply (bool_decide_eq_false_1 (separate _ _)). by vm_compute. }
  repeat split; by vm_compute.
Qed.

Lemma combinators_receiver_witness :
  bounded (terms Ex3.q) Ex3.slices
  /\ (forall w fn r sl',
       @Out plain w fn Ex3.q Ex3.slices = (Ok r, sl')
       \/ @In plain w fn Ex3.q Ex3.slices = (Ok r, sl') ->
       (arr (terms r) ∉ dom Ex3.slices)
       /\ forall l, l ∈ dom Ex3.slices -> sl' !! l = Ex3.slices !! l)
  /\ sorts_receiver Ex3.q Ex3.slices (@Unique plain Ex3.q Ex3.slices)
  /\ (forall p, qg Ex3.q = qg p -> bounded (terms p) Ex3.slices ->
      separate (terms Ex3.q) (terms p) ->
      sorts_receiver Ex3.q Ex3.slices (@And plain Ex3.q p Ex3.slices)
      /\ sorts_receiver Ex3.q Ex3.slices (@Or plain Ex3.q p Ex3.slices)
      /\ sorts_receiver Ex3.q Ex3.slices (@Not plain Ex3.q p Ex3.slices)).
Proof.
  assert (bounded (terms Ex3.q) Ex3.slices) as Hb.
  { apply (bool_decide_unpack _). by vm_compute. }
  split; [exact Hb|].
  apply (@combinators_receiver plain Ex3.q Ex3.slices). exact Hb.
Defined.


(** ** Paths and distances *)

Section Paths.
Variable E : Z -> Z -> Prop.

Lemma path_first n u v w : E u v -> path E n v w -> path E (S n) u w.
Proof.
  intros Huv Hp. induction Hp as [x|n x y z _ IH Hyz].
  - eapply path_step; [apply path_here|done].
  - eapply path_step; [by apply IH|done].
Qed.

Lemma path_app n m u v w :
  path E n u v -> path E m v w -> path E (n + m) u w.
Proof.
  intros Hn Hm. induction Hm as [x|m x y z _ IH Hyz].
  - by rewrite Nat.add_0_r.
  - rewrite Nat.add_succ_r. eapply path_step; [by apply IH|done].
Qed.

Lemma path_split n m u w :
  path E (n + m) u w -> exists v, path E n u v /\ path E m v w.
Proof.
  revert w. induction m as [|m IH]; intros w Hp.
  - rewrite Nat.add_0_r in Hp. exists w. split; [done|apply path_here].
  - rewrite Nat.add_succ_r in Hp. inversion Hp as [|? ? y ? Hp' Hyw]; subst.
    destruct (IH _ Hp') as (v & Hv1 & Hv2).
    exists v. split; [done|]. by eapply path_step.
Qed.

Lemma path_zero u v : path E 0 u v -> v = u.
Proof. by inversion 1. Qed.

Lemma path_last n u w :
  path E (S n) u w -> exists v, path E n u v /\ E v w.
Proof. inversion 1; subst. eauto. Qed.

Lemma dist_unique u v d1 d2 : dist E u v d1 -> dist E u v d2 -> d1 = d2.
Proof.
  intros [P1 M1] [P2 M2].
  destruct (Nat.lt_trichotomy d1 d2) as [Hlt|[Heq|Hgt]]; [|done|].
  - by destruct (M2 d1 Hlt).
  - by destruct (M1 d2 Hgt).
Qed.

Lemma dist_zero u : dist E u u 0.
Proof. split; [apply path_here|]. intros n Hn. lia. Qed.

(** A shortest path is made of shortest paths. *)
Lemma dist_split n m u w :
  dist E u w (n + m) -> exists v, dist E u v n /\ path E m v w.
Proof.
  intros [Hp Hmin]. destruct (path_split _ _ _ _ Hp) as (v & Hv1 & Hv2).
  exists v. split; [|done]. split; [done|].
  intros k Hk Hpk. apply (Hmin (k + m)%nat); [lia|]. by eapply path_app.
Qed.

Lemma dist_last n u w :
  dist E u w (S n) -> exists v, dist E u v n /\ E v w.
Proof.
  intros Hd. replace (S n) with (n + 1)%nat in Hd by lia.
  destruct (dist_split _ _ _ _ Hd) as (v & Hv & Hvw).
  exists v. split; [done|].
  apply path_last in Hvw as (x & ->%path_zero & Hx). done.
Qed.

End Paths.

Lemma path_mono (E E' : Z -> Z -> Prop) n u v :
  (forall x y, E x y -> E' x y) -> path E n u v -> path E' n u v.
Proof.
  intros HE Hp. induction Hp; [apply path_here|].
  eapply path_step; [done|by apply HE].
Qed.

Lemma path_flip (E : Z -> Z -> Prop) n u v :
  path E n u v -> path (fun x y => E y x) n v u.
Proof.
  intros Hp. induction Hp as [x|n x y z _ IH Hyz]; [apply path_here|].
  eapply path_first; [exact Hyz|exact IH].
Qed.

(** ** The callback along the visits of a walk *)

Section Scan.
Context `{Runtime}.
Variable G : TraverseGraph.
Variable Traverse : list addr -> bool.

(** The walk is its callback applied along the visits of the walk that
    never stops. *)
Lemma bfsLoop_scan {St} (until : Term -> Z -> St -> bool * St)
    fuel queue visited depth children untilNext tr st :
  bfsTrace G Traverse fuel queue visited depth children untilNext = Ok tr ->
  bfsLoop G Traverse fuel until queue visited depth children untilNext st
  = Ok (scan until tr st).
Proof.
  revert queue visited depth children untilNext tr st.
  induction fuel as [|fuel IH];
    intros queue visited depth children untilNext tr st;
    destruct queue as [|t queue]; simpl; try done.
  - by intros [= <-].
  - by intros [= <-].
  - destruct (enqueueAll _ _ _ _ _ _ _) as [[[v' q'] c']|e]; [|done].
    destruct (decide (untilNext - 1 = 0)).
    + destruct (bfsTrace _ _ _ _ _ _ _ _) as [tr'|?] eqn:Htr; [|done].
      intros [= <-]. simpl. destruct (until t depth st) as [[|] st']; [done|].
      by apply IH.
    + destruct (bfsTrace _ _ _ _ _ _ _ _) as [tr'|?] eqn:Htr; [|done].
      intros [= <-]. simpl. destruct (until t depth st) as [[|] st']; [done|].
      by apply IH.
Qed.

End Scan.

(** ** The breadth-first walk visits every node at its distance *)

Section BreadthFirst.
Context `{Runtime}.
Variable G : TraverseGraph.
Variable Traverse : list addr -> bool.

(** Every node that [From] yields is the node [N] of its ID, which is
    in [U]. *)
Variable N : Z -> Term.
Variable U : gset Z.
Hypothesis yields : forall u n,
  Some n ∈ tFrom G u -> N (ID n) = n /\ ID n ∈ U.
Hypothesis no_nil : forall u, None ∉ tFrom G u.

Local Abbreviation E := (follows G Traverse).

Lemma enqueueAll_spec tid ns visited queue children :
  (forall n, Some n ∈ ns -> N (ID n) = n /\ ID n ∈ U) -> None ∉ ns ->
  exists new,
    enqueueAll G Traverse tid ns visited queue children
    = Ok (visited ∪ list_to_set (ID <$> new), queue ++ new,
          children + Z.of_nat (length new))
    /\ NoDup (ID <$> new)
    /\ (forall n, n ∈ new <->
          Some n ∈ ns /\ Traverse (tEdge G tid (ID n)) = true
          /\ ID n ∉ visited).
Proof.
  revert visited queue children.
  induction ns as [|[n|] ns IH]; intros visited queue children Hns Hnil.
  - exists []. simpl. rewrite app_nil_r, Z.add_0_r.
    split; [f_equal; f_equal; f_equal; set_solver|].
    split; [constructor|]. intros n. rewrite elem_of_nil. set_solver.
  - assert (forall m, Some m ∈ ns -> N (ID m) = m /\ ID m ∈ U) as Hns'.
    { intros m Hm. apply Hns. by right. }
    assert (None ∉ ns) as Hnil'.
    { intros Hm. apply Hnil. by right. }
    cbn [enqueueAll].
    destruct (Traverse (tEdge G tid (ID n))) eqn:Hacc; cbn [negb]; cycle 1.
    { destruct (IH visited queue children Hns' Hnil') as (new & -> & Hnd & Hin).
      exists new. split; [done|]. split; [done|]. intros m. rewrite Hin.
      split; [intros (? & ? & ?); split; [by right|done]|].
      intros ([[= ->]|Hm]%elem_of_cons & Hacc' & ?); [congruence|done]. }
    destruct (decide (ID n ∈ visited)) as [Hv|Hv].
    { destruct (IH visited queue children Hns' Hnil') as (new & -> & Hnd & Hin).
      exists new. split; [done|]. split; [done|]. intros m. rewrite Hin.
      split; [intros (? & ? & ?); split; [by right|done]|].
      intros ([[= ->]|Hm]%elem_of_cons & Hacc' & ?); [done|done]. }
    destruct (IH (visited ∪ {[ID n]}) (queue ++ [n]) (children + 1) Hns' Hnil')
      as (new & -> & Hnd & Hin).
    exists (n :: new). split; [|split].
    + rewrite <- app_assoc. cbn [app length]. rewrite fmap_cons.
      f_equal. f_equal; [f_equal; set_solver|lia].
    + rewrite fmap_cons. apply NoDup_cons. split; [|done].
      intros (m & Hm & Hmin)%list_elem_of_fmap. apply Hin in Hmin. set_solver.
    + intros m. rewrite elem_of_cons, Hin. split.
      * intros [->|(? & ? & ?)]; [split; [by left|done]|].
        split; [by right|]. split; [done|set_solver].
      * intros ([[= ->]|Hm]%elem_of_cons & Hacc' & Hm'); [by left|].
        destruct (decide (ID m = ID n)) as [Heq|Hne].
        -- left. destruct (Hns m) as [<- _]; [by right|].
           destruct (Hns n) as [<- _]; [by left|]. by rewrite Heq.
        -- right. split; [done|]. split; [done|]. set_solver.
  - exfalso. apply Hnil. by left.
Qed.

(** The start of the walk. *)
Variable s : Term.
Hypothesis start : N (ID s) = s.

Local Abbreviation W := (U ∪ {[ ID s ]}).
Local Abbreviation near := (within E (ID s)).
Local Abbreviation far := (dist E (ID s)).

(** When every edge from the last level leads to a visited node and the
    visited nodes are those of the levels so far, no node is farther. *)
Lemma frontier_done (dn : nat) (visited : gset Z) :
  (forall v, v ∈ visited <-> near dn v) ->
  (forall u v, far u dn -> E u v -> v ∈ visited) ->
  forall v d, (dn < d)%nat -> ~ far v d.
Proof.
  intros I3 I4 v d Hd Hdist. pose proof Hdist as [_ Hmin].
  replace d with (dn + S (d - S dn))%nat in Hdist by lia.
  apply dist_split in Hdist as (u & Hu & Hp).
  replace (S (d - S dn)) with (1 + (d - S dn))%nat in Hp by lia.
  apply path_split in Hp as (x & Hx & Hxv).
  apply path_last in Hx as (u' & ->%path_zero & Hux).
  apply (I4 u x Hu), I3 in Hux as (n & Hn & Hpn).
  apply (Hmin (n + (d - S dn))%nat); [lia|]. by eapply path_app.
Qed.

Lemma bfsTrace_done fuel (visited : gset Z) (dn : nat) c u :
  (forall v, v ∈ visited <-> near dn v \/ v ∈ ID <$> []) ->
  (forall u v, far u dn -> E u v -> u ∈ ID <$> [] \/ v ∈ visited) ->
  exists tr,
    bfsTrace G Traverse fuel [] visited (Z.of_nat dn) c u = Ok tr
    /\ forall x d, (x, d) ∈ tr <->
         (x ∈ [] /\ d = Z.of_nat dn)
         \/ (d > Z.of_nat dn /\ far (ID x) (Z.to_nat d) /\ N (ID x) = x).
Proof.
  intros I3 I4. exists []. split; [by destruct fuel|].
  intros x d. rewrite elem_of_nil. split; [done|].
  intros [[[]%elem_of_nil _]|(Hd & Hdist & _)].
  apply (frontier_done dn visited) in Hdist; [done| | |lia].
  - intros v. rewrite I3, fmap_nil, elem_of_nil. tauto.
  - intros a b Ha Hab. destruct (I4 a b Ha Hab) as [[]%elem_of_nil|]. done.
Qed.

Lemma bfsTrace_spec fuel : forall cur nxt visited (dn : nat),
  (cur = [] -> nxt = []) ->
  (forall t, t ∈ cur -> far (ID t) dn /\ N (ID t) = t) ->
  (forall t, t ∈ nxt -> far (ID t) (S dn) /\ N (ID t) = t) ->
  (forall v, v ∈ visited <-> near dn v \/ v ∈ ID <$> nxt) ->
  (forall u v, far u dn -> E u v -> u ∈ ID <$> cur \/ v ∈ visited) ->
  visited ⊆ W ->
  (length (cur ++ nxt) + (size W - size visited) <= fuel)%nat ->
  exists tr,
    bfsTrace G Traverse fuel (cur ++ nxt) visited (Z.of_nat dn)
             (Z.of_nat (length nxt)) (Z.of_nat (length cur)) = Ok tr
    /\ forall x d, (x, d) ∈ tr <->
         (x ∈ cur /\ d = Z.of_nat dn)
         \/ (d > Z.of_nat dn /\ far (ID x) (Z.to_nat d) /\ N (ID x) = x).
Proof.
  induction fuel as [|fuel IH];
    intros cur nxt visited dn Hemp I1 I2 I3 I4 Hsub Hfuel.
  all: destruct cur as [|t cur].
  1,3: rewrite (Hemp eq_refl) in *; by apply bfsTrace_done.
  - simpl in Hfuel. lia.
  - destruct (I1 t) as [Ht Hnt]; [by left|].
    destruct (enqueueAll_spec (ID t) (tFrom G (ID t)) visited (cur ++ nxt)
                (Z.of_nat (length nxt))) as (new & Henq & Hnd & Hnew);
      [by apply yields|by apply no_nil|].
    cbn [app bfsTrace]. rewrite Henq. clear Henq.
    set (visited' := visited ∪ list_to_set (ID <$> new)).
    (* what was enqueued *)
    assert (forall n, n ∈ new ->
              far (ID n) (S dn) /\ N (ID n) = n /\ ID n ∈ U) as Hfresh.
    { intros n (Hn & Hacc & Hv)%Hnew.
      destruct (yields _ _ Hn) as [Hcanon HinU].
      split; [|done]. split.
      - eapply path_step; [apply Ht|]. by exists n.
      - intros k Hk Hpk. apply Hv, I3. left. exists k. split; [lia|done]. }
    assert (forall v, v ∈ visited' <-> near dn v \/ v ∈ ID <$> (nxt ++ new))
      as I3'.
    { intros v. unfold visited'.
      rewrite elem_of_union, I3, fmap_app, elem_of_app, elem_of_list_to_set.
      tauto. }
    assert (forall u v, far u dn -> E u v ->
              u ∈ ID <$> cur \/ v ∈ visited') as I4'.
    { intros u v Hu Huv.
      destruct (I4 u v Hu Huv) as [Hcur|Hvis];
        [|right; apply elem_of_union; by left].
      rewrite fmap_cons in Hcur. apply elem_of_cons in Hcur as [->|Hcur];
        [|by left].
      right. destruct Huv as (n & Hn & <- & Hacc).
      destruct (decide (ID n ∈ visited)) as [Hv|Hv];
        [apply elem_of_union; by left|].
      apply I3'. right. rewrite fmap_app. apply elem_of_app. right.
      apply list_elem_of_fmap_2. by apply Hnew. }
    assert (size visited' = (size visited + length new)%nat) as Hsize.
    { unfold visited'. rewrite size_union.
      - by rewrite size_list_to_set, length_fmap.
      - intros v Hv (n & -> & Hn)%elem_of_list_to_set%list_elem_of_fmap.
        apply Hnew in Hn. tauto. }
    assert (visited' ⊆ W) as Hsub'.
    { intros v [Hv|(n & -> & Hn)%elem_of_list_to_set%list_elem_of_fmap]
        %elem_of_union; [by apply Hsub|].
      apply elem_of_union. left. by apply Hfresh. }
    pose proof (subseteq_size _ _ Hsub') as Hle.
    assert (forall x, x ∈ nxt ++ new -> far (ID x) (S dn) /\ N (ID x) = x)
      as I2'.
    { intros x [Hx|Hx]%elem_of_app; [by apply I2|].
      destruct (Hfresh x Hx) as (? & ? & _). done. }
    rewrite length_app in Hfuel. cbn [length] in Hfuel.
    destruct (decide (Z.of_nat (length (t :: cur)) - 1 = 0)) as [Hlast|Hmore].
    + (* the level is done *)
      assert (cur = []) as -> by (destruct cur; [done|simpl in Hlast; lia]).
      clear I4. rewrite fmap_nil in I4'.
      assert (forall v, far v (S dn) -> v ∈ ID <$> (nxt ++ new)) as Hall.
      { intros v Hv. pose proof Hv as [_ Hmin].
        apply dist_last in Hv as (u & Hu & Huv).
        destruct (I4' u v Hu Huv) as [[]%elem_of_nil|Hvis].
        apply I3' in Hvis as [(n & Hn & Hpn)|Hin]; [|done].
        destruct (Hmin n); [lia|done]. }
      destruct (IH (nxt ++ new) [] visited' (S dn)) as (tr & Htr & Hspec).
      * done.
      * done.
      * by intros x []%elem_of_nil.
      * intros v. rewrite fmap_nil, elem_of_nil. split.
        -- intros [(n & Hn & Hpn)|Hin]%I3'.
           ++ left. exists n. split; [lia|done].
           ++ left. apply list_elem_of_fmap in Hin as (x & -> & Hx).
              exists (S dn). split; [lia|]. by apply I2'.
        -- intros [(n & Hn & Hpn)|[]].
           destruct (decide (v ∈ visited')) as [|Hnv]; [done|]. exfalso.
           assert (~ near dn v) as Hfar.
           { intros Hnear. apply Hnv, I3'. by left. }
           assert (n = S dn) as ->.
           { destruct (decide (n = S dn)); [done|].
             destruct Hfar. exists n. split; [lia|done]. }
           apply Hnv, I3'. right. apply Hall. split; [done|].
           intros k Hk Hpk. apply Hfar. exists k. split; [lia|done].
      * intros u v Hu _. left. by apply Hall.
      * done.
      * rewrite app_nil_r, length_app. simpl in Hfuel. lia.
      * cbn [app]. rewrite app_nil_r in Htr. rewrite length_app in Htr.
        replace (Z.of_nat (S dn)) with (Z.of_nat dn + 1) in Htr by lia.
        rewrite Nat2Z.inj_add in Htr. cbn [length] in Htr.
        replace (Z.of_nat 0) with 0 in Htr by done.
        rewrite Htr. eexists. split; [done|].
        intros x d. rewrite elem_of_cons, Hspec, list_elem_of_singleton.
        split.
        -- intros [[= -> ->]|[[Hx ->]|(Hd & Hdist & Hc)]].
           ++ by left.
           ++ right. rewrite Nat2Z.id. split; [lia|]. by apply I2'.
           ++ right. split; [lia|done].
        -- intros [[-> ->]|(Hd & Hdist & Hc)]; [by left|]. right.
           destruct (decide (d = Z.of_nat (S dn))) as [->|Hne].
           ++ left. split; [|done]. rewrite Nat2Z.id in Hdist.
              apply Hall, list_elem_of_fmap in Hdist as (y & Hy & Hin).
              destruct (I2' y Hin) as [_ Hcy].
              by rewrite <- Hc, Hy, Hcy.
           ++ right. split; [lia|done].
    + (* the level goes on *)
      assert (cur ≠ []) as Hcur.
      { intros ->. simpl in Hmore. lia. }
      destruct (IH cur (nxt ++ new) visited' dn) as (tr & Htr & Hspec).
      * done.
      * intros x Hx. apply I1. by right.
      * done.
      * done.
      * done.
      * done.
      * rewrite !length_app. lia.
      * replace (Z.of_nat (length (t :: cur)) - 1)
          with (Z.of_nat (length cur)) by (simpl; lia).
        rewrite app_assoc, length_app, Nat2Z.inj_add in Htr.
        rewrite Htr. eexists. split; [done|].
        intros x d. rewrite !elem_of_cons, Hspec. split.
        -- intros [[= -> ->]|[[Hx ->]|?]]; [left|left|right]; try done.
           ++ split; [by left|done].
           ++ split; [by right|done].
        -- intros [[[->|Hx] ->]|?]; [by left|right; by left|right; by right].
Qed.

(** The walk from [s], when it never stops, returns: it visits [s] at
    depth 0 and every other node at the length of a shortest path of
    followed edges from [s]. *)
Lemma bfsTrace_start fuel :
  (size W <= fuel)%nat ->
  exists tr,
    bfsTrace G Traverse fuel [s] {[ ID s ]} 0 0 1 = Ok tr
    /\ forall x d, (x, d) ∈ tr <->
         (x = s /\ d = 0)
         \/ (d > 0 /\ far (ID x) (Z.to_nat d) /\ N (ID x) = x).
Proof.
  intros Hfuel.
  destruct (bfsTrace_spec fuel [s] [] {[ ID s ]} 0) as (tr & Htr & Hspec).
  - done.
  - intros t ->%list_elem_of_singleton. split; [apply dist_zero|done].
  - by intros t []%elem_of_nil.
  - intros v. rewrite elem_of_singleton, fmap_nil, elem_of_nil. split.
    + intros ->. left. exists 0%nat. split; [done|apply path_here].
    + intros [(n & Hn & Hp)|[]]. assert (n = 0%nat) as -> by lia.
      by apply path_zero in Hp.
  - intros u v [Hu _] _. apply path_zero in Hu as ->. left.
    rewrite fmap_cons. by left.
  - set_solver.
  - rewrite size_singleton. simpl.
    destruct (size W) eqn:Hs; [|lia].
    apply size_empty_iff in Hs. set_solver.
  - exists tr. split; [done|]. intros x d. rewrite Hspec.
    rewrite list_elem_of_singleton. done.
Qed.

End BreadthFirst.

(** ** The two callbacks *)




(** ** Descendants and ancestors *)

Section Descent.
Context `{Runtime}.
Variable w : World.
Variable nm : Names.
Hypothesis sound : consistent w.

Local Abbreviation g := (graph w).
Local Abbreviation h := (heap w).
Local Abbreviation N := (fun v : Z => nodes g !!! v).
Local Abbreviation GO := (fun v : Z => HasPrefix (Value (N v)) (goTerm nm) = true).

(** A sub-class statement from [u] to [v]. *)
Local Abbreviation isa := (fun u v : Z =>
  exists l x, line (from g) u v l = Some x
              /\ Value (Predicate (h !!! x)) = subClassOf nm).

Lemma node_ID k n : nodes g !! k = Some n -> ID n = k /\ N k = n.
Proof.
  intros Hk. destruct sound as (Hn & _). split; [by apply (Hn k n)|].
  by rewrite lookup_total_alt, Hk.
Qed.

Lemma line_from u v l x :
  line (from g) u v l = Some x ->
  N u = Subject (h !!! x) /\ N v = Object (h !!! x)
  /\ is_Some (nodes g !! v) /\ line (to g) v u l = Some x.
Proof.
  rewrite line_alt. destruct sound as (_ & Hf & _).
  destruct (from g !! u) as [mu|] eqn:Hu; [|done]. simpl.
  destruct (mu !! v) as [c|] eqn:Hv; [|done]. simpl. intros Hl.
  destruct (Hf u mu Hu v c Hv) as [Hsome Hc].
  destruct (Hc l x Hl) as (H1 & H2 & H3).
  rewrite !lookup_total_alt, H1, H2. done.
Qed.

Lemma line_to v u l x :
  line (to g) v u l = Some x ->
  is_Some (nodes g !! u) /\ line (from g) u v l = Some x.
Proof.
  rewrite (line_alt (to g)). destruct sound as (_ & _ & Ht).
  destruct (to g !! v) as [mv|] eqn:Hv; [|done]. simpl.
  destruct (mv !! u) as [c|] eqn:Hu; [|done]. simpl. intros Hl.
  destruct (Ht v mv Hv u c Hu) as [Hsome Hc]. split; [done|].
  by apply (Hc l x).
Qed.

Lemma key_from u v :
  v ∈ keys (from g !!! u) -> is_Some (nodes g !! v).
Proof.
  rewrite elem_of_keys, lookup_total_alt. destruct sound as (_ & Hf & _).
  destruct (from g !! u) as [mu|] eqn:Hu; [|by intros [? ?]]. simpl.
  intros [c Hc]. by destruct (Hf u mu Hu v c Hc).
Qed.

Lemma key_to v u :
  u ∈ keys (to g !!! v) -> is_Some (nodes g !! u).
Proof.
  rewrite elem_of_keys, lookup_total_alt. destruct sound as (_ & _ & Ht).
  destruct (to g !! v) as [mv|] eqn:Hv; [|by intros [? ?]]. simpl.
  intros [c Hc]. by destruct (Ht v mv Hv u c Hc).
Qed.

(** The nodes that [From] and [To] yield. *)
Lemma yields_forward u n :
  Some n ∈ tFrom (forward g) u -> N (ID n) = n /\ ID n ∈ dom (nodes g).
Proof.
  simpl. unfold From. intros (k & Hk & Hin)%list_elem_of_fmap.
  symmetry in Hk. destruct (node_ID k n Hk) as [-> ?].
  split; [done|]. by apply elem_of_dom.
Qed.

Lemma yields_reverse u n :
  Some n ∈ tFrom (reverse g) u -> N (ID n) = n /\ ID n ∈ dom (nodes g).
Proof.
  simpl. unfold To. intros (k & Hk & Hin)%list_elem_of_fmap.
  symmetry in Hk. destruct (node_ID k n Hk) as [-> ?].
  split; [done|]. by apply elem_of_dom.
Qed.

Lemma no_nil_forward u : None ∉ tFrom (forward g) u.
Proof.
  simpl. unfold From. intros (k & Hk & Hin)%list_elem_of_fmap.
  apply key_from in Hin as [n Hn]. congruence.
Qed.

Lemma no_nil_reverse u : None ∉ tFrom (reverse g) u.
Proof.
  simpl. unfold To. intros (k & Hk & Hin)%list_elem_of_fmap.
  apply key_to in Hin as [n Hn]. congruence.
Qed.

Lemma ConnectedByAny_true u v fn :
  ConnectedByAny h (Edge g u v) fn = true
  <-> exists l x, line (from g) u v l = Some x /\ fn (h !!! x) = true.
Proof.
  unfold ConnectedByAny, Edge. rewrite existsb_exists. split.
  - intros (x & Hx & Hfn). apply list_elem_of_In, elem_of_Lines in Hx as [l Hl].
    eauto.
  - intros (l & x & Hl & Hfn). exists x. split; [|done].
    apply list_elem_of_In, elem_of_Lines. eauto.
Qed.

(** The edges that the two walks follow. *)
Lemma follows_forward u v :
  follows (forward g) (fun e => ConnectedByAny h e (isaTo nm)) u v
  <-> isa u v /\ GO v.
Proof.
  unfold follows. cbn [tFrom tEdge forward]. split.
  - intros (n & Hn & <- & (l & x & Hl & Hfn)%ConnectedByAny_true).
    unfold isaTo in Hfn. apply andb_true_iff in Hfn as [Hgo Hp].
    apply bool_decide_eq_true in Hp.
    destruct (line_from _ _ _ _ Hl) as (_ & -> & _). split; [|done]. eauto.
  - intros [(l & x & Hl & Hp) Hgo].
    destruct (line_from _ _ _ _ Hl) as (_ & Hv & [n Hn] & _).
    destruct (node_ID _ _ Hn) as [Hid Hnv].
    exists n. split; [|split; [done|]].
    + unfold From. rewrite <- Hn.
      apply (list_elem_of_fmap_2 (fun k => nodes g !! k)).
      by eapply line_keys.
    + apply ConnectedByAny_true. exists l, x. split; [done|].
      unfold isaTo. rewrite <- Hv, Hgo. by apply bool_decide_eq_true.
Qed.

Lemma follows_reverse v u :
  follows (reverse g) (fun e => ConnectedByAny h e (isaFrom nm)) v u
  <-> isa u v /\ GO u.
Proof.
  unfold follows. cbn [tFrom tEdge reverse]. split.
  - intros (n & Hn & <- & (l & x & Hl & Hfn)%ConnectedByAny_true).
    unfold isaFrom in Hfn. apply andb_true_iff in Hfn as [Hgo Hp].
    apply bool_decide_eq_true in Hp.
    destruct (line_from _ _ _ _ Hl) as (-> & _). split; [|done]. eauto.
  - intros [(l & x & Hl & Hp) Hgo].
    destruct (line_from _ _ _ _ Hl) as (Hu & _ & _ & Hto).
    destruct (line_to _ _ _ _ Hto) as [[n Hn] _].
    destruct (node_ID _ _ Hn) as [Hid Hnu].
    exists n. split; [|split; [done|]].
    + unfold To. rewrite <- Hn.
      apply (list_elem_of_fmap_2 (fun k => nodes g !! k)).
      by eapply line_keys.
    + apply ConnectedByAny_true. exists l, x. split; [done|].
      unfold isaFrom. rewrite <- Hu, Hgo. by apply bool_decide_eq_true.
Qed.

Local Abbreviation up :=
  (follows (forward g) (fun e => ConnectedByAny h e (isaTo nm))).
Local Abbreviation down :=
  (follows (reverse g) (fun e => ConnectedByAny h e (isaFrom nm))).




Lemma bound_enough (s : Term) :
  nodes g !! UID s = Some s ->
  (size (dom (nodes g) ∪ {[ ID s ]}) <= S (size (nodes g)))%nat.
Proof.
  intros Hs. rewrite <- size_dom. 
  assert (dom (nodes g) ∪ {[ ID s ]} ⊆ dom (nodes g)) as Hsub.
  { apply union_subseteq. split; [done|]. apply singleton_subseteq_l.
    by apply elem_of_dom. }
  apply subseteq_size in Hsub. lia.
Qed.


End Descent.


(** The duality needs the statements to agree with the node table: with
    handles given by the client, the handle 1 first stands for [<ex:x>]
    and then for [<obo:GO_1>]. The walk from [GO_1] follows the line of
    [<ex:x>] to [GO_2], whose object is a GO term; the reverse walk from
    [GO_2] refuses it, its subject is none. *)
Lemma client_handles_break_duality :
  let w := @history plain Ex4.collide [Add 1%nat; Add 2%nat] in
  let a := mkTerm "<obo:GO_2>" 2 in
  let q := mkTerm "<obo:GO_1>" 1 in
  ~ consistent w
  /\ names (graph w) = Some localNames
  /\ nodes (graph w) !! 2 = Some a
  /\ nodes (graph w) !! 1 = Some q
  /\ @IsDescendantOf plain w a q = Ok (true, 1)
  /\ @DescendantsOf plain w a = Ok [].
Proof.
  cbv zeta. split; [|repeat split; by vm_compute].
  apply (bool_decide_eq_false_1 (consistent _)). by vm_compute.
Qed.



(** ** Invariants of every call, from those of the primitives *)

Section Calls.
Context `{Runtime}.
Variable P : Graph -> Prop.

Hypothesis P_frame : forall g g',
  from g' = from g -> to g' = to g -> nodes g' = nodes g -> P g -> P g'.
Hypothesis P_node : forall n g, P g -> P (set_nodes (<[ID n := n]>) g).
Hypothesis P_line : forall u v l a g,
  is_Some (nodes g !! u) -> is_Some (nodes g !! v) -> P g ->
  P (set_to (putLine v u l a) (set_from (putLine u v l a) g)).
Hypothesis P_removeLine : forall u v l g, P g -> P (removeLine u v l g).
Hypothesis P_removeNode : forall id g, P g -> P (removeNode id g).

Lemma P_withNode n g : P g -> P (withNode n g).
Proof.
  intros Hg. unfold withNode. case_decide; [|by apply P_node].
  apply (P_frame (set_nodes <[ID n:=n]> g)); try done. by apply P_node.
Qed.

Lemma nodes_withNode n g k :
  is_Some (nodes g !! k) \/ k = ID n -> is_Some (nodes (withNode n g) !! k).
Proof.
  intros Hk. unfold withNode. case_decide; simpl;
    rewrite lookup_insert_is_Some; destruct (decide (ID n = k)); naive_solver.
Qed.

Ltac framed :=
  apply inv_modifyG; let g0 := fresh in intros g0 ?; by apply (P_frame g0).

Lemma inv_prims_addTerm a f : inv (onGraph P) (addTerm a f).
Proof.
  apply inv_addTerm_frame. intros g g' ? ? ? _ _ Hg. by eapply P_frame.
Qed.

Lemma inv_prims_setLine a : inv (onGraph P) (setLine a).
Proof.
  intros w Hw. rewrite setLine_ok. unfold onGraph in *. cbn [snd graph].
  eapply P_frame; cycle 3.
  - apply P_line.
    + apply nodes_withNode. left. apply nodes_withNode. by right.
    + apply nodes_withNode. by right.
    + by apply P_withNode, P_withNode.
  - done.
  - done.
  - done.
Qed.

Lemma inv_prims_AddStatement a : inv (onGraph P) (AddStatement a).
Proof.
  unfold AddStatement. inv_step; [inv_step|].
  destruct (err _); [inv_step|]. case_decide; [inv_step|].
  inv_step; [inv_step|]. inv_step.
  { destruct (HasPrefix _ _); case_decide;
      first [ apply inv_panic | framed ]. }
  destruct (err _); [inv_step|].
  destruct (kind (Parts (Value (Subject _)))); try apply inv_panic;
    (destruct (err _); [inv_step|]; case_decide; [inv_step|];
     inv_step; [framed|];
     inv_step; [apply inv_prims_addTerm|];
     inv_step; [apply inv_prims_addTerm|];
     inv_step; [apply inv_prims_addTerm|];
     apply inv_prims_setLine).
Qed.

Lemma P_removeOrphan t g : P g -> P (removeOrphan t g).
Proof.
  intros Hg. unfold removeOrphan. case_decide; [|done].
  apply (P_frame (removeNode (UID t) g)); try done. by apply P_removeNode.
Qed.

Lemma P_unindex a s g : P g -> P (unindex a s g).
Proof.
  intros Hg. unfold unindex. repeat case_decide; by apply (P_frame g).
Qed.

Lemma inv_prims_RemoveStatement a : inv (onGraph P) (RemoveStatement a).
Proof.
  unfold RemoveStatement. inv_step; [inv_step|]. inv_step; [inv_step|].
  case_decide; [|inv_step].
  inv_step; [apply inv_modifyG, P_removeLine|].
  inv_step; [apply inv_modifyG, P_unindex|].
  inv_step; apply inv_modifyG, P_removeOrphan.
Qed.

Lemma inv_prims_removeAll l : inv (onGraph P) (removeAll l).
Proof.
  induction l as [|a l IH]; simpl; [inv_step|].
  inv_step; [apply inv_prims_RemoveStatement|done].
Qed.

Lemma inv_prims_linesAt k f : inv (onGraph P) (linesAt k f).
Proof.
  unfold linesAt. inv_step; [inv_step|]. destruct (nodes _ !! k); inv_step.
Qed.

Lemma inv_prims_removeOut n t seen : inv (onGraph P) (removeOut n t seen).
Proof.
  revert seen. induction n as [|n IH]; intros seen; simpl; [inv_step|].
  inv_step; [inv_step|]. destruct (order _) as [|k ?]; [inv_step|].
  inv_step; [apply inv_prims_linesAt|].
  inv_step; [apply inv_prims_removeAll|apply IH].
Qed.

Lemma inv_prims_RemoveTerm t : inv (onGraph P) (RemoveTerm t).
Proof.
  unfold RemoveTerm. inv_step; [inv_step|]. inv_step.
  { destruct (pred _ !! _); [apply inv_prims_removeAll|inv_step]. }
  inv_step; [inv_step|]. case_decide; [inv_step|].
  inv_step; [apply inv_prims_removeOut|].
  inv_step.
  { unfold removeIn. inv_step; [inv_step|].
    destruct (keys _) as [|k ?]; [inv_step|].
    inv_step; [apply inv_prims_linesAt|apply inv_prims_removeAll]. }
  inv_step; [apply inv_modifyG, P_removeNode|]. framed.
Qed.

Lemma inv_prims_call op : inv (onGraph P) (call op).
Proof.
  destruct op; simpl.
  - apply inv_prims_AddStatement.
  - apply inv_prims_RemoveStatement.
  - apply inv_prims_RemoveTerm.
Qed.

End Calls.

(** ** The cells of the forward index hold lines between nodes *)

Section Closed.
Context `{Runtime}.

Lemma key_keys (idx : Index) u v : v ∈ keys (idx !!! u) <-> key idx u v.
Proof.
  rewrite elem_of_keys. unfold key. rewrite lookup_total_alt.
  destruct (idx !! u) as [mu|]; simpl; [done|].
  rewrite lookup_empty. split; by intros [? ?].
Qed.

Lemma key_putLine u v l a (idx : Index) u' v' :
  key (putLine u v l a idx) u' v' <-> (u' = u /\ v' = v) \/ key idx u' v'.
Proof.
  unfold key, putLine.
  destruct (idx !! u) as [mu|] eqn:Hu; [destruct (mu !! v) as [c|] eqn:Hv|].
  all: rewrite lookup_insert; destruct (decide (u = u')) as [<-|];
    [|naive_solver].
  all: rewrite ?Hu; simpl;
    rewrite ?lookup_insert, ?lookup_singleton;
    destruct (decide (v = v')) as [<-|]; simpl; rewrite ?Hv;
    split; try naive_solver; by (intros; eexists).
Qed.

Lemma key_alter_line u v l (idx : Index) u' v' :
  key (alter (alter (delete l) v) u idx) u' v' <-> key idx u' v'.
Proof.
  unfold key. rewrite lookup_alter.
  destruct (decide (u = u')) as [<-|]; [|done].
  destruct (idx !! u) as [mu|]; simpl; [|done].
  rewrite lookup_alter. destruct (decide (v = v')) as [<-|]; [|done].
  destruct (mu !! v); simpl; split; intros [? ?]; by eexists.
Qed.

Lemma key_alter_cell v u (idx : Index) u' v' :
  key (alter (delete v) u idx) u' v'
  <-> key idx u' v' /\ ~ (u' = u /\ v' = v).
Proof.
  unfold key. rewrite lookup_alter.
  destruct (decide (u = u')) as [<-|]; [|naive_solver].
  destruct (idx !! u) as [mu|]; simpl; [|split; [by intros [? ?]|by intros [[? ?] _]]].
  rewrite lookup_delete. destruct (decide (v = v')) as [<-|]; simpl.
  - split; [by intros [? ?]|]. intros [_ []]. done.
  - naive_solver.
Qed.

Lemma key_dropAll id ks (idx : Index) u v :
  key (dropAll id ks idx) u v <-> key idx u v /\ ~ (u ∈ ks /\ v = id).
Proof.
  unfold dropAll. revert idx.
  induction ks as [|k ks IH]; intros idx; cbn [fold_left].
  - split; [|tauto]. intros Hk. split; [done|]. intros [[]%elem_of_nil _].
  - rewrite IH, key_alter_cell, elem_of_cons. naive_solver.
Qed.

Lemma key_delete id (idx : Index) u v :
  key (delete id idx) u v <-> key idx u v /\ u ≠ id.
Proof.
  unfold key. rewrite lookup_delete.
  destruct (decide (id = u)) as [<-|]; simpl; [|naive_solver].
  split; [by intros [? ?]|]. by intros [_ []].
Qed.

Lemma closed_new : closed NewGraph.
Proof. intros u v [? Hk]. simpl in Hk. by rewrite lookup_empty in Hk. Qed.

Lemma closed_frame g g' :
  from g' = from g -> to g' = to g -> nodes g' = nodes g ->
  mirror g /\ closed g -> mirror g' /\ closed g'.
Proof.
  intros Hf Ht Hn [Hm Hc]. split; [by eapply mirror_ext|].
  intros u v. rewrite Hf, Hn. apply Hc.
Qed.

Lemma closed_node n g :
  mirror g /\ closed g ->
  mirror (set_nodes (<[ID n := n]>) g) /\ closed (set_nodes (<[ID n := n]>) g).
Proof.
  intros [Hm Hc]. split; [by eapply mirror_ext|].
  intros u v Hk. destruct (Hc u v Hk) as [Hl Hs]. split; [done|].
  simpl. rewrite lookup_insert_is_Some. destruct (decide (ID n = v)); eauto.
Qed.

Lemma closed_line u v l a g :
  is_Some (nodes g !! u) -> is_Some (nodes g !! v) ->
  mirror g /\ closed g ->
  mirror (set_to (putLine v u l a) (set_from (putLine u v l a) g))
  /\ closed (set_to (putLine v u l a) (set_from (putLine u v l a) g)).
Proof.
  intros Hu Hv [Hm Hc]. split; [by apply mirror_setLine|].
  intros u' v'. simpl. rewrite key_putLine.
  intros [[-> ->]|Hk].
  - split; [|done]. exists l, a. rewrite line_putLine. by rewrite decide_True.
  - destruct (Hc u' v' Hk) as [(l' & x & Hl) Hs]. split; [|done].
    exists l'. rewrite line_putLine. case_decide; eauto.
Qed.

Lemma closed_removeLine u v l g :
  mirror g /\ closed g ->
  mirror (removeLine u v l g) /\ closed (removeLine u v l g).
Proof.
  intros [Hm Hc]. split; [by apply mirror_removeLine|].
  unfold removeLine. repeat case_decide; try done.
  intros u' v'. simpl. unfold dropLine. case_decide as Hsize.
  - rewrite key_alter_cell, key_alter_line. intros [Hk Hne].
    destruct (Hc u' v' Hk) as [(l' & x & Hl) Hs]. split; [|done].
    exists l', x. rewrite line_alter_delete_cell, line_alter_delete_line.
    rewrite decide_False by done. rewrite decide_False by naive_solver. done.
  - rewrite key_alter_line. intros Hk.
    destruct (Hc u' v' Hk) as [(l' & x & Hl) Hs]. split; [|done].
    destruct (decide (u' = u /\ v' = v)) as [[-> ->]|Hne].
    + apply map_size_non_empty_iff, map_choose in Hsize as (l2 & x2 & Hl2).
      by exists l2, x2.
    + exists l', x. rewrite line_alter_delete_line.
      by rewrite decide_False by naive_solver.
Qed.

Lemma closed_removeNode id g :
  mirror g /\ closed g ->
  mirror (removeNode id g) /\ closed (removeNode id g).
Proof.
  intros [Hm Hc]. split; [by apply mirror_removeNode|].
  unfold removeNode. case_decide; [done|].
  intros u v. simpl. rewrite key_dropAll, key_delete.
  intros [[Hk Hu] Hnot].
  destruct (Hc u v Hk) as [(l & x & Hl) Hs].
  assert (v ≠ id) as Hv.
  { intros ->. apply Hnot. split; [|done].
    apply (line_keys _ _ _ l x). rewrite line_dropAll.
    rewrite decide_False by naive_solver. by rewrite <- Hm. }
  split.
  - exists l, x. rewrite line_dropAll, line_delete.
    rewrite decide_False by naive_solver. by rewrite decide_False.
  - by rewrite lookup_delete_ne.
Qed.

(** After every history the forward index is closed. *)
Lemma closed_history h ops : closed (graph (history h ops)).
Proof.
  apply (history_inv (onGraph (fun g => mirror g /\ closed g))).
  - apply inv_prims_call.
    + apply closed_frame.
    + apply closed_node.
    + apply closed_line.
    + apply closed_removeLine.
    + apply closed_removeNode.
  - split; [apply mirror_new|apply closed_new].
Qed.

End Closed.

(** ** The depth-first walk *)

Section DepthFirst.
Context `{Runtime}.
Variable G : TraverseGraph.
Variable Traverse : list addr -> bool.
Variable until : Term -> Outcome bool.

(** Every node that [From] yields is one of the nodes [R], on which the
    callback returns, and its ID is in [U]. *)
Variable R : Term -> Prop.
Variable U : gset Z.
Hypothesis yields : forall u n, Some n ∈ tFrom G u -> R n /\ ID n ∈ U.
Hypothesis no_nil : forall u, None ∉ tFrom G u.
Hypothesis until_ok : forall t, R t -> exists b, until t = Ok b.

Lemma pushAll_spec tid ns visited stack :
  (forall n, Some n ∈ ns -> R n /\ ID n ∈ U) -> None ∉ ns ->
  exists new,
    pushAll G Traverse tid ns visited stack
    = Ok (visited ∪ list_to_set (ID <$> new), new ++ stack)
    /\ NoDup (ID <$> new)
    /\ (forall n, n ∈ new -> R n /\ ID n ∈ U /\ ID n ∉ visited).
Proof.
  revert visited stack.
  induction ns as [|[n|] ns IH]; intros visited stack Hns Hnil.
  - exists []. simpl. split; [f_equal; f_equal; set_solver|].
    split; [constructor|]. by intros n []%elem_of_nil.
  - assert (forall m, Some m ∈ ns -> R m /\ ID m ∈ U) as Hns'.
    { intros m Hm. apply Hns. by right. }
    assert (None ∉ ns) as Hnil'.
    { intros Hm. apply Hnil. by right. }
    cbn [pushAll].
    destruct (negb (Traverse (tEdge G tid (ID n)))); [by apply IH|].
    destruct (decide (ID n ∈ visited)) as [Hv|Hv]; [by apply IH|].
    destruct (IH (visited ∪ {[ID n]}) (n :: stack) Hns' Hnil')
      as (new & -> & Hnd & Hin).
    exists (new ++ [n]). split; [|split].
    + rewrite <- app_assoc. cbn [app]. f_equal. f_equal.
      rewrite fmap_app, list_to_set_app_L. set_solver.
    + rewrite fmap_app. apply NoDup_app. split; [done|]. split.
      * intros x (m & -> & Hm)%list_elem_of_fmap Hx.
        apply list_elem_of_singleton in Hx. apply Hin in Hm. set_solver.
      * apply NoDup_singleton.
    + intros m [Hm|Hm]%elem_of_app.
      * destruct (Hin m Hm) as (? & ? & ?). set_solver.
      * apply list_elem_of_singleton in Hm as ->.
        destruct (Hns n) as [? ?]; [by left|]. done.
  - exfalso. apply Hnil. by left.
Qed.

(** The walk returns; a node that it returns is one of the nodes [R] at
    which the callback says yes. *)
Lemma dfsLoop_spec (W : gset Z) fuel : forall stack visited,
  (forall t, t ∈ stack -> R t) -> visited ⊆ W -> U ⊆ W ->
  (length stack + (size W - size visited) <= fuel)%nat ->
  exists o,
    dfsLoop G Traverse fuel until stack visited = Ok o
    /\ forall f, o = Some f -> R f /\ until f = Ok true.
Proof.
  induction fuel as [|fuel IH]; intros stack visited Hst Hsub HU Hfuel.
  all: destruct stack as [|t stack]; [by exists None|].
  - simpl in Hfuel. lia.
  - cbn [dfsLoop]. destruct (until_ok t) as [b Hb]; [apply Hst; by left|].
    rewrite Hb. destruct b.
    { exists (Some t). split; [done|]. intros f [= <-].
      split; [apply Hst; by left|done]. }
    destruct (pushAll_spec (ID t) (tFrom G (ID t)) visited stack)
      as (new & -> & Hnd & Hnew); [by apply yields|by apply no_nil|].
    apply IH.
    + intros x [Hx|Hx]%elem_of_app; [by apply Hnew|]. apply Hst. by right.
    + intros v [Hv|(n & -> & Hn)%elem_of_list_to_set%list_elem_of_fmap]
        %elem_of_union; [by apply Hsub|].
      apply HU. by apply Hnew.
    + done.
    + assert (size (visited ∪ list_to_set (ID <$> new))
              = (size visited + length new)%nat) as Hsize.
      { rewrite size_union.
        - by rewrite size_list_to_set, length_fmap.
        - intros v Hv (n & -> & Hn)%elem_of_list_to_set%list_elem_of_fmap.
          apply Hnew in Hn. tauto. }
      assert (visited ∪ list_to_set (ID <$> new) ⊆ W) as Hsub'.
      { intros v [Hv|(n & -> & Hn)%elem_of_list_to_set%list_elem_of_fmap]
          %elem_of_union; [by apply Hsub|].
        apply HU. by apply Hnew. }
      apply subseteq_size in Hsub'.
      rewrite length_app. simpl in Hfuel. lia.
Qed.

End DepthFirst.

(** ** [Roots] with and without a forced search *)

Section Roots.
Context `{Runtime}.
Variable w : World.
Variable nm : Names.
Hypothesis Hclosed : closed (graph w).

Local Abbreviation g := (graph w).
Local Abbreviation isNode := (fun n : Term => exists k, nodes g !! k = Some n).
Local Abbreviation nodeIDs :=
  (list_to_set (ID <$> (map_to_list (nodes g)).*2) : gset Z).

Lemma size_list_to_set_le (l : list Z) :
  (size (list_to_set l : gset Z) <= length l)%nat.
Proof.
  induction l as [|x l IH]; cbn [length].
  { by rewrite list_to_set_nil, size_empty. }
  rewrite list_to_set_cons, size_union_alt, size_singleton.
  assert (size (list_to_set l ∖ {[x]} : gset Z) <= size (list_to_set l : gset Z))%nat.
  { apply subseteq_size. set_solver. }
  lia.
Qed.

Lemma size_nodeIDs : (size nodeIDs <= size (nodes g))%nat.
Proof.
  etrans; [apply size_list_to_set_le|].
  by rewrite !length_fmap, length_map_to_list.
Qed.

Lemma isNode_ID n : isNode n -> ID n ∈ nodeIDs.
Proof.
  intros [k Hk]. apply elem_of_list_to_set, list_elem_of_fmap_2.
  apply list_elem_of_fmap. exists (k, n). split; [done|].
  by apply elem_of_map_to_list.
Qed.

Lemma From_yields u n : Some n ∈ From g u -> isNode n /\ ID n ∈ nodeIDs.
Proof.
  unfold From. intros (k & Hk & _)%list_elem_of_fmap.
  assert (isNode n) by (by exists k). split; [done|]. by apply isNode_ID.
Qed.

Lemma From_no_nil u : None ∉ From g u.
Proof.
  unfold From. intros (k & Hk & Hin)%list_elem_of_fmap.
  apply key_keys, Hclosed in Hin as [_ [n Hn]]. congruence.
Qed.

Lemma step_ok fn edge ns r :
  None ∉ ns -> exists r', step (heap w) fn edge ns r = Ok r'.
Proof.
  revert r. induction ns as [|[n|] ns IH]; intros r Hnil; simpl.
  - by exists r.
  - assert (None ∉ ns) as Hnil' by (intros ?; apply Hnil; by right).
    destruct (ConnectedByAny _ _ _); by apply IH.
  - exfalso. apply Hnil. by left.
Qed.

Lemma outTerms_ok fn t : exists r, outTerms w fn [t] [] = Ok r.
Proof.
  simpl. destruct (step_ok fn (fun v => Edge g (ID t) v) (From g (ID t)) [])
    as [r ->]; [apply From_no_nil|]. by exists r.
Qed.

(** The callback of the search returns. *)
Lemma isFinal_ok t : exists b, isFinal w nm t = Ok b.
Proof.
  unfold isFinal. destruct (negb _); [by eexists|].
  destruct (outTerms_ok (fun s =>
    bool_decide (Value (Predicate s) = deprecated nm)
    && bool_decide (Value (Object s) = w3True nm)) t) as [dep ->].
  case_decide; [by eexists|].
  destruct (outTerms_ok (isaTo nm) t) as [more ->]. by eexists.
Qed.

(** The standard roots that [TermFor] finds. *)
Lemma knownRoots_spec rs : forall K0,
  Forall (fun r => present w r = true) rs ->
  exists K,
    knownRoots w rs K0 = Ok K
    /\ forall t, t ∈ K <->
         t ∈ K0 \/ exists r, r ∈ rs /\ TermFor w r = Ok (t, true).
Proof.
  induction rs as [|r rs IH]; intros K0 Hall.
  - exists K0. split; [done|]. intros t. split; [by left|].
    intros [?|(r & []%elem_of_nil & _)]. done.
  - apply Forall_cons in Hall as [Hr Hall]. cbn [knownRoots].
    unfold present in Hr.
    destruct (TermFor w r) as [[t0 [|]]|] eqn:Ht; try done.
    destruct (IH (K0 ∪ {[t0]}) Hall) as (K & -> & HK).
    exists K. split; [done|]. intros t. rewrite HK, elem_of_union,
      elem_of_singleton. split.
    + intros [[?| ->]|(r' & Hr' & Ht')]; [by left|right|right].
      * exists r. split; [by left|done].
      * exists r'. split; [by right|done].
    + intros [?|(r' & [->|Hr']%elem_of_cons & Ht')].
      * left. by left.
      * left. right. congruence.
      * right. by exists r'.
Qed.

(** The search adds nothing to a set that holds every node at which a
    walk can end. *)
Lemma searchRoots_spec ns : forall K : gset Term,
  (forall n, n ∈ ns -> isNode n) ->
  (forall n, isNode n -> isFinal w nm n = Ok true -> n ∈ K) ->
  searchRoots w nm ns K = Ok K.
Proof.
  induction ns as [|t ns IH]; intros K Hns HK; [done|].
  cbn [searchRoots]. unfold DepthFirstWalk.
  assert (isNode t) as Ht by (apply Hns; by left).
  destruct (dfsLoop_spec (forward g)
              (fun e => ConnectedByAny (heap w) e (isaTo nm))
              (isFinal w nm) isNode nodeIDs From_yields From_no_nil
              (fun t _ => isFinal_ok t) nodeIDs (tBound (forward g))
              [t] {[ ID t ]}) as (o & -> & Ho).
  - by intros x ->%list_elem_of_singleton.
  - apply singleton_subseteq_l. by apply isNode_ID.
  - done.
  - rewrite size_singleton. pose proof size_nodeIDs. simpl. lia.
  - destruct o as [f|].
    + destruct (Ho f eq_refl) as [Hf Hfin].
      replace (K ∪ {[f]}) with K.
      * apply IH; [|done]. intros n Hn. apply Hns. by right.
      * apply set_eq. intros x. rewrite elem_of_union, elem_of_singleton.
        split; [by left|]. intros [?| ->]; [done|]. by apply HK.
    + apply IH; [|done]. intros n Hn. apply Hns. by right.
Qed.

Lemma Roots_same :
  names g = Some nm ->
  Forall (fun r => present w r = true) (standardRoots nm) ->
  ends_at_roots w nm ->
  exists l1 l2,
    Roots w false = Ok l1 /\ Roots w true = Ok l2
    /\ forall t, t ∈ l1 <-> t ∈ l2.
Proof.
  intros Hnm Hpresent Hends. unfold Roots. rewrite Hnm.
  destruct (knownRoots_spec (standardRoots nm) ∅ Hpresent) as (K & -> & HK).
  assert (size K ≠ 0%nat) as Hsize.
  { assert (exists r, r ∈ standardRoots nm) as [r Hr].
    { unfold names in Hnm. repeat case_decide; try done;
        injection Hnm as <-; eexists; by left. }
    rewrite Forall_forall in Hpresent. specialize (Hpresent r Hr).
    unfold present in Hpresent.
    destruct (TermFor w r) as [[t [|]]|] eqn:Ht; try done.
    intros Hemp%size_empty_iff.
    assert (t ∈ K) as Hin by (apply HK; right; by exists r).
    apply Hemp in Hin. by apply elem_of_empty in Hin. }
  rewrite (bool_decide_eq_false_2 _ Hsize). cbn [orb].
  rewrite searchRoots_spec.
  - eexists _, _. split; [done|]. split; [done|]. done.
  - intros n. rewrite (order_perm _ _).
    intros (kn & -> & Hk)%list_elem_of_fmap. destruct kn as [k n'].
    apply elem_of_map_to_list in Hk. by exists k.
  - intros n [k Hk] Hfin. apply HK. right.
    pose proof (Hends k n Hk Hfin) as Hex.
    apply Exists_exists in Hex as (r & Hr & Ht).
    exists r. split; [first [done|by apply list_elem_of_In]|done].
Qed.

End Roots.

(** C8. In a graph built by calls, with an established namespace mode,
    in which [TermFor] finds the three standard roots and in which every
    node at which the search can end (a GO term that is not deprecated
    and has no sub-class statement to a GO term) is one of them,
    [Roots(false)] and [Roots(true)] return, and they return the same
    terms. *)
Theorem Roots_force `{Runtime} h ops nm :
  let w := history h ops in
  names (graph w) = Some nm ->
  Forall (fun r => present w r = true) (standardRoots nm) ->
  ends_at_roots w nm ->
  exists l1 l2,
    Roots w false = Ok l1 /\ Roots w true = Ok l2
    /\ forall t, t ∈ l1 <-> t ∈ l2.
Proof. intros w. apply Roots_same, closed_history. Qed.

Lemma Roots_force_witness :
  let w := @history plain Ex5.ontology Ex5.calls in
  names (graph w) = Some localNames
  /\ Forall (fun r => @present plain w r = true) (standardRoots localNames)
  /\ @ends_at_roots plain w localNames
  /\ exists l1 l2,
      @Roots plain w false = Ok l1 /\ @Roots plain w true = Ok l2
      /\ forall t, t ∈ l1 <-> t ∈ l2.
Proof.
  cbv zeta.
  assert (names (graph (@history plain Ex5.ontology Ex5.calls))
          = Some localNames) as H1 by (by vm_compute).
  assert (Forall (fun r => @present plain
            (@history plain Ex5.ontology Ex5.calls) r = true)
            (standardRoots localNames)) as H2.
  { apply (bool_decide_unpack _). by vm_compute. }
  assert (@ends_at_roots plain (@history plain Ex5.ontology Ex5.calls)
            localNames) as H3.
  { apply (bool_decide_unpack _). by vm_compute. }
  split; [exact H1|]. split; [exact H2|]. split; [exact H3|].
  exact (@Roots_force plain Ex5.ontology Ex5.calls localNames H1 H2 H3).
Defined.


(** * Further properties of the store *)

(** ** Cells are never empty, entries belong to nodes *)

Section Kept.
Context `{Runtime}.

Lemma key_alt (idx : Index) u v : key idx u v <-> is_Some ((idx !!! u) !! v).
Proof.
  unfold key. rewrite lookup_total_alt.
  destruct (idx !! u) as [mu|]; simpl; [done|].
  rewrite lookup_empty. split; by intros [? ?].
Qed.

Lemma key_row (idx : Index) u v : key idx u v -> is_Some (idx !! u).
Proof. unfold key. destruct (idx !! u); [eauto|by intros [? ?]]. Qed.

Lemma line_key (idx : Index) u v l x : line idx u v l = Some x -> key idx u v.
Proof.
  rewrite line_alt. unfold key.
  destruct (idx !! u) as [mu|]; simpl; [|done].
  destruct (mu !! v); simpl; [eauto|done].
Qed.

Lemma full_empty : full ∅.
Proof. intros u v [? Hk]. by rewrite lookup_empty in Hk. Qed.

Lemma full_putLine u v l a (idx : Index) : full idx -> full (putLine u v l a idx).
Proof.
  intros Hf u' v'. rewrite key_putLine. intros [[-> ->]|Hk].
  - exists l, a. rewrite line_putLine. by rewrite decide_True.
  - destruct (Hf u' v' Hk) as (l' & x & Hl).
    destruct (decide (u' = u /\ v' = v /\ l' = l)) as [(-> & -> & ->)|Hne].
    + exists l, a. by rewrite line_putLine, decide_True.
    + exists l', x. by rewrite line_putLine, decide_False.
Qed.

Lemma full_alter_cell v u (idx : Index) : full idx -> full (alter (delete v) u idx).
Proof.
  intros Hf u' v'. rewrite key_alter_cell. intros [Hk Hne].
  destruct (Hf u' v' Hk) as (l & x & Hl). exists l, x.
  by rewrite line_alter_delete_cell, decide_False.
Qed.

Lemma full_dropLine u v l (idx : Index) : full idx -> full (dropLine u v l idx).
Proof.
  intros Hf. unfold dropLine. case_decide as Hsize.
  - intros u' v'. rewrite key_alter_cell, key_alter_line. intros [Hk Hne].
    destruct (Hf u' v' Hk) as (l' & x & Hl). exists l', x.
    rewrite line_alter_delete_cell, line_alter_delete_line.
    rewrite decide_False by done. by rewrite decide_False by naive_solver.
  - intros u' v'. rewrite key_alter_line. intros Hk.
    destruct (Hf u' v' Hk) as (l' & x & Hl).
    destruct (decide (u' = u /\ v' = v)) as [[-> ->]|Hne].
    + apply map_size_non_empty_iff, map_choose in Hsize as (l2 & x2 & Hl2).
      by exists l2, x2.
    + exists l', x. rewrite line_alter_delete_line.
      by rewrite decide_False by naive_solver.
Qed.

Lemma full_dropAll id ks (idx : Index) : full idx -> full (dropAll id ks idx).
Proof.
  unfold dropAll. revert idx.
  induction ks as [|k ks IH]; intros idx Hf; cbn [fold_left]; [done|].
  by apply IH, full_alter_cell.
Qed.

Lemma full_delete id (idx : Index) : full idx -> full (delete id idx).
Proof.
  intros Hf u v. rewrite key_delete. intros [Hk Hne].
  destruct (Hf u v Hk) as (l & x & Hl). exists l, x.
  by rewrite line_delete, decide_False.
Qed.

Lemma row_putLine u v l a (idx : Index) u' :
  is_Some (putLine u v l a idx !! u') <-> u' = u \/ is_Some (idx !! u').
Proof.
  unfold putLine.
  destruct (idx !! u) as [mu|] eqn:Hu; [destruct (mu !! v)|];
    rewrite lookup_insert_is_Some; destruct (decide (u = u')) as [<-|];
    rewrite ?Hu; naive_solver.
Qed.

Lemma row_alter {V} (f : V -> V) u (m : gmap Z V) u' :
  is_Some (alter f u m !! u') <-> is_Some (m !! u').
Proof.
  rewrite lookup_alter. destruct (decide (u = u')) as [<-|]; [|done].
  by rewrite fmap_is_Some.
Qed.

Lemma row_dropLine u v l (idx : Index) u' :
  is_Some (dropLine u v l idx !! u') <-> is_Some (idx !! u').
Proof. unfold dropLine. case_decide; by rewrite ?row_alter. Qed.

Lemma row_dropAll id ks (idx : Index) u :
  is_Some (dropAll id ks idx !! u) <-> is_Some (idx !! u).
Proof.
  unfold dropAll. revert idx.
  induction ks as [|k ks IH]; intros idx; cbn [fold_left]; [done|].
  by rewrite IH, row_alter.
Qed.

Lemma kept_new : kept NewGraph.
Proof.
  split; [apply mirror_new|]. split; [apply closed_new|].
  split; [apply full_empty|]. split; [split|].
  - intros u. simpl. rewrite lookup_empty. by intros [? ?].
  - intros u. simpl. rewrite lookup_empty. by intros [? ?].
  - intros k n. simpl. by rewrite lookup_empty.
Qed.

Lemma kept_frame g g' :
  from g' = from g -> to g' = to g -> nodes g' = nodes g -> kept g -> kept g'.
Proof.
  intros Hf Ht Hn (Hm & Hc & Hfull & [Ha1 Ha2] & Hk).
  destruct (closed_frame g g' Hf Ht Hn (conj Hm Hc)) as [Hm' Hc'].
  split; [done|]. split; [done|]. unfold anchored, keyed.
  rewrite Hf, Ht, Hn. done.
Qed.

Lemma kept_node n g : kept g -> kept (set_nodes (<[ID n := n]>) g).
Proof.
  intros (Hm & Hc & Hfull & [Ha1 Ha2] & Hk).
  destruct (closed_node n g (conj Hm Hc)) as [Hm' Hc'].
  split; [done|]. split; [done|]. split; [done|]. split; [split|].
  - intros u Hu. simpl. rewrite lookup_insert_is_Some.
    destruct (decide (ID n = u)); [by left|right]. split; [done|].
    by apply Ha1.
  - intros u Hu. simpl. rewrite lookup_insert_is_Some.
    destruct (decide (ID n = u)); [by left|right]. split; [done|].
    by apply Ha2.
  - intros k m. simpl. rewrite lookup_insert.
    case_decide as Hid; [subst k; by intros [= <-]|apply Hk].
Qed.

Lemma kept_line u v l a g :
  is_Some (nodes g !! u) -> is_Some (nodes g !! v) -> kept g ->
  kept (set_to (putLine v u l a) (set_from (putLine u v l a) g)).
Proof.
  intros Hu Hv (Hm & Hc & Hfull & [Ha1 Ha2] & Hk).
  destruct (closed_line u v l a g Hu Hv (conj Hm Hc)) as [Hm' Hc'].
  split; [done|]. split; [done|].
  split; [by apply full_putLine|]. split; [split|done].
  - intros u'. simpl. rewrite row_putLine. intros [->|?]; [done|by apply Ha1].
  - intros v'. simpl. rewrite row_putLine. intros [->|?]; [done|by apply Ha2].
Qed.

Lemma kept_removeLine u v l g : kept g -> kept (removeLine u v l g).
Proof.
  intros (Hm & Hc & Hfull & [Ha1 Ha2] & Hk).
  destruct (closed_removeLine u v l g (conj Hm Hc)) as [Hm' Hc'].
  split; [done|]. split; [done|].
  unfold removeLine. repeat case_decide; try done. simpl.
  split; [by apply full_dropLine|]. split; [split|done].
  - intros u'. simpl. rewrite row_dropLine. apply Ha1.
  - intros v'. simpl. rewrite row_dropLine. apply Ha2.
Qed.

Lemma kept_removeNode id g : kept g -> kept (removeNode id g).
Proof.
  intros (Hm & Hc & Hfull & [Ha1 Ha2] & Hk).
  destruct (closed_removeNode id g (conj Hm Hc)) as [Hm' Hc'].
  split; [done|]. split; [done|].
  unfold removeNode. case_decide; [done|]. simpl.
  split; [by apply full_delete, full_dropAll|]. split; [split|].
  - intros u. simpl. rewrite row_dropAll, !lookup_delete.
    destruct (decide (id = u)); [by intros [? ?]|apply Ha1].
  - intros v. simpl. rewrite !lookup_delete.
    destruct (decide (id = v)); [by intros [? ?]|].
    rewrite row_dropAll. apply Ha2.
  - intros k n. simpl. rewrite lookup_delete. case_decide; [done|apply Hk].
Qed.

(** Every call keeps the indices as described. *)
Lemma inv_kept_call op : inv (onGraph kept) (call op).
Proof.
  apply inv_prims_call.
  - apply kept_frame.
  - apply kept_node.
  - apply kept_line.
  - apply kept_removeLine.
  - apply kept_removeNode.
Qed.

Lemma kept_history h ops : kept (graph (history h ops)).
Proof.
  apply (history_inv (onGraph kept)); [apply inv_kept_call|apply kept_new].
Qed.

(** In a kept graph an entry of one index has its mirror entry. *)
Lemma kept_key g u v : kept g -> key (from g) u v <-> key (to g) v u.
Proof.
  intros (Hm & Hc & Hfull & _). split.
  - intros Hk. destruct (Hc u v Hk) as [(l & x & Hl) _].
    rewrite Hm in Hl. by eapply line_key.
  - intros Hk. destruct (Hfull v u Hk) as (l & x & Hl).
    rewrite <- Hm in Hl. by eapply line_key.
Qed.

Lemma kept_ends g u v :
  kept g -> key (from g) u v ->
  is_Some (nodes g !! u) /\ is_Some (nodes g !! v).
Proof.
  intros (Hm & Hc & Hfull & [Ha1 Ha2] & Hk) Hkey. split.
  - by eapply Ha1, key_row.
  - by apply (Hc u v).
Qed.

Lemma elem_of_From g u n :
  Some n ∈ From g u <-> exists k, key (from g) u k /\ nodes g !! k = Some n.
Proof.
  unfold From. rewrite list_elem_of_fmap. setoid_rewrite key_keys. naive_solver.
Qed.

Lemma elem_of_To g v n :
  Some n ∈ To g v <-> exists k, key (to g) v k /\ nodes g !! k = Some n.
Proof.
  unfold To. rewrite list_elem_of_fmap. setoid_rewrite key_keys. naive_solver.
Qed.

Lemma kept_From_no_nil g u : kept g -> None ∉ From g u.
Proof.
  intros Hk. unfold From. rewrite list_elem_of_fmap. intros (k & Hn & Hin).
  apply key_keys in Hin. destruct (kept_ends g u k Hk Hin) as [_ [? Hs]].
  congruence.
Qed.

Lemma kept_To_no_nil g v : kept g -> None ∉ To g v.
Proof.
  intros Hk. unfold To. rewrite list_elem_of_fmap. intros (k & Hn & Hin).
  apply key_keys in Hin. apply kept_key in Hin; [|done].
  destruct (kept_ends g k v Hk Hin) as [[? Hs] _]. congruence.
Qed.

End Kept.

Section KeptQueries.
Context `{Runtime}.

(** [HasEdgeFromTo] agrees with [Lines]: after every sequence of calls,
    an edge from [u] to [v] is reported exactly when [Lines] yields a
    line for it; no cell of the index is left empty by a removal. *)
Theorem HasEdgeFromTo_Lines h ops u v :
  let g := graph (history h ops) in
  HasEdgeFromTo g u v = true <-> exists a, a ∈ Lines g u v.
Proof.
  intros g. pose proof (kept_history h ops) as (Hm & Hc & _).
  unfold HasEdgeFromTo. rewrite bool_decide_eq_true, <- key_alt. split.
  - intros Hk. destruct (Hc u v Hk) as [(l & x & Hl) _].
    exists x. apply elem_of_Lines. eauto.
  - intros [a (l & Hl)%elem_of_Lines]. by eapply line_key.
Qed.

(** After every sequence of calls, the two ends of an edge are nodes of
    the graph, each stored under its own ID. *)
Theorem edge_ends_are_nodes h ops u v :
  let g := graph (history h ops) in
  HasEdgeBetween g u v = true ->
  exists n m, Node g u = Some n /\ ID n = u /\ Node g v = Some m /\ ID m = v.
Proof.
  intros g. pose proof (kept_history h ops) as Hk.
  assert (forall x y, key (from g) x y ->
    exists n m, Node g x = Some n /\ ID n = x /\ Node g y = Some m /\ ID m = y)
    as Hends.
  { intros x y Hxy. destruct (kept_ends g x y Hk Hxy) as [[n Hn] [m Hm]].
    destruct Hk as (_ & _ & _ & _ & Hid).
    exists n, m. repeat split; try done; by apply Hid. }
  unfold HasEdgeBetween. case_bool_decide as Huv.
  - intros _. apply Hends. by apply key_alt.
  - rewrite bool_decide_eq_true, <- key_alt. intros Hvu.
    destruct (Hends v u Hvu) as (n & m & ? & ? & ? & ?). by exists m, n.
Qed.

(** After every sequence of calls, [From] and [To] are symmetric: [From(u)]
    yields the node with ID [v] exactly when [To(v)] yields the node with
    ID [u]. *)
Theorem From_To_symmetry h ops u v :
  let g := graph (history h ops) in
  (exists n, Some n ∈ From g u /\ ID n = v)
  <-> (exists m, Some m ∈ To g v /\ ID m = u).
Proof.
  intros g. pose proof (kept_history h ops) as Hk.
  pose proof Hk as (_ & _ & _ & _ & Hid).
  assert ((exists n, Some n ∈ From g u /\ ID n = v) <-> key (from g) u v) as ->.
  { split.
    - intros (n & (k & Hkey & Hn)%elem_of_From & <-).
      by rewrite (Hid k n Hn).
    - intros Hkey. destruct (kept_ends g u v Hk Hkey) as [_ [n Hn]].
      exists n. split; [|by apply Hid]. apply elem_of_From. eauto. }
  assert ((exists m, Some m ∈ To g v /\ ID m = u) <-> key (to g) v u) as ->.
  { split.
    - intros (n & (k & Hkey & Hn)%elem_of_To & <-).
      by rewrite (Hid k n Hn).
    - intros Hkey. pose proof Hkey as Hkey'. apply kept_key in Hkey'; [|done].
      destruct (kept_ends g u v Hk Hkey') as [[n Hn] _].
      exists n. split; [|by apply Hid]. apply elem_of_To. eauto. }
  by apply kept_key.
Qed.

(** After every sequence of calls, the iterators of [From] and [To] never
    yield nil, and what they yield are the terms of the node table. *)
Theorem neighbours_are_nodes h ops u :
  let g := graph (history h ops) in
  (None ∉ From g u) /\ (None ∉ To g u)
  /\ forall n, Some n ∈ From g u \/ Some n ∈ To g u -> Node g (ID n) = Some n.
Proof.
  intros g. pose proof (kept_history h ops) as Hk.
  split; [by apply kept_From_no_nil|]. split; [by apply kept_To_no_nil|].
  destruct Hk as (_ & _ & _ & _ & Hid).
  intros n [(k & _ & Hn)%elem_of_From|(k & _ & Hn)%elem_of_To];
    unfold Node; by rewrite (Hid k n Hn).
Qed.

End KeptQueries.

Lemma edge_ends_are_nodes_witness :
  let g := graph (@history plain Ex4.chain [Add 1%nat; Add 2%nat]) in
  HasEdgeBetween g 2 0 = true
  /\ exists n m, Node g 2 = Some n /\ ID n = 2 /\ Node g 0 = Some m /\ ID m = 0.
Proof.
  cbv zeta. split; [by vm_compute|].
  apply (@edge_ends_are_nodes plain Ex4.chain [Add 1%nat; Add 2%nat] 2 0).
  by vm_compute.
Defined.


(** ** What a call of [AddStatement] that returns has done *)

Section Added.
Context `{Runtime}.

Lemma setUID_same f s : setUID f (UID (field f s)) s = s.
Proof. by destruct s as [[] [] []], f. Qed.

Lemma addTerm_Ok a f w w' :
  addTerm a f w = (Ok tt, w') ->
  let s := heap w !!! a in
  exists id,
    (UID (field f s) ≠ 0 -> id = UID (field f s) /\ heap w' = heap w)
    /\ heap w' !!! a = setUID f id s
    /\ (forall b, b ≠ a -> heap w' !!! b = heap w !!! b)
    /\ termIDs (graph w') = <[Value (field f s) := id]> (termIDs (graph w))
    /\ nodes (graph w') = nodes (graph w) /\ from (graph w') = from (graph w)
    /\ to (graph w') = to (graph w) /\ pred (graph w') = pred (graph w)
    /\ namespace (graph w') = namespace (graph w)
    /\ (forall id0, termIDs (graph w) !! Value (field f s) = Some id0 -> id = id0).
Proof.
  intros Hadd s. revert Hadd. unfold addTerm. unfold_M. cbn beta iota. fold s.
  destruct (decide (UID (field f s) = 0)) as [Hz|Hnz].
  - destruct (termIDs (graph w) !! Value (field f s)) as [id|] eqn:Hid.
    + intros [= <-]. exists id. cbn [heap graph].
      split; [done|]. split; [by rewrite lookup_total_insert_eq|].
      split; [intros b Hb; by rewrite lookup_total_insert_ne|].
      rewrite insert_id by done. repeat split; try done. by intros ? [= ->].
    + destruct (uid.NewID (ids (graph w))) as [id|e]; [|done].
      intros [= <-]. exists id. cbn [heap graph].
      split; [done|]. split; [by rewrite lookup_total_insert_eq|].
      split; [intros b Hb; by rewrite lookup_total_insert_ne|]. done.
  - destruct (termIDs (graph w) !! Value (field f s)) as [id|] eqn:Hid.
    + destruct (decide (id ≠ UID (field f s))) as [|Heq]; [done|].
      apply dec_stable in Heq. subst id.
      intros [= <-]. exists (UID (field f s)).
      split; [done|]. split; [by rewrite setUID_same|].
      split; [done|]. rewrite insert_id by done.
      repeat split; try done. by intros ? [= ->].
    + intros [= <-]. exists (UID (field f s)). cbn [heap graph].
      split; [done|]. split; [by rewrite setUID_same|]. done.
Qed.

Lemma nodes_withNode_eq n g : nodes (withNode n g) = <[ID n := n]> (nodes g).
Proof. unfold withNode. by case_decide. Qed.

Lemma to_withNode n g : to (withNode n g) = to g.
Proof. unfold withNode. by case_decide. Qed.

Lemma pred_withNode n g : pred (withNode n g) = pred g.
Proof. unfold withNode. by case_decide. Qed.

Lemma termIDs_withNode n g : termIDs (withNode n g) = termIDs g.
Proof. unfold withNode. by case_decide. Qed.

Lemma namespace_withNode n g : namespace (withNode n g) = namespace g.
Proof. unfold withNode. by case_decide. Qed.

(** The part of [AddStatement] after the checks. *)
Lemma intern_Ok a w w' :
  (addTerm a FSubject ≫= fun _ => addTerm a FPredicate ≫= fun _ =>
   addTerm a FObject ≫= fun _ => setLine a) w = (Ok tt, w') ->
  let s := heap w !!! a in
  exists i j k,
    let s' := withUIDs s i j k in
    heap w' !!! a = s'
    /\ (forall b, b ≠ a -> heap w' !!! b = heap w !!! b)
    /\ (UID (Subject s) ≠ 0 -> i = UID (Subject s))
    /\ (UID (Predicate s) ≠ 0 -> j = UID (Predicate s))
    /\ (UID (Object s) ≠ 0 -> k = UID (Object s))
    /\ (UID (Subject s) ≠ 0 -> UID (Predicate s) ≠ 0 -> UID (Object s) ≠ 0 ->
        heap w' = heap w)
    /\ termIDs (graph w')
       = <[Value (Object s) := k]> (<[Value (Predicate s) := j]>
           (<[Value (Subject s) := i]> (termIDs (graph w))))
    /\ nodes (graph w')
       = <[k := Object s']> (<[i := Subject s']> (nodes (graph w)))
    /\ from (graph w') = putLine i k j a (from (graph w))
    /\ to (graph w') = putLine k i j a (to (graph w))
    /\ pred (graph w') = pred (graph w)
    /\ namespace (graph w') = namespace (graph w)
    /\ termIDs (graph w') !! Value (Subject s) = Some i
    /\ termIDs (graph w') !! Value (Predicate s) = Some j
    /\ termIDs (graph w') !! Value (Object s) = Some k.
Proof.
  intros Ht s.
  apply bind_Ok in Ht as ([] & w1 & H1 & Ht).
  apply addTerm_Ok in H1
    as (i & Hi & Ha1 & Hb1 & Ht1 & Hn1 & Hf1 & Hto1 & Hp1 & Hs1 & _).
  apply bind_Ok in Ht as ([] & w2 & H2 & Ht).
  apply addTerm_Ok in H2
    as (j & Hj & Ha2 & Hb2 & Ht2 & Hn2 & Hf2 & Hto2 & Hp2 & Hs2 & Hu2).
  apply bind_Ok in Ht as ([] & w3 & H3 & Ht).
  apply addTerm_Ok in H3
    as (k & Hk & Ha3 & Hb3 & Ht3 & Hn3 & Hf3 & Hto3 & Hp3 & Hs3 & Hu3).
  rewrite setLine_ok in Ht. injection Ht as <-. fold s in Hi, Ha1.
  rewrite Ha1 in Hj, Ha2, Ht2, Hu2. rewrite Ha2 in Hk, Ha3, Ht3, Hu3.
  cbn [field setUID Subject Predicate Object Value UID] in *.
  assert (heap w3 !!! a = withUIDs s i j k) as Hs'.
  { rewrite Ha3. by destruct s as [[] [] []]. }
  exists i, j, k. cbn [heap graph]. rewrite Hs'.
  cbn [withUIDs Subject Predicate Object ID UID].
  rewrite ?nodes_withNode_eq, ?from_withNode, ?to_withNode, ?pred_withNode,
    ?termIDs_withNode, ?namespace_withNode.
  cbn [nodes from to pred termIDs namespace set_ids set_to set_from ID UID].
  rewrite ?nodes_withNode_eq, ?from_withNode, ?to_withNode, ?pred_withNode,
    ?termIDs_withNode, ?namespace_withNode.
  cbn [ID UID].
  split; [done|].
  split. { intros b Hb. by rewrite Hb3, Hb2, Hb1. }
  split; [by intros [? _]%Hi|]. split; [by intros [? _]%Hj|].
  split; [by intros [? _]%Hk|].
  split. { intros [_ E1]%Hi [_ E2]%Hj [_ E3]%Hk. by rewrite E3, E2, E1. }
  split; [by rewrite Ht3, Ht2, Ht1|].
  split; [by rewrite Hn3, Hn2, Hn1|].
  split; [by rewrite Hf3, Hf2, Hf1|].
  split; [by rewrite Hto3, Hto2, Hto1|].
  split; [by rewrite Hp3, Hp2, Hp1|]. split; [by rewrite Hs3, Hs2, Hs1|].
  assert (termIDs (graph w2) !! Value (Subject s) = Some i) as E2.
  { rewrite Ht2, lookup_insert. case_decide as E; [|by rewrite Ht1, lookup_insert_eq].
    f_equal. apply Hu2. by rewrite E, Ht1, lookup_insert_eq. }
  assert (termIDs (graph w2) !! Value (Predicate s) = Some j) as E2'.
  { by rewrite Ht2, lookup_insert_eq. }
  rewrite Ht3. split; [|split].
  - rewrite lookup_insert. case_decide as E; [|done].
    f_equal. apply Hu3. by rewrite E.
  - rewrite lookup_insert. case_decide as E; [|done].
    f_equal. apply Hu3. by rewrite E.
  - by rewrite lookup_insert_eq.
Qed.

(** A call of [AddStatement] that returns: the handles [i], [j], [k] of
    the three terms, and every field of the graph after the call. *)
Lemma AddStatement_done a w w' :
  AddStatement a w = (Ok tt, w') ->
  let s := heap w !!! a in
  exists i j k,
    let s' := withUIDs s i j k in
    heap w' !!! a = s'
    /\ (forall b, b ≠ a -> heap w' !!! b = heap w !!! b)
    /\ (UID (Subject s) ≠ 0 -> i = UID (Subject s))
    /\ (UID (Predicate s) ≠ 0 -> j = UID (Predicate s))
    /\ (UID (Object s) ≠ 0 -> k = UID (Object s))
    /\ (UID (Subject s) ≠ 0 -> UID (Predicate s) ≠ 0 -> UID (Object s) ≠ 0 ->
        heap w' = heap w)
    /\ termIDs (graph w')
       = <[Value (Object s) := k]> (<[Value (Predicate s) := j]>
           (<[Value (Subject s) := i]> (termIDs (graph w))))
    /\ nodes (graph w')
       = <[k := Object s']> (<[i := Subject s']> (nodes (graph w)))
    /\ from (graph w') = putLine i k j a (from (graph w))
    /\ to (graph w') = putLine k i j a (to (graph w))
    /\ pred (graph w')
       = <[UID (Predicate s) := (pred (graph w) !!! UID (Predicate s)) ∪ {[ a ]}]>
           (pred (graph w))
    /\ namespace (graph w')
       = (if HasPrefix (text (Parts (Value (Predicate s)))) "http:"
          then global else local)
    /\ termIDs (graph w') !! Value (Subject s) = Some i
    /\ termIDs (graph w') !! Value (Predicate s) = Some j
    /\ termIDs (graph w') !! Value (Object s) = Some k.
Proof.
  intros Hadd s. unfold AddStatement in Hadd.
  apply bind_Ok in Hadd as (s0 & w0 & [= <- <-] & Hadd). fold s in Hadd.
  destruct (err (Parts (Value (Predicate s)))); [done|].
  destruct (decide (kind (Parts (Value (Predicate s))) ≠ IRI)); [done|].
  apply bind_Ok in Hadd as (g0 & w0 & [= <- <-] & Hadd).
  apply bind_Ok in Hadd as ([] & w1 & Hns & Hadd).
  assert (w1 = mkWorld (heap w) (set_namespace
            (if HasPrefix (text (Parts (Value (Predicate s)))) "http:"
             then global else local) (graph w))) as ->.
  { unfold panic, modifyG in Hns.
    destruct (HasPrefix _ _); destruct (decide (namespace (graph w) = _));
      try discriminate Hns; by injection Hns as <-. }
  clear Hns.
  assert ((modifyG (set_pred (fun pr => <[UID (Predicate s) :=
        (pr !!! UID (Predicate s)) ∪ {[ a ]}]> pr)) ≫= fun _ =>
     addTerm a FSubject ≫= fun _ => addTerm a FPredicate ≫= fun _ =>
     addTerm a FObject ≫= fun _ => setLine a)
      (mkWorld (heap w) (set_namespace
            (if HasPrefix (text (Parts (Value (Predicate s)))) "http:"
             then global else local) (graph w))) = (Ok tt, w')) as Ht.
  { destruct (err (Parts (Value (Subject s)))); [done|].
    destruct (kind (Parts (Value (Subject s)))); try done;
      (destruct (err (Parts (Value (Object s)))); [done|];
       destruct (decide (kind (Parts (Value (Object s))) = Invalid)); [done|];
       exact Hadd). }
  clear Hadd.
  apply bind_Ok in Ht as ([] & w3 & [= <-] & Ht).
  apply intern_Ok in Ht. exact Ht.
Qed.

End Added.

Section AddedThenFound.
Context `{Runtime}.

(** A statement that [AddStatement] has added is found: [Lines] yields it
    for the handles of its subject and object, [From] of the subject
    yields the object, and [TermFor] of the text of the object returns the
    object with its handle. The same holds for the subject, through [To]
    and [TermFor], when its handle is not that of the object. *)
Theorem AddStatement_found a w w' :
  AddStatement a w = (Ok tt, w') ->
  let s' := heap w' !!! a in
  let g' := graph w' in
  a ∈ Lines g' (UID (Subject s')) (UID (Object s'))
  /\ HasEdgeFromTo g' (UID (Subject s')) (UID (Object s')) = true
  /\ Some (Object s') ∈ From g' (UID (Subject s'))
  /\ TermFor w' (Value (Object s')) = Ok (Object s', true)
  /\ (UID (Subject s') ≠ UID (Object s') ->
      Some (Subject s') ∈ To g' (UID (Object s'))
      /\ TermFor w' (Value (Subject s')) = Ok (Subject s', true)).
Proof.
  intros Hadd s' g'.
  apply AddStatement_done in Hadd
    as (i & j & k & Hs' & _ & _ & _ & _ & _ & _ & Hn & Hf & Ht & _ & _
        & Ti & _ & Tk).
  unfold s', g'. rewrite Hs'.
  cbn [withUIDs Subject Predicate Object UID Value] in *.
  assert (key (from (graph w')) i k) as Hkf.
  { rewrite Hf, key_putLine. by left. }
  assert (key (to (graph w')) k i) as Hkt.
  { rewrite Ht, key_putLine. by left. }
  split.
  { apply elem_of_Lines. exists j. rewrite Hf, line_putLine.
    by rewrite decide_True. }
  split. { unfold HasEdgeFromTo. by rewrite bool_decide_eq_true, <- key_alt. }
  split.
  { apply elem_of_From. exists k. split; [done|]. by rewrite Hn, lookup_insert_eq. }
  split. { unfold TermFor. by rewrite Tk, Hn, lookup_insert_eq. }
  intros Hik. split.
  - apply elem_of_To. exists i. split; [done|].
    by rewrite Hn, lookup_insert_ne, lookup_insert_eq.
  - unfold TermFor. by rewrite Ti, Hn, lookup_insert_ne, lookup_insert_eq.
Qed.

(** [AddStatement] records a statement in the predicate index under the
    handle that the predicate has before [addTerm] assigns one,
    [RemoveStatement] looks under the handle that it has after. So a
    statement never added before, whose predicate comes with the handle
    0 and is given another handle, is not removed by [RemoveStatement]:
    the call returns and changes nothing. *)
Theorem RemoveStatement_misses_assigned_predicate h ops a w' :
  a ∉ added ops ->
  AddStatement a (history h ops) = (Ok tt, w') ->
  UID (Predicate (heap (history h ops) !!! a)) = 0 ->
  UID (Predicate (heap w' !!! a)) ≠ 0 ->
  RemoveStatement a w' = (Ok tt, w').
Proof.
  intros Hnew Hadd Hz Hnz.
  pose proof (indexedIn_history h ops) as Hidx.
  apply AddStatement_done in Hadd
    as (i & j & k & Hs' & _ & _ & _ & _ & _ & _ & _ & _ & _ & Hp & _).
  rewrite Hs' in Hnz. cbn [withUIDs Predicate UID] in Hnz.
  unfold RemoveStatement. unfold_M. cbn beta iota. rewrite Hs'.
  cbn [withUIDs Predicate UID]. rewrite decide_False; [done|].
  rewrite Hp, Hz, lookup_total_insert_ne by done.
  intros Hin. apply Hnew. by eapply Hidx.
Qed.

(** [RemoveStatement] always returns; afterwards the statement is not in
    the predicate index under the handle of its predicate, and a second
    call changes nothing. *)
Theorem RemoveStatement_twice a w :
  let w1 := (RemoveStatement a w).2 in
  RemoveStatement a w = (Ok tt, w1)
  /\ heap w1 = heap w
  /\ (a ∉ pred (graph w1) !!! UID (Predicate (heap w !!! a)))
  /\ RemoveStatement a w1 = (Ok tt, w1).
Proof.
  intros w1.
  assert (RemoveStatement a w = (Ok tt, w1) /\ heap w1 = heap w
          /\ (a ∉ pred (graph w1) !!! UID (Predicate (heap w !!! a))))
    as (H1 & H2 & H3).
  { unfold w1, RemoveStatement. unfold_M. cbn beta iota.
    destruct (decide (a ∈ pred (graph w) !!! UID (Predicate (heap w !!! a))))
      as [Hin|Hin]; [|done].
    cbn [snd heap graph]. split; [done|]. split; [done|].
    set (s := heap w !!! a).
    assert (forall t g, pred (removeOrphan t g) = pred g) as HO.
    { intros t g. unfold removeOrphan, removeNode. by repeat case_decide. }
    rewrite !HO. unfold unindex. cbn [pred set_pred].
    repeat case_decide; cbn [pred set_pred set_termIDs set_ids].
    - rewrite lookup_total_delete_eq. set_solver.
    - rewrite lookup_total_delete_eq. set_solver.
    - rewrite lookup_total_alt, lookup_alter. rewrite decide_True by done.
      destruct (pred (removeLine _ _ _ (graph w)) !! _); simpl; set_solver. }
  split; [done|]. split; [done|]. split; [done|].
  unfold RemoveStatement. unfold_M. cbn beta iota. rewrite H2.
  by rewrite decide_False.
Qed.

End AddedThenFound.

(** ** Adding a statement and removing it again *)

Section RoundTrip.
Context `{Runtime}.

Lemma keys_empty {V} : keys (∅ : gmap Z V) = [].
Proof.
  unfold keys. rewrite dom_empty_L, elements_empty.
  apply Permutation_nil, Permutation_sym, order_perm.
Qed.

Lemma putLine_fresh u v l a (idx : Index) :
  idx !! u = None -> putLine u v l a idx = <[u := {[ v := {[ l := a ]} ]}]> idx.
Proof. intros Hu. unfold putLine. by rewrite Hu. Qed.

Lemma dropLine_single u v l a (idx : Index) :
  dropLine u v l (<[u := {[ v := {[ l := a ]} ]}]> idx) = <[u := ∅]> idx.
Proof.
  unfold dropLine.
  assert (alter (alter (delete l) v) u (<[u := {[ v := {[ l := a ]} ]}]> idx)
          = <[u := {[ v := ∅ ]}]> idx) as ->.
  { rewrite alter_insert_eq. f_equal. rewrite alter_singleton_eq. f_equal.
    apply delete_singleton_eq. }
  unfold cell. rewrite lookup_total_insert_eq, lookup_total_singleton_eq.
  rewrite decide_True by done.
  rewrite alter_insert_eq. f_equal. apply delete_singleton_eq.
Qed.

Lemma removeNode_isolated id g n :
  nodes g !! id = Some n -> from g !!! id = ∅ -> to g !!! id = ∅ ->
  removeNode id g
  = set_ids (uid.Release id) (set_to (delete id) (set_from (delete id)
      (set_nodes (delete id) g))).
Proof.
  intros Hn Hf Ht. unfold removeNode. rewrite decide_False by congruence.
  cbn zeta. cbn [from to nodes set_nodes set_to set_from set_ids].
  rewrite Hf, keys_empty. cbn [dropAll fold_left to].
  rewrite Ht, keys_empty. done.
Qed.

Lemma total_None (idx : Index) u : idx !! u = None -> idx !!! u = ∅.
Proof. intros Hu. by rewrite lookup_total_alt, Hu. Qed.

Lemma removeOrphan_isolated t g :
  from g !!! UID t = ∅ -> to g !!! UID t = ∅ ->
  (nodes g !! UID t = None ->
   from g !! UID t = None /\ to g !! UID t = None) ->
  nodes (removeOrphan t g) = delete (UID t) (nodes g)
  /\ from (removeOrphan t g) = delete (UID t) (from g)
  /\ to (removeOrphan t g) = delete (UID t) (to g)
  /\ pred (removeOrphan t g) = pred g
  /\ termIDs (removeOrphan t g) = delete (Value t) (termIDs g).
Proof.
  intros Hf Ht Hnone. unfold removeOrphan.
  rewrite decide_True; cycle 1.
  { unfold FromLen, ToLen. by rewrite Hf, Ht, !map_size_empty. }
  destruct (nodes g !! UID t) as [n|] eqn:Hn.
  - by rewrite (removeNode_isolated _ _ n).
  - destruct (Hnone eq_refl) as [Hf' Ht'].
    unfold removeNode. rewrite decide_True by done.
    cbn [set_termIDs nodes from to pred termIDs].
    by rewrite (delete_id (nodes g)), (delete_id (from g)),
      (delete_id (to g)) by done.
Qed.

Lemma round_trip a w w1 :
  anchored (graph w) ->
  newTo (graph w) (heap w !!! a) ->
  AddStatement a w = (Ok tt, w1) ->
  exists w2,
    RemoveStatement a w1 = (Ok tt, w2)
    /\ heap w2 = heap w
    /\ nodes (graph w2) = nodes (graph w)
    /\ from (graph w2) = from (graph w)
    /\ to (graph w2) = to (graph w)
    /\ pred (graph w2) = pred (graph w)
    /\ termIDs (graph w2) = termIDs (graph w).
Proof.
  intros [Ha1 Ha2] (Hi & Hj & Hk & Ni & Nj & Nk & Pj & Ti & Tj & Tk) Hadd.
  apply AddStatement_done in Hadd
    as (i & j & k & Hs' & _ & Ei & Ej & Ek & Hh & Ht & Hn & Hf & Hto & Hp & _).
  set (s := heap w !!! a) in *.
  rewrite (Ei Hi), (Ej Hj), (Ek Hk) in *. clear Ei Ej Ek i j k.
  specialize (Hh Hi Hj Hk).
  assert (withUIDs s (UID (Subject s)) (UID (Predicate s)) (UID (Object s)) = s)
    as Es by (by destruct s as [[] [] []]).
  rewrite Es in *. clear Es.
  assert (forall u, nodes (graph w) !! u = None ->
            from (graph w) !! u = None /\ to (graph w) !! u = None) as Hnone.
  { intros u Hu. split; apply eq_None_not_Some; intros Hs.
    - apply Ha1 in Hs. rewrite Hu in Hs. by destruct Hs.
    - apply Ha2 in Hs. rewrite Hu in Hs. by destruct Hs. }
  destruct (Hnone _ Ni) as [Fi Toi]. destruct (Hnone _ Nj) as [Fj Toj].
  destruct (Hnone _ Nk) as [Fk Tok].
  rewrite putLine_fresh in Hf, Hto by done.
  eexists. split.
  { unfold RemoveStatement. unfold_M. cbn beta iota. rewrite Hs'.
    rewrite decide_True; [done|].
    rewrite Hp, lookup_total_insert_eq. set_solver. }
  cbn [heap graph]. split; [done|].
  set (i := UID (Subject s)) in *. set (j := UID (Predicate s)) in *.
  set (k := UID (Object s)) in *.
  set (g2 := removeLine i k j (graph w1)).
  assert (nodes g2 = nodes (graph w1)
          /\ from g2 = <[i := ∅]> (from (graph w))
          /\ to g2 = <[k := ∅]> (to (graph w))
          /\ pred g2 = pred (graph w1) /\ termIDs g2 = termIDs (graph w1))
    as (N2 & F2 & T2 & P2 & I2).
  { unfold g2, removeLine.
    rewrite decide_False; cycle 1.
    { rewrite Hn, lookup_insert. case_decide; [done|].
      by rewrite lookup_insert_eq. }
    rewrite decide_False; cycle 1.
    { by rewrite Hn, lookup_insert_eq. }
    cbn. by rewrite Hf, Hto, !dropLine_single. }
  set (g3 := unindex a s g2).
  assert (nodes g3 = nodes (graph w1)
          /\ from g3 = <[i := ∅]> (from (graph w))
          /\ to g3 = <[k := ∅]> (to (graph w))
          /\ pred g3 = pred (graph w)
          /\ termIDs g3 = delete (Value (Predicate s)) (termIDs (graph w1)))
    as (N3 & F3 & T3 & P3 & I3).
  { unfold g3, unindex. fold j. cbn [pred set_pred].
    assert (alter (fun st : gset addr => st ∖ {[a]}) j (pred g2)
            = <[j := ∅]> (pred (graph w))) as ->.
    { rewrite P2, Hp, alter_insert_eq. f_equal.
      rewrite lookup_total_alt, Pj. set_solver. }
    rewrite lookup_total_insert_eq, size_empty.
    rewrite decide_True by done. cbn [from set_pred].
    rewrite decide_True; cycle 1.
    { rewrite F2. rewrite lookup_total_insert.
      case_decide; [by rewrite map_size_empty|].
      by rewrite (total_None _ _ Fj), map_size_empty. }
    cbn [nodes from to pred termIDs set_termIDs set_ids set_pred].
    rewrite P2, Hp, alter_insert_eq, delete_insert_id by done.
    by rewrite I2. }
  set (g4 := removeOrphan (Subject s) g3).
  destruct (removeOrphan_isolated (Subject s) g3)
    as (N4 & F4 & T4 & P4 & I4).
  { fold i. by rewrite F3, lookup_total_insert_eq. }
  { fold i. rewrite T3, lookup_total_insert.
    case_decide; [done|]. by apply total_None. }
  { fold i. rewrite N3, Hn, lookup_insert. case_decide; [done|].
    by rewrite lookup_insert_eq. }
  fold i g4 in N4, F4, T4, P4, I4.
  destruct (removeOrphan_isolated (Object s) g4)
    as (N5 & F5 & T5 & P5 & I5).
  { fold k. rewrite F4, F3, delete_insert_id by done. by apply total_None. }
  { fold k. rewrite T4, T3. rewrite lookup_total_alt, lookup_delete.
    case_decide; [done|]. by rewrite lookup_insert_eq. }
  { fold k. intros Hnk. rewrite F4, F3, T4, T3.
    rewrite delete_insert_id by done. split; [done|].
    rewrite N4, N3, Hn, lookup_delete in Hnk.
    destruct (decide (i = k)) as [->|]; [by rewrite lookup_delete_eq|].
    by rewrite lookup_insert_eq in Hnk. }
  fold k g4 in N5, F5, T5, P5, I5.
  rewrite N5, N4, N3, Hn, F5, F4, F3, T5, T4, T3, P5, P4, P3, I5, I4, I3, Ht.
  repeat split.
  - apply map_eq. intros x. rewrite !lookup_delete, !lookup_insert.
    repeat case_decide; congruence.
  - rewrite delete_insert_id by done. by apply delete_id.
  - apply map_eq. intros x. rewrite !lookup_delete, !lookup_insert.
    repeat case_decide; congruence.
  - apply map_eq. intros x. rewrite !lookup_delete, !lookup_insert.
    repeat case_decide; congruence.
Qed.
End RoundTrip.

(** A statement whose terms are new to the graph and come with handles
    of their own: after [AddStatement] and [RemoveStatement] the node
    table, the two adjacency indices, the predicate index and the
    interning table are what they were, and so are the statements. *)
Theorem AddStatement_RemoveStatement_round_trip `{Runtime} h ops a w1 :
  let w := history h ops in
  newTo (graph w) (heap w !!! a) ->
  AddStatement a w = (Ok tt, w1) ->
  exists w2,
    RemoveStatement a w1 = (Ok tt, w2)
    /\ heap w2 = heap w
    /\ nodes (graph w2) = nodes (graph w)
    /\ from (graph w2) = from (graph w)
    /\ to (graph w2) = to (graph w)
    /\ pred (graph w2) = pred (graph w)
    /\ termIDs (graph w2) = termIDs (graph w).
Proof.
  intros w Hnew Hadd. apply round_trip; try done.
  by destruct (kept_history h ops) as (_ & _ & _ & ? & _).
Qed.

Lemma AddStatement_found_witness :
  let w := mkWorld Ex2.triples NewGraph in
  let w' := (@AddStatement plain 1%nat w).2 in
  @AddStatement plain 1%nat w = (Ok tt, w')
  /\ 1%nat ∈ @Lines plain (graph w') 0 2
  /\ @TermFor plain w' "<ex:B>" = Ok (mkTerm "<ex:B>" 2, true)
  /\ @TermFor plain w' "<ex:A>" = Ok (mkTerm "<ex:A>" 0, true).
Proof.
  cbv zeta.
  assert (@AddStatement plain 1%nat (mkWorld Ex2.triples NewGraph)
          = (Ok tt, (@AddStatement plain 1%nat
                       (mkWorld Ex2.triples NewGraph)).2)) as Hadd.
  { by vm_compute. }
  split; [exact Hadd|].
  destruct (@AddStatement_found plain 1%nat _ _ Hadd)
    as (HL & _ & _ & HO & HS).
  split; [exact HL|]. split; [exact HO|].
  apply HS. by vm_compute.
Defined.

Lemma RemoveStatement_misses_assigned_predicate_witness :
  let w' := (@AddStatement plain 1%nat (@history plain Ex2.triples [])).2 in
  (1%nat ∉ @added [])
  /\ UID (Predicate (heap (@history plain Ex2.triples []) !!! 1%nat)) = 0
  /\ UID (Predicate (heap w' !!! 1%nat)) = 1
  /\ @RemoveStatement plain 1%nat w' = (Ok tt, w').
Proof.
  cbv zeta. split; [set_solver|]. split; [by vm_compute|].
  split; [by vm_compute|].
  apply (@RemoveStatement_misses_assigned_predicate plain Ex2.triples []);
    [set_solver|by vm_compute|by vm_compute|by vm_compute].
Defined.

Lemma AddStatement_RemoveStatement_round_trip_witness :
  let w := @history plain Ex.twins [] in
  newTo (graph w) (heap w !!! 1%nat)
  /\ exists w2,
      @RemoveStatement plain 1%nat (@AddStatement plain 1%nat w).2 = (Ok tt, w2)
      /\ heap w2 = heap w
      /\ nodes (graph w2) = nodes (graph w)
      /\ from (graph w2) = from (graph w)
      /\ to (graph w2) = to (graph w)
      /\ pred (graph w2) = pred (graph w)
      /\ termIDs (graph w2) = termIDs (graph w).
Proof.
  cbv zeta.
  assert (newTo (graph (@history plain Ex.twins []))
                (heap (@history plain Ex.twins []) !!! 1%nat)) as Hnew.
  { apply (bool_decide_unpack _). by vm_compute. }
  split; [exact Hnew|].
  apply (@AddStatement_RemoveStatement_round_trip plain Ex.twins [] 1%nat);
    [exact Hnew|by vm_compute].
Defined.


(** ** [RemoveTerm] *)

Section Safety.
Context `{Runtime}.

Lemma safe_ret {A} P (a : A) : safe P (mret a).
Proof. intros w _. by exists a. Qed.

Lemma safe_modifyG P f : safe P (modifyG f).
Proof. intros w _. by exists tt. Qed.

Lemma safe_bind {A B} P (m : M A) (k : A -> M B) :
  inv P m -> safe P m -> (forall a, safe P (k a)) -> safe P (m ≫= k).
Proof.
  intros Hi Hs Hk w Hw. destruct (Hs w Hw) as [a Ha].
  specialize (Hi w Hw). unfold mbind, M_bind, bind.
  destruct (m w) as [[a'|e] w1]; simpl in *; [|done]. by apply Hk.
Qed.

Lemma RemoveStatement_returns a w :
  RemoveStatement a w = (Ok tt, (RemoveStatement a w).2).
Proof. unfold RemoveStatement. unfold_M. cbn beta iota. by case_decide. Qed.

Lemma safe_RemoveStatement P a : safe P (RemoveStatement a).
Proof. intros w _. exists tt. by rewrite RemoveStatement_returns. Qed.

Lemma inv_kept_RemoveStatement a : inv (onGraph kept) (RemoveStatement a).
Proof.
  change (inv (onGraph kept) (call (Remove a))). apply inv_kept_call.
Qed.

Lemma inv_kept_removeAll l : inv (onGraph kept) (removeAll l).
Proof.
  induction l as [|a l IH]; simpl; [inv_step|].
  inv_step; [apply inv_kept_RemoveStatement|done].
Qed.

Lemma safe_removeAll l : safe (onGraph kept) (removeAll l).
Proof.
  induction l as [|a l IH]; simpl; [apply safe_ret|].
  apply safe_bind; [apply inv_kept_RemoveStatement|apply safe_RemoveStatement|done].
Qed.

Lemma linesAt_Some k f w n :
  nodes (graph w) !! k = Some n -> linesAt k f w = (Ok (f (graph w) (ID n)), w).
Proof. intros Hn. unfold linesAt. unfold_M. by rewrite Hn. Qed.

Lemma inv_kept_removeOut n t seen : inv (onGraph kept) (removeOut n t seen).
Proof.
  revert seen. induction n as [|n IH]; intros seen; simpl; [inv_step|].
  inv_step; [inv_step|]. destruct (order _) as [|k ?]; [inv_step|].
  inv_step; [apply inv_prims_linesAt|].
  inv_step; [apply inv_kept_removeAll|apply IH].
Qed.

Lemma safe_removeOut n t seen : safe (onGraph kept) (removeOut n t seen).
Proof.
  revert seen. induction n as [|n IH]; intros seen; simpl; [apply safe_ret|].
  intros w Hw. unfold mbind at 1, M_bind at 1, bind at 1, getG. cbn beta iota.
  destruct (order (elements (dom (from (graph w) !!! UID t) ∖ seen)))
    as [|k ks] eqn:Hks; [by exists tt|].
  assert (k ∈ dom (from (graph w) !!! UID t)) as Hk.
  { assert (k ∈ order (elements (dom (from (graph w) !!! UID t) ∖ seen)))
      as Hin by (rewrite Hks; by left).
    rewrite (order_perm _ _), elem_of_elements in Hin. set_solver. }
  apply elem_of_dom, key_alt in Hk.
  destruct (kept_ends _ _ _ Hw Hk) as [_ [m Hm]].
  unfold mbind at 1, M_bind at 1, bind at 1.
  rewrite (linesAt_Some _ _ _ m Hm).
  apply (safe_bind (onGraph kept)); [apply inv_kept_removeAll
    |apply safe_removeAll| |done].
  intros _. apply IH.
Qed.

Lemma inv_kept_removeIn t : inv (onGraph kept) (removeIn t).
Proof.
  unfold removeIn. inv_step; [inv_step|].
  destruct (keys _) as [|k ?]; [inv_step|].
  inv_step; [|apply inv_kept_removeAll].
  apply inv_prims_linesAt.
Qed.

Lemma safe_removeIn t : safe (onGraph kept) (removeIn t).
Proof.
  intros w Hw. unfold removeIn.
  unfold mbind at 1, M_bind at 1, bind at 1, getG. cbn beta iota.
  destruct (keys (to (graph w) !!! UID t)) as [|k ks] eqn:Hks; [by exists tt|].
  assert (key (to (graph w)) (UID t) k) as Hk.
  { apply key_keys. rewrite Hks. by left. }
  apply kept_key in Hk; [|done].
  destruct (kept_ends _ _ _ Hw Hk) as [[m Hm] _].
  unfold mbind at 1, M_bind at 1, bind at 1.
  rewrite (linesAt_Some _ _ _ m Hm). by apply (safe_removeAll _ w).
Qed.

Lemma safe_RemoveTerm t : safe (onGraph kept) (RemoveTerm t).
Proof.
  unfold RemoveTerm.
  apply safe_bind; [inv_step|intros w _; by eexists|]. intros g.
  apply safe_bind.
  { destruct (pred g !! UID t); [apply inv_kept_removeAll|inv_step]. }
  { destruct (pred g !! UID t); [apply safe_removeAll|apply safe_ret]. }
  intros _. apply safe_bind; [inv_step|intros w _; by eexists|]. intros g'.
  case_decide; [apply safe_ret|].
  apply safe_bind; [apply inv_kept_removeOut|apply safe_removeOut|]. intros _.
  apply safe_bind; [apply inv_kept_removeIn|apply safe_removeIn|]. intros _.
  apply safe_bind; [apply inv_modifyG, kept_removeNode|apply safe_modifyG|].
  intros _. apply safe_modifyG.
Qed.

Lemma nodes_removeNode id g : nodes (removeNode id g) !! id = None.
Proof.
  unfold removeNode. case_decide; [done|]. cbn. apply lookup_delete_eq.
Qed.

(** After [RemoveTerm] has returned, the term is no node. *)
Lemma RemoveTerm_post t w w' :
  RemoveTerm t w = (Ok tt, w') -> nodes (graph w') !! UID t = None.
Proof.
  unfold RemoveTerm. intros Hr.
  apply bind_Ok in Hr as (g & w0 & [= <- <-] & Hr).
  apply bind_Ok in Hr as ([] & w1 & _ & Hr).
  apply bind_Ok in Hr as (g1 & w1' & [= <- <-] & Hr).
  case_decide as Hq; [injection Hr as <-; by destruct Hq|].
  apply bind_Ok in Hr as ([] & w2 & _ & Hr).
  apply bind_Ok in Hr as ([] & w3 & _ & Hr).
  apply bind_Ok in Hr as ([] & w4 & [= <-] & Hr).
  injection Hr as <-. cbn. apply nodes_removeNode.
Qed.

End Safety.

Section Detached.
Context `{Runtime}.

Lemma kept_no_node g id :
  kept g -> nodes g !! id = None ->
  from g !! id = None /\ to g !! id = None
  /\ forall u, ~ key (from g) u id /\ ~ key (from g) id u.
Proof.
  intros Hk Hn. pose proof Hk as (_ & _ & _ & [Ha1 Ha2] & _).
  split; [|split].
  - apply eq_None_not_Some. intros Hs%Ha1. rewrite Hn in Hs. by destruct Hs.
  - apply eq_None_not_Some. intros Hs%Ha2. rewrite Hn in Hs. by destruct Hs.
  - intros u. split; intros Hkey;
      destruct (kept_ends _ _ _ Hk Hkey) as [[? ?] [? ?]]; congruence.
Qed.

(** On a graph built by calls, [RemoveTerm] returns. Afterwards the term
    is no node, no edge starts or ends at it, and [From] and [To] of its
    ID yield nothing. *)
Theorem RemoveTerm_detaches h ops t :
  exists w',
    RemoveTerm t (history h ops) = (Ok tt, w')
    /\ Node (graph w') (UID t) = None
    /\ (forall u, HasEdgeBetween (graph w') u (UID t) = false)
    /\ From (graph w') (UID t) = [] /\ To (graph w') (UID t) = [].
Proof.
  pose proof (kept_history h ops) as Hk.
  destruct (safe_RemoveTerm t (history h ops) Hk) as [[] Hok].
  pose proof (inv_kept_call (RemoveT t) (history h ops) Hk) as Hk'.
  cbn [call] in Hk'.
  destruct (RemoveTerm t (history h ops)) as [o w'] eqn:Hr.
  cbn [fst snd] in Hok, Hk'. subst o. exists w'. split; [done|].
  pose proof (RemoveTerm_post _ _ _ Hr) as Hn.
  destruct (kept_no_node _ _ Hk' Hn) as (Hf & Ht & Hno).
  split; [done|]. split; [|split].
  - intros u. unfold HasEdgeBetween.
    rewrite !bool_decide_eq_false_2; [done| |];
      rewrite <- key_alt; apply Hno.
  - unfold From. by rewrite (total_None _ _ Hf), keys_empty.
  - unfold To. by rewrite (total_None _ _ Ht), keys_empty.
Qed.

(** [RemoveTerm] of a term that a graph built by calls does not know, as
    a node or as the handle of a predicate, returns and changes nothing. *)
Theorem RemoveTerm_unknown h ops t :
  let w := history h ops in
  Node (graph w) (UID t) = None ->
  pred (graph w) !! UID t = None ->
  RemoveTerm t w = (Ok tt, w).
Proof.
  intros w Hn Hp. pose proof (kept_history h ops) as Hk.
  destruct (kept_no_node _ _ Hk Hn) as (Hf & Ht & _).
  unfold RemoveTerm. unfold_M. cbn beta iota. fold w. rewrite Hp.
  cbn beta iota. by rewrite decide_True.
Qed.

End Detached.

Lemma RemoveTerm_unknown_witness :
  let w := @history plain Ex4.chain [Add 1%nat; Add 2%nat] in
  Node (graph w) 7 = None
  /\ pred (graph w) !! 7 = None
  /\ @RemoveTerm plain (mkTerm "<obo:GO_7>" 7) w = (Ok tt, w).
Proof.
  cbv zeta. split; [by vm_compute|]. split; [by vm_compute|].
  apply (@RemoveTerm_unknown plain Ex4.chain [Add 1%nat; Add 2%nat]
           (mkTerm "<obo:GO_7>" 7)); by vm_compute.
Defined.

(** ** The namespace of a graph *)

Section Namespace.
Context `{Runtime}.
Variable n : Z.
Local Abbreviation P := (fun g : Graph => namespace g = n).

Lemma namespace_removeNode id g : namespace (removeNode id g) = namespace g.
Proof. unfold removeNode. by case_decide. Qed.

Lemma namespace_removeLine u v l g : namespace (removeLine u v l g) = namespace g.
Proof. unfold removeLine. by repeat case_decide. Qed.

Lemma namespace_unindex a s g : namespace (unindex a s g) = namespace g.
Proof. unfold unindex. by repeat case_decide. Qed.

Lemma namespace_removeOrphan t g : namespace (removeOrphan t g) = namespace g.
Proof.
  unfold removeOrphan. case_decide; [|done]. cbn. apply namespace_removeNode.
Qed.

Lemma inv_ns_RemoveStatement a : inv (onGraph P) (RemoveStatement a).
Proof.
  unfold RemoveStatement. inv_step; [inv_step|]. inv_step; [inv_step|].
  case_decide; [|inv_step].
  inv_step; [apply inv_modifyG; intros g; by rewrite namespace_removeLine|].
  inv_step; [apply inv_modifyG; intros g; by rewrite namespace_unindex|].
  inv_step; apply inv_modifyG; intros g; by rewrite namespace_removeOrphan.
Qed.

Lemma inv_ns_removeAll l : inv (onGraph P) (removeAll l).
Proof.
  induction l as [|a l IH]; simpl; [inv_step|].
  inv_step; [apply inv_ns_RemoveStatement|done].
Qed.

Lemma inv_ns_removeOut k t seen : inv (onGraph P) (removeOut k t seen).
Proof.
  revert seen. induction k as [|k IH]; intros seen; simpl; [inv_step|].
  inv_step; [inv_step|]. destruct (order _) as [|x ?]; [inv_step|].
  inv_step; [apply inv_prims_linesAt|].
  inv_step; [apply inv_ns_removeAll|apply IH].
Qed.

Lemma inv_ns_RemoveTerm t : inv (onGraph P) (RemoveTerm t).
Proof.
  unfold RemoveTerm. inv_step; [inv_step|]. inv_step.
  { destruct (pred _ !! _); [apply inv_ns_removeAll|inv_step]. }
  inv_step; [inv_step|]. case_decide; [inv_step|].
  inv_step; [apply inv_ns_removeOut|].
  inv_step.
  { unfold removeIn. inv_step; [inv_step|].
    destruct (keys _) as [|k ?]; [inv_step|].
    inv_step; [apply inv_prims_linesAt|apply inv_ns_removeAll]. }
  inv_step; [apply inv_modifyG; intros g; by rewrite namespace_removeNode|].
  by apply inv_modifyG.
Qed.

Hypothesis established : n = local \/ n = global.

Lemma inv_ns_AddStatement a : inv (onGraph P) (AddStatement a).
Proof.
  assert (forall f, inv (onGraph P) (addTerm a f)) as Hterm.
  { intros f. apply inv_addTerm_frame. intros g g' _ _ _ _ Hns Hg.
    by rewrite Hns. }
  assert (forall s, inv (onGraph P)
    (let ps := Parts (Value (Subject s)) in
     if err ps then panic SubjectError else
     match kind ps with
     | IRI | Blank =>
         let po := Parts (Value (Object s)) in
         if err po then panic ObjectError else
         if decide (kind po = Invalid) then panic ObjectInvalid else
         modifyG (set_pred (fun pr =>
           <[UID (Predicate s) := (pr !!! UID (Predicate s)) ∪ {[ a ]}]> pr));;
         addTerm a FSubject;; addTerm a FPredicate;; addTerm a FObject;;
         setLine a
     | _ => panic SubjectNotIRIOrBlank
     end)) as Hrest.
  { intros s. cbn zeta. destruct (err _); [inv_step|].
    destruct (kind (Parts (Value (Subject _)))); try apply inv_panic;
      (destruct (err _); [inv_step|]; case_decide; [inv_step|];
       inv_step; [by apply inv_modifyG|];
       inv_step; [apply Hterm|];
       inv_step; [apply Hterm|];
       inv_step; [apply Hterm|];
       intros w Hw; rewrite setLine_ok; unfold onGraph in *; cbn;
       by rewrite !namespace_withNode). }
  unfold AddStatement. inv_step; [inv_step|]. rename a0 into s.
  destruct (err _); [inv_step|]. case_decide; [inv_step|].
  intros w Hw. unfold mbind at 1, M_bind at 1, bind at 1, getG.
  cbn beta iota.
  destruct (HasPrefix _ _).
  - destruct (decide (namespace (graph w) = local)) as [|Hc]; [done|].
    assert (n = global) as Hn.
    { unfold onGraph in Hw. destruct established; congruence. }
    clear Hc. revert w Hw. apply inv_bind; [|intros _; apply Hrest].
    by apply inv_modifyG.
  - destruct (decide (namespace (graph w) = global)) as [|Hc]; [done|].
    assert (n = local) as Hn.
    { unfold onGraph in Hw. destruct established; congruence. }
    clear Hc. revert w Hw. apply inv_bind; [|intros _; apply Hrest].
    by apply inv_modifyG.
Qed.

Lemma inv_ns_call op : inv (onGraph P) (call op).
Proof.
  destruct op; simpl.
  - apply inv_ns_AddStatement.
  - apply inv_ns_RemoveStatement.
  - apply inv_ns_RemoveTerm.
Qed.

End Namespace.

Section NamespaceKept.
Context `{Runtime}.

(** Once a graph has a namespace, global or local, no call changes it:
    a predicate of the other namespace makes [AddStatement] panic, and no
    removal resets the namespace, not even that of the last statement. *)
Theorem namespace_never_changes w ops :
  namespace (graph w) = local \/ namespace (graph w) = global ->
  namespace (graph (fold_left (fun w op => after op w) ops w))
  = namespace (graph w).
Proof.
  intros Hns. revert w Hns. induction ops as [|op ops IH]; intros w Hns; [done|].
  cbn [fold_left].
  assert (namespace (graph (after op w)) = namespace (graph w)) as E.
  { pose proof (inv_ns_call (namespace (graph w)) Hns op w) as Hinv.
    unfold onGraph, after in *. by apply Hinv. }
  rewrite IH; [done|]. by rewrite E.
Qed.

End NamespaceKept.

Lemma namespace_never_changes_witness :
  let w := @history plain Ex4.chain [Add 1%nat] in
  (namespace (graph w) = local \/ namespace (graph w) = global)
  /\ namespace (graph (fold_left (fun w op => @after plain op w)
                         [Remove 1%nat; RemoveT Ex4.GO_2] w)) = local.
Proof.
  cbv zeta.
  assert (namespace (graph (@history plain Ex4.chain [Add 1%nat])) = local)
    as Hl by (by vm_compute).
  split; [by left|].
  rewrite (@namespace_never_changes plain _ [Remove 1%nat; RemoveT Ex4.GO_2]);
    [exact Hl|by left].
Defined.


(** ** The predicate index *)

Section PredKept.
Context `{Runtime}.
Variable P : Graph -> Prop.
Hypothesis P_ext : forall g g', pred g' = pred g -> P g -> P g'.
Hypothesis P_record : forall a k g,
  P g -> P (set_pred (fun pr => <[k := (pr !!! k) ∪ {[ a ]}]> pr) g).
Hypothesis P_unindex : forall a s g, P g -> P (unindex a s g).

Lemma pred_removeNode id g : pred (removeNode id g) = pred g.
Proof. unfold removeNode. by case_decide. Qed.

Lemma pred_removeLine u v l g : pred (removeLine u v l g) = pred g.
Proof. unfold removeLine. by repeat case_decide. Qed.

Lemma pred_removeOrphan t g : pred (removeOrphan t g) = pred g.
Proof.
  unfold removeOrphan. case_decide; [|done]. cbn. apply pred_removeNode.
Qed.

Lemma inv_pred_AddStatement a : inv (onGraph P) (AddStatement a).
Proof.
  assert (forall f, inv (onGraph P) (addTerm a f)) as Hterm.
  { intros f. apply inv_addTerm_frame. intros g g' _ _ _ Hp _ Hg.
    by apply (P_ext g). }
  unfold AddStatement. inv_step; [inv_step|].
  destruct (err _); [inv_step|]. case_decide; [inv_step|].
  inv_step; [inv_step|]. inv_step.
  { destruct (HasPrefix _ _); case_decide; try apply inv_panic;
      apply inv_modifyG; intros g Hg; by apply (P_ext g). }
  destruct (err _); [inv_step|].
  destruct (kind (Parts (Value (Subject _)))); try apply inv_panic;
    (destruct (err _); [inv_step|]; case_decide; [inv_step|];
     inv_step; [apply inv_modifyG; intros g; apply P_record|];
     inv_step; [apply Hterm|];
     inv_step; [apply Hterm|];
     inv_step; [apply Hterm|];
     intros w Hw; rewrite setLine_ok; unfold onGraph in *; cbn [snd graph];
     apply (P_ext (graph w)); [|done]; cbn; by rewrite !pred_withNode).
Qed.

Lemma inv_pred_RemoveStatement a : inv (onGraph P) (RemoveStatement a).
Proof.
  unfold RemoveStatement. inv_step; [inv_step|]. inv_step; [inv_step|].
  case_decide; [|inv_step].
  inv_step.
  { apply inv_modifyG; intros g Hg. apply (P_ext g); [|done].
    apply pred_removeLine. }
  inv_step; [apply inv_modifyG; intros g; apply P_unindex|].
  inv_step; apply inv_modifyG; intros g Hg; (apply (P_ext g); [|done]);
    apply pred_removeOrphan.
Qed.

Lemma inv_pred_removeAll l : inv (onGraph P) (removeAll l).
Proof.
  induction l as [|a l IH]; simpl; [inv_step|].
  inv_step; [apply inv_pred_RemoveStatement|done].
Qed.

Lemma inv_pred_removeOut k t seen : inv (onGraph P) (removeOut k t seen).
Proof.
  revert seen. induction k as [|k IH]; intros seen; simpl; [inv_step|].
  inv_step; [inv_step|]. destruct (order _) as [|x ?]; [inv_step|].
  inv_step; [apply inv_prims_linesAt|].
  inv_step; [apply inv_pred_removeAll|apply IH].
Qed.

Lemma inv_pred_RemoveTerm t : inv (onGraph P) (RemoveTerm t).
Proof.
  unfold RemoveTerm. inv_step; [inv_step|]. inv_step.
  { destruct (pred _ !! _); [apply inv_pred_removeAll|inv_step]. }
  inv_step; [inv_step|]. case_decide; [inv_step|].
  inv_step; [apply inv_pred_removeOut|].
  inv_step.
  { unfold removeIn. inv_step; [inv_step|].
    destruct (keys _) as [|k ?]; [inv_step|].
    inv_step; [apply inv_prims_linesAt|apply inv_pred_removeAll]. }
  inv_step.
  { apply inv_modifyG; intros g Hg. apply (P_ext g); [|done].
    apply pred_removeNode. }
  apply inv_modifyG; intros g Hg. by apply (P_ext g).
Qed.

Lemma inv_pred_call op : inv (onGraph P) (call op).
Proof.
  destruct op; simpl.
  - apply inv_pred_AddStatement.
  - apply inv_pred_RemoveStatement.
  - apply inv_pred_RemoveTerm.
Qed.

End PredKept.

Section Inhabited.
Context `{Runtime}.

Lemma inhabited_pred_history h ops : inhabited_pred (graph (history h ops)).
Proof.
  apply (history_inv (onGraph inhabited_pred)).
  - apply inv_pred_call.
    + intros g g' Hp Hg k st. rewrite Hp. apply Hg.
    + intros a k g Hg k' st. cbn. rewrite lookup_insert.
      case_decide; [intros [= <-]; set_solver|apply Hg].
    + intros a s g Hg. unfold unindex.
      assert (forall k st,
        delete (UID (Predicate s))
          (alter (fun st : gset addr => st ∖ {[a]}) (UID (Predicate s)) (pred g))
          !! k = Some st -> st ≠ ∅) as Hdel.
      { intros k st. rewrite lookup_delete. case_decide; [done|].
        rewrite lookup_alter_ne by done. apply Hg. }
      cbn [pred set_pred].
      destruct (decide (size (alter (fun st : gset addr => st ∖ {[a]})
                  (UID (Predicate s)) (pred g) !!! UID (Predicate s)) = 0%nat))
        as [Hs|Hs].
      * case_decide; intros k st; cbn [pred set_pred set_termIDs set_ids];
          apply Hdel.
      * intros k st. cbn [pred set_pred]. rewrite lookup_alter.
        case_decide as Hk; [|apply Hg]. subst k.
        intros Hst Hem. apply Hs.
        rewrite lookup_total_alt, lookup_alter, decide_True by done.
        rewrite Hst, Hem. cbn. apply size_empty.
  - intros k st. cbn. by rewrite lookup_empty.
Qed.

End Inhabited.

Section PredicatesListed.
Context `{Runtime}.

Lemma order_nonempty {A} (l : list A) : l ≠ [] -> order l ≠ [].
Proof.
  intros Hl Ho. apply Hl. apply Permutation_nil.
  rewrite <- Ho. apply order_perm.
Qed.

Lemma predLoop_spec h sets :
  Forall (fun st : gset addr => st ≠ ∅) sets ->
  forall p i, (i + length sets <= length p)%nat ->
  exists picks,
    predLoop h sets p i
    = Ok (take i p ++ picks ++ drop (i + length sets) p)
    /\ Forall2 (fun st t => exists a, a ∈ st /\ t = Predicate (h !!! a))
               sets picks.
Proof.
  induction 1 as [|st sets Hst _ IH]; intros p i Hlen; cbn [predLoop length].
  - exists []. split; [|constructor].
    by rewrite Nat.add_0_r, app_nil_l, take_drop.
  - cbn [length] in Hlen.
    destruct (order (elements st)) as [|s ss] eqn:Ho.
    { exfalso. apply (order_nonempty (elements st)); [|done].
      intros He. apply Hst. by apply elements_empty_inv in He as ->%leibniz_equiv. }
    rewrite decide_True by lia.
    destruct (IH (<[i := Predicate (h !!! s)]> p) (S i)) as (picks & -> & Hp).
    { rewrite length_insert. lia. }
    exists (Predicate (h !!! s) :: picks). split.
    + f_equal. rewrite (take_S_r _ _ (Predicate (h !!! s))); cycle 1.
      { apply list_lookup_insert_eq. lia. }
      rewrite take_insert_ge by lia. rewrite drop_insert_lt by lia.
      rewrite <- app_assoc. cbn [app].
      by replace (S i + length sets)%nat with (i + S (length sets))%nat by lia.
    + constructor; [|done]. exists s. split; [|done].
      apply elem_of_elements. rewrite <- (order_perm _ (elements st)), Ho.
      by left.
Qed.

(** On a graph built by calls, [Predicates] returns one term for every
    handle of the predicate index, in the order of the iteration: the
    predicate of one of the statements recorded under that handle. No
    slot of the result is left at its zero value. *)
Theorem Predicates_listed h ops :
  let w := history h ops in
  exists p,
    Predicates w = Ok p
    /\ Forall2 (fun st t => exists a, a ∈ st /\ t = Predicate (heap w !!! a))
               (order ((map_to_list (pred (graph w))).*2)) p.
Proof.
  intros w. unfold Predicates.
  set (sets := order ((map_to_list (pred (graph w))).*2)).
  assert (length sets = size (pred (graph w))) as Hlen.
  { unfold sets. rewrite (order_perm _ _), length_fmap.
    apply length_map_to_list. }
  assert (Forall (fun st : gset addr => st ≠ ∅) sets) as Hne.
  { apply Forall_forall. intros st Hst. unfold sets in Hst.
    rewrite (order_perm _ _) in Hst.
    apply list_elem_of_fmap in Hst as ([k st'] & -> & Hk).
    apply elem_of_map_to_list in Hk.
    by apply (inhabited_pred_history h ops k). }
  destruct (predLoop_spec (heap w) sets Hne
              (replicate (size (pred (graph w))) inhabitant) 0)
    as (picks & Hloop & Hpicks).
  { rewrite length_replicate. lia. }
  exists picks. split; [|done]. fold w sets. rewrite Hloop.
  rewrite take_0, app_nil_l, drop_ge, app_nil_r; [done|].
  rewrite length_replicate. lia.
Qed.

End PredicatesListed.


(** ** Depths, shortest paths and common ancestors *)

Section TraceOrder.
Context `{Runtime}.
Variable G : TraverseGraph.
Variable Traverse : list addr -> bool.

(** The walk hands the nodes to its callback in the order of their
    depths. *)
Lemma bfsTrace_sorted fuel :
  forall queue visited depth children untilNext tr,
    bfsTrace G Traverse fuel queue visited depth children untilNext = Ok tr ->
    Forall (fun p : Term * Z => depth <= p.2) tr
    /\ StronglySorted (fun p1 p2 : Term * Z => p1.2 <= p2.2) tr.
Proof.
  induction fuel as [|fuel IH];
    intros queue visited depth children untilNext tr;
    destruct queue as [|t queue]; simpl; try done.
  - intros [= <-]. split; constructor.
  - intros [= <-]. split; constructor.
  - destruct (enqueueAll _ _ _ _ _ _ _) as [[[v' q'] c']|e]; [|done].
    destruct (decide (untilNext - 1 = 0)).
    + destruct (bfsTrace _ _ _ _ _ _ _ _) as [tr'|?] eqn:Htr; [|done].
      intros [= <-]. destruct (IH _ _ _ _ _ _ Htr) as [Hall Hs].
      assert (Forall (fun p : Term * Z => depth <= p.2) tr') as Hall'.
      { eapply Forall_impl; [exact Hall|]. simpl. intros; lia. }
      split; constructor; simpl; try done; lia.
    + destruct (bfsTrace _ _ _ _ _ _ _ _) as [tr'|?] eqn:Htr; [|done].
      intros [= <-]. destruct (IH _ _ _ _ _ _ Htr) as [Hall Hs].
      split; constructor; simpl; try done; lia.
Qed.

End TraceOrder.

Section Reach.
Variable E : Z -> Z -> Prop.
Variable N : Z -> Term.
Variable s : Term.
Variable tr : list (Term * Z).
Hypothesis node : forall u v, E u v -> ID (N v) = v.
Hypothesis visits : forall x d, (x, d) ∈ tr <->
  (x = s /\ d = 0)
  \/ (d > 0 /\ dist E (ID s) (ID x) (Z.to_nat d) /\ N (ID x) = x).

(** Every node that a path from the start reaches is visited. *)
Lemma trace_reach n v :
  path E n (ID s) v -> exists x d, (x, d) ∈ tr /\ ID x = v.
Proof.
  remember (ID s) as u eqn:Hu. intros Hp.
  induction Hp as [u|n u v z Hp IH Hvz]; subst.
  { exists s, 0. split; [|done]. apply visits. by left. }
  destruct (decide (Exists (fun p : Term * Z => ID p.1 = z) tr)) as [Hex|Hno].
  { apply Exists_exists in Hex as ([x d] & Hin & Hid).
    exists x, d. by split. }
  exfalso.
  assert (forall m, ~ path E m (ID s) z) as Hnone.
  { intros m. induction (lt_wf m) as [m _ IHm]. intros Hm.
    apply Hno, Exists_exists.
    destruct m as [|m].
    - apply path_zero in Hm as ->. exists (s, 0). split; [|done].
      apply visits. by left.
    - exists (N z, Z.of_nat (S m)). pose proof (node _ _ Hvz) as Hz.
      split; [|done]. apply visits. right.
      split; [lia|]. rewrite Hz, Nat2Z.id. split; [|done].
      split; [done|]. intros k Hk Hpk. by apply (IHm k). }
  apply (Hnone (S n)). by eapply path_step.
Qed.

(** A visited node is reached, by a shortest path of as many edges as
    its depth. *)
Lemma trace_dist x d :
  (x, d) ∈ tr -> 0 <= d /\ dist E (ID s) (ID x) (Z.to_nat d).
Proof.
  intros [[-> ->]|(Hd & Hdist & _)]%visits.
  - split; [done|]. apply dist_zero.
  - split; [lia|done].
Qed.

End Reach.

(** The callback of [IsDescendantOf] along the visits. *)
Lemma scan_find_cases (a : Term) tr :
  let r := (scan (fun n dn (st : bool * Z) =>
                    if decide (n = a) then (true, (true, dn)) else (false, st))
                 tr (false, -1)).2 in
  (exists d, r = (true, d) /\ (a, d) ∈ tr)
  \/ (r = (false, -1) /\ forall d, (a, d) ∉ tr).
Proof.
  cbv zeta. induction tr as [|[n dn] tr IH]; cbn [scan].
  - right. split; [done|]. intros d. apply not_elem_of_nil.
  - case_decide as Hn.
    + subst n. left. exists dn. split; [done|by left].
    + destruct IH as [(d & Hr & Hin)|[Hr Hno]].
      * left. exists d. split; [done|by right].
      * right. split; [done|]. intros d [[= ? ?]|Hin]%elem_of_cons; [done|].
        by apply (Hno d).
Qed.

(** The callback of [DescendantsOf] along the visits. *)
Lemma scan_descendants (t : Term) tr desc0 :
  scan (fun n d desc =>
          (false, if decide (n ≠ t) then desc ++ [mkDescendant n d]
                  else desc)) tr desc0
  = (None, desc0 ++ ((fun p : Term * Z => mkDescendant p.1 p.2)
                      <$> filter (fun p : Term * Z => p.1 ≠ t) tr)).
Proof.
  revert desc0. induction tr as [|[n dn] tr IH]; intros desc0; cbn [scan].
  - by rewrite filter_nil, fmap_nil, app_nil_r.
  - rewrite IH, filter_cons. simpl. case_decide; [|done].
    by rewrite fmap_cons, <- app_assoc.
Qed.

(** The first callback of [ClosestCommonAncestor] along the visits. *)
Lemma scan_seen tr (seen0 : gset Z) :
  exists seen,
    scan (fun n (d : Z) (seen : gset Z) => (false, seen ∪ {[ ID n ]})) tr seen0
    = (None, seen)
    /\ forall v, v ∈ seen <-> v ∈ seen0 \/ exists x d, (x, d) ∈ tr /\ ID x = v.
Proof.
  revert seen0. induction tr as [|[n dn] tr IH]; intros seen0; cbn [scan].
  - exists seen0. split; [done|]. intros v. split; [by left|].
    intros [?|(x & d & []%elem_of_nil & _)]. done.
  - destruct (IH (seen0 ∪ {[ID n]})) as (seen & -> & Hseen).
    exists seen. split; [done|]. intros v. rewrite Hseen, elem_of_union,
      elem_of_singleton. split.
    + intros [[?| ->]|(x & d & Hin & Hid)]; [by left|right|right].
      * exists n, dn. split; [by left|done].
      * exists x, d. split; [by right|done].
    + intros [?|(x & d & [[= -> ->]|Hin]%elem_of_cons & Hid)].
      * left. by left.
      * left. by right.
      * right. eauto.
Qed.

(** The second one: it stops at the first visit of a node that was
    seen. *)
Lemma scan_first (seen : gset Z) tr :
  let rok := (scan (fun n (d : Z) (st : Term * bool) =>
                      if decide (ID n ∈ seen) then (true, (n, true))
                      else (false, st))
                   tr (inhabitant, false)).2 in
  (exists r d pre post,
     rok = (r, true) /\ tr = pre ++ (r, d) :: post /\ ID r ∈ seen
     /\ forall p, p ∈ pre -> ID p.1 ∉ seen)
  \/ (rok = (inhabitant, false) /\ forall p, p ∈ tr -> ID p.1 ∉ seen).
Proof.
  cbv zeta. induction tr as [|[n dn] tr IH]; cbn [scan].
  - right. split; [done|]. by intros p []%elem_of_nil.
  - case_decide as Hn.
    + left. exists n, dn, [], tr. split; [done|]. split; [done|].
      split; [done|]. by intros p []%elem_of_nil.
    + destruct IH as [(r & d & pre & post & Hr & -> & Hin & Hpre)|[Hr Hno]].
      * left. exists r, d, ((n, dn) :: pre), post. split; [done|].
        split; [done|]. split; [done|].
        intros p [-> |Hp]%elem_of_cons; [done|by apply Hpre].
      * right. split; [done|].
        intros p [-> |Hp]%elem_of_cons; [done|by apply Hno].
Qed.

Lemma dist_ext (E E' : Z -> Z -> Prop) u v d :
  (forall x y, E x y <-> E' x y) -> dist E u v d -> dist E' u v d.
Proof.
  intros HE [Hp Hmin]. split.
  - eapply path_mono; [|exact Hp]. intros x y. by apply HE.
  - intros n Hn Hpn. apply (Hmin n Hn).
    eapply path_mono; [|exact Hpn]. intros x y. by apply HE.
Qed.

Lemma dist_flip (E : Z -> Z -> Prop) u v d :
  dist (fun x y => E y x) v u d <-> dist E u v d.
Proof.
  split; intros [Hp Hmin]; split.
  - by apply path_flip in Hp.
  - intros n Hn Hpn. apply (Hmin n Hn). by apply path_flip.
  - by apply path_flip.
  - intros n Hn Hpn. apply (Hmin n Hn). by apply path_flip in Hpn.
Qed.

Lemma sorted_filter {A} (R : A -> A -> Prop) (P : A -> Prop)
    `{!forall x, Decision (P x)} (l : list A) :
  StronglySorted R l -> StronglySorted R (filter P l).
Proof.
  induction 1 as [|x l Hs IH Hall]; [constructor|].
  rewrite filter_cons. case_decide; [|done]. constructor; [done|].
  rewrite Forall_forall in *. intros y [_ Hy]%list_elem_of_filter. by apply Hall.
Qed.

Section Ancestry.
Context `{Runtime}.
Variable w : World.
Variable nm : Names.
Hypothesis sound : consistent w.
Hypothesis established : names (graph w) = Some nm.

Local Abbreviation g := (graph w).
Local Abbreviation h := (heap w).
Local Abbreviation N := (fun v : Z => nodes g !!! v).
Local Abbreviation up :=
  (follows (forward g) (fun e => ConnectedByAny h e (isaTo nm))).
Local Abbreviation down :=
  (follows (reverse g) (fun e => ConnectedByAny h e (isaFrom nm))).

(** The edges that the walk up follows are the lines that pass the test
    of the walk. *)
Lemma up_linked u v : up u v <-> linked w (isaTo nm) u v.
Proof.
  rewrite (follows_forward w nm sound). unfold linked, isaTo. split.
  - intros [(l & x & Hl & Hp) Hgo]. exists l, x. split; [done|].
    destruct (line_from w sound _ _ _ _ Hl) as (_ & <- & _).
    rewrite Hgo. by apply bool_decide_eq_true.
  - intros (l & x & Hl & [Hgo Hp]%andb_true_iff).
    apply bool_decide_eq_true in Hp.
    destruct (line_from w sound _ _ _ _ Hl) as (_ & -> & _). eauto.
Qed.

(** The walk down follows the same lines backwards, with its own
    test. *)
Lemma down_linked v u : down v u <-> linked w (isaFrom nm) u v.
Proof.
  rewrite (follows_reverse w nm sound). unfold linked, isaFrom. split.
  - intros [(l & x & Hl & Hp) Hgo]. exists l, x. split; [done|].
    destruct (line_from w sound _ _ _ _ Hl) as (<- & _).
    rewrite Hgo. by apply bool_decide_eq_true.
  - intros (l & x & Hl & [Hgo Hp]%andb_true_iff).
    apply bool_decide_eq_true in Hp.
    destruct (line_from w sound _ _ _ _ Hl) as (-> & _). eauto.
Qed.

Lemma up_node u v : up u v -> nodes g !! v = Some (N v).
Proof.
  intros (n & Hn & <- & _). simpl in Hn. unfold From in Hn.
  apply list_elem_of_fmap in Hn as (k & Hk & _). symmetry in Hk.
  destruct (node_ID w sound _ _ Hk) as [-> HN]. by rewrite HN.
Qed.

Lemma down_node u v : down u v -> nodes g !! v = Some (N v).
Proof.
  intros (n & Hn & <- & _). simpl in Hn. unfold To in Hn.
  apply list_elem_of_fmap in Hn as (k & Hk & _). symmetry in Hk.
  destruct (node_ID w sound _ _ Hk) as [-> HN]. by rewrite HN.
Qed.

Lemma node_of_ID v : nodes g !! v = Some (N v) -> ID (N v) = v.
Proof. intros Hv. by destruct (node_ID w sound _ _ Hv). Qed.

(** The visits of the walk up from a node. *)
Lemma walk_up (s : Term) :
  nodes g !! UID s = Some s ->
  exists tr,
    bfsTrace (forward g) (fun e => ConnectedByAny h e (isaTo nm))
             (tBound (forward g)) [s] {[ ID s ]} 0 0 1 = Ok tr
    /\ forall x d, (x, d) ∈ tr <->
         (x = s /\ d = 0)
         \/ (d > 0 /\ dist up (ID s) (ID x) (Z.to_nat d) /\ N (ID x) = x).
Proof.
  intros Hs. destruct (node_ID w sound _ _ Hs) as [_ HNs].
  apply (bfsTrace_start (forward g) _ N (dom (nodes g))
           (yields_forward w sound) (no_nil_forward w sound) s HNs).
  by apply bound_enough.
Qed.

Lemma walk_down (s : Term) :
  nodes g !! UID s = Some s ->
  exists tr,
    bfsTrace (reverse g) (fun e => ConnectedByAny h e (isaFrom nm))
             (tBound (reverse g)) [s] {[ ID s ]} 0 0 1 = Ok tr
    /\ forall x d, (x, d) ∈ tr <->
         (x = s /\ d = 0)
         \/ (d > 0 /\ dist down (ID s) (ID x) (Z.to_nat d) /\ N (ID x) = x).
Proof.
  intros Hs. destruct (node_ID w sound _ _ Hs) as [_ HNs].
  apply (bfsTrace_start (reverse g) _ N (dom (nodes g))
           (yields_reverse w sound) (no_nil_reverse w sound) s HNs).
  by apply bound_enough.
Qed.

(** A visited node is a node of the table. *)
Lemma visited_node (s : Term) (E : Z -> Z -> Prop) (tr : list (Term * Z)) x d :
  nodes g !! UID s = Some s ->
  (forall u v, E u v -> nodes g !! v = Some (N v)) ->
  (forall x d, (x, d) ∈ tr <->
     (x = s /\ d = 0)
     \/ (d > 0 /\ dist E (ID s) (ID x) (Z.to_nat d) /\ N (ID x) = x)) ->
  (x, d) ∈ tr -> nodes g !! ID x = Some x.
Proof.
  intros Hs Hnode Hspec [[-> ->]|(Hd & [Hp _] & HN)]%Hspec; [done|].
  destruct (Z.to_nat d) as [|k] eqn:Hk; [lia|].
  apply path_last in Hp as (y & _ & Hy). apply Hnode in Hy.
  by rewrite Hy, HN.
Qed.

(** [IsDescendantOf] returns. When it says yes, the depth is the number
    of lines of a shortest chain of sub-class statements to GO terms
    from [q] to [a]; when it says no, the depth is -1 and there is no
    such chain. *)
Theorem IsDescendantOf_shortest a q :
  nodes g !! UID a = Some a -> nodes g !! UID q = Some q ->
  HasPrefix (Value a) (goTerm nm) = true ->
  HasPrefix (Value q) (goTerm nm) = true ->
  exists yes d,
    IsDescendantOf w a q = Ok (yes, d)
    /\ if yes
       then 0 <= d /\ dist (linked w (isaTo nm)) (ID q) (ID a) (Z.to_nat d)
       else d = -1 /\ ~ reaches w (isaTo nm) (ID q) (ID a).
Proof.
  intros Ha Hq Hga Hgq.
  destruct (walk_up q Hq) as (tr & Htr & Hspec).
  unfold IsDescendantOf, BreadthFirstWalk.
  rewrite established, Hga, Hgq. cbn [negb].
  rewrite (bfsLoop_scan _ _ _ _ _ _ _ _ _ tr _ Htr).
  destruct (scan_find_cases a tr) as [(d & Hr & Hin)|[Hr Hno]];
    destruct (scan _ tr (false, -1)) as [o yd]; simpl in Hr; subst yd.
  - exists true, d. split; [done|].
    destruct (trace_dist up N q tr Hspec a d Hin) as [Hd Hdist].
    split; [done|]. eapply dist_ext; [|exact Hdist]. apply up_linked.
  - exists false, (-1). split; [done|]. split; [done|]. intros [n Hp].
    assert (path up n (ID q) (ID a)) as Hup.
    { eapply path_mono; [|exact Hp]. intros x y. by apply up_linked. }
    destruct (trace_reach up N q tr) with (n := n) (v := ID a)
      as (x & d & Hin & Hid); [|done|done|].
    { intros u v Huv. by apply node_of_ID, (up_node u). }
    pose proof (visited_node q up tr x d Hq up_node Hspec Hin) as Hx.
    rewrite Hid in Hx. unfold ID in Hx. rewrite Ha in Hx.
    injection Hx as ->. by apply (Hno d).
Qed.

(** [DescendantsOf] returns the nodes from which a chain of sub-class
    statements from GO terms leads to [t], [t] apart: each with the
    number of lines of a shortest such chain as its depth, in the order
    of their depths. *)
Theorem DescendantsOf_shortest t :
  nodes g !! UID t = Some t ->
  HasPrefix (Value t) (goTerm nm) = true ->
  exists desc,
    DescendantsOf w t = Ok desc
    /\ (forall x d, mkDescendant x d ∈ desc <->
          0 < d /\ nodes g !! ID x = Some x
          /\ dist (linked w (isaFrom nm)) (ID x) (ID t) (Z.to_nat d))
    /\ StronglySorted (fun p q => Depth p <= Depth q) desc.
Proof.
  intros Ht Hgt.
  destruct (walk_down t Ht) as (tr & Htr & Hspec).
  unfold DescendantsOf, BreadthFirstWalk.
  rewrite established, Hgt. cbn [negb].
  rewrite (bfsLoop_scan _ _ _ _ _ _ _ _ _ tr _ Htr).
  rewrite scan_descendants, app_nil_l.
  eexists. split; [done|]. split.
  - intros x d. rewrite list_elem_of_fmap. split.
    + intros ([x' d'] & [= -> ->] & [Hne Hin]%list_elem_of_filter).
      simpl in Hne.
      pose proof (visited_node t down tr x' d' Ht down_node Hspec Hin) as Hx.
      apply Hspec in Hin as [[-> _]|(Hd & Hdist & _)]; [done|].
      split; [lia|]. split; [done|]. apply dist_flip.
      eapply dist_ext; [|exact Hdist]. intros u v. apply down_linked.
    + intros (Hd & Hx & Hdist). exists (x, d). split; [done|].
      apply dist_flip in Hdist.
      apply list_elem_of_filter. simpl. split.
      * intros ->. destruct Hdist as [_ Hmin].
        apply (Hmin 0%nat); [lia|apply path_here].
      * apply Hspec. right. split; [lia|]. split.
        -- eapply dist_ext; [|exact Hdist]. intros u v. simpl.
           by rewrite down_linked.
        -- by rewrite lookup_total_alt, Hx.
  - apply (bfsTrace_sorted _ _ _ _ _ _ _ _) in Htr as [_ Hs].
    apply (StronglySorted_fmap _ (fun p1 p2 : Term * Z => p1.2 <= p2.2)).
    + by intros [x1 d1] [x2 d2].
    + by apply sorted_filter.
Qed.

(** [ClosestCommonAncestor] returns. When it finds a term, the term is a
    node that chains of sub-class statements to GO terms reach from [a]
    and from [b], and no node that they reach from both is nearer to
    [b]; when it finds none, the zero term is returned and no node is
    reached from both. *)
Theorem ClosestCommonAncestor_closest a b :
  nodes g !! UID a = Some a -> nodes g !! UID b = Some b ->
  HasPrefix (Value a) (goTerm nm) = true ->
  HasPrefix (Value b) (goTerm nm) = true ->
  exists r ok,
    ClosestCommonAncestor w a b = Ok (r, ok)
    /\ if ok
       then nodes g !! ID r = Some r
            /\ reaches w (isaTo nm) (ID a) (ID r)
            /\ exists d, dist (linked w (isaTo nm)) (ID b) (ID r) d
                 /\ forall c d', reaches w (isaTo nm) (ID a) c ->
                      dist (linked w (isaTo nm)) (ID b) c d' -> (d <= d')%nat
       else r = inhabitant
            /\ forall c, reaches w (isaTo nm) (ID a) c ->
                 ~ reaches w (isaTo nm) (ID b) c.
Proof.
  intros Ha Hb Hga Hgb.
  unfold ClosestCommonAncestor. rewrite established, Hga, Hgb. cbn [negb orb].
  case_decide as Hab.
  { subst b. exists a, true. split; [done|]. split; [done|].
    split; [exists 0%nat; apply path_here|].
    exists 0%nat. split; [apply dist_zero|]. intros; lia. }
  destruct (walk_up a Ha) as (trA & HtrA & HA).
  destruct (walk_up b Hb) as (trB & HtrB & HB).
  unfold BreadthFirstWalk.
  rewrite (bfsLoop_scan _ _ _ _ _ _ _ _ _ trA _ HtrA).
  destruct (scan_seen trA ∅) as (seen & -> & Hseen).
  rewrite (bfsLoop_scan _ _ _ _ _ _ _ _ _ trB _ HtrB).
  assert (forall u v, up u v -> ID (N v) = v) as Hnode.
  { intros u v Huv. by apply node_of_ID, (up_node u). }
  assert (forall s (tr : list (Term * Z)) n v,
    (forall x d, (x, d) ∈ tr <->
       (x = s /\ d = 0)
       \/ (d > 0 /\ dist up (ID s) (ID x) (Z.to_nat d) /\ N (ID x) = x)) ->
    path (linked w (isaTo nm)) n (ID s) v ->
    exists x d, (x, d) ∈ tr /\ ID x = v) as Hreach.
  { intros s tr n v Hspec Hp.
    apply (trace_reach up N s tr Hnode Hspec n).
    eapply path_mono; [|exact Hp]. intros x y. by apply up_linked. }
  assert (forall v, v ∈ seen <-> reaches w (isaTo nm) (ID a) v) as Hs.
  { intros v. rewrite Hseen. split.
    - intros [[]%elem_of_empty|(x & d & Hin & <-)].
      destruct (trace_dist up N a trA HA x d Hin) as [_ [Hp _]].
      exists (Z.to_nat d). eapply path_mono; [|exact Hp].
      intros u y. by apply up_linked.
    - intros [n Hp]. right. by apply (Hreach a trA n). }
  destruct (scan_first seen trB)
    as [(r & d & pre & post & Hr & Heq & Hin & Hpre)|[Hr Hno]];
    destruct (scan _ trB (inhabitant, false)) as [o rok]; simpl in Hr;
    subst rok.
  - exists r, true. split; [done|].
    assert ((r, d) ∈ trB) as HrB.
    { rewrite Heq, elem_of_app. right. by left. }
    split; [by apply (visited_node b up trB r d Hb up_node HB)|].
    split; [by apply Hs|].
    destruct (trace_dist up N b trB HB r d HrB) as [Hd Hdist].
    exists (Z.to_nat d). split.
    { eapply dist_ext; [|exact Hdist]. apply up_linked. }
    intros c d' Hc Hdc. apply Hs in Hc.
    destruct (Hreach b trB d' c HB) as (x & dx & Hx & Hid); [by destruct Hdc|].
    destruct (trace_dist up N b trB HB x dx Hx) as [Hdx Hdistx].
    rewrite Hid in Hdistx.
    assert (d' = Z.to_nat dx) as ->.
    { eapply dist_unique; [exact Hdc|].
      eapply dist_ext; [|exact Hdistx]. apply up_linked. }
    apply (bfsTrace_sorted _ _ _ _ _ _ _ _) in HtrB as [_ Hsort].
    rewrite Heq in Hsort, Hx. apply StronglySorted_app_1_r in Hsort.
    apply StronglySorted_cons in Hsort as [Hall _].
    apply elem_of_app in Hx as [Hx|[[= -> ->]|Hx]%elem_of_cons].
    + exfalso. apply (Hpre _ Hx). simpl. by rewrite Hid.
    + done.
    + rewrite Forall_forall in Hall. specialize (Hall _ Hx). simpl in Hall.
      lia.
  - exists inhabitant, false. split; [done|]. split; [done|].
    intros c Hc [n Hp]. apply Hs in Hc.
    destruct (Hreach b trB n c HB Hp) as (x & dx & Hx & Hid).
    apply (Hno _ Hx). simpl. by rewrite Hid.
Qed.

End Ancestry.

Lemma IsDescendantOf_shortest_witness :
  let w := @history plain Ex4.chain [Add 1%nat; Add 2%nat] in
  consistent w
  /\ names (graph w) = Some localNames
  /\ exists yes d,
      @IsDescendantOf plain w Ex4.GO_3 Ex4.GO_1 = Ok (yes, d)
      /\ if yes
         then 0 <= d
              /\ dist (linked w (isaTo localNames)) (ID Ex4.GO_1) (ID Ex4.GO_3)
                      (Z.to_nat d)
         else d = -1
              /\ ~ reaches w (isaTo localNames) (ID Ex4.GO_1) (ID Ex4.GO_3).
Proof.
  cbv zeta.
  assert (consistent (@history plain Ex4.chain [Add 1%nat; Add 2%nat]))
    as Hc.
  { apply (bool_decide_unpack _). by vm_compute. }
  split; [exact Hc|]. split; [by vm_compute|].
  apply (@IsDescendantOf_shortest plain _ localNames Hc); by vm_compute.
Defined.

Lemma DescendantsOf_shortest_witness :
  let w := @history plain Ex4.chain [Add 1%nat; Add 2%nat] in
  consistent w
  /\ names (graph w) = Some localNames
  /\ exists desc,
      @DescendantsOf plain w Ex4.GO_3 = Ok desc
      /\ (forall x d, mkDescendant x d ∈ desc <->
            0 < d /\ nodes (graph w) !! ID x = Some x
            /\ dist (linked w (isaFrom localNames)) (ID x) (ID Ex4.GO_3)
                    (Z.to_nat d))
      /\ StronglySorted (fun p q => Depth p <= Depth q) desc.
Proof.
  cbv zeta.
  assert (consistent (@history plain Ex4.chain [Add 1%nat; Add 2%nat]))
    as Hc.
  { apply (bool_decide_unpack _). by vm_compute. }
  split; [exact Hc|]. split; [by vm_compute|].
  apply (@DescendantsOf_shortest plain _ localNames Hc); by vm_compute.
Defined.

Lemma ClosestCommonAncestor_closest_witness :
  let w := @history plain Ex4.chain [Add 1%nat; Add 2%nat] in
  consistent w
  /\ names (graph w) = Some localNames
  /\ @ClosestCommonAncestor plain w Ex4.GO_1 Ex4.GO_2 = Ok (Ex4.GO_2, true)
  /\ exists r ok,
      @ClosestCommonAncestor plain w Ex4.GO_1 Ex4.GO_2 = Ok (r, ok)
      /\ if ok
         then nodes (graph w) !! ID r = Some r
              /\ reaches w (isaTo localNames) (ID Ex4.GO_1) (ID r)
              /\ exists d,
                   dist (linked w (isaTo localNames)) (ID Ex4.GO_2) (ID r) d
                   /\ forall c d',
                        reaches w (isaTo localNames) (ID Ex4.GO_1) c ->
                        dist (linked w (isaTo localNames)) (ID Ex4.GO_2) c d' ->
                        (d <= d')%nat
         else r = inhabitant
              /\ forall c, reaches w (isaTo localNames) (ID Ex4.GO_1) c ->
                   ~ reaches w (isaTo localNames) (ID Ex4.GO_2) c.
Proof.
  cbv zeta.
  assert (consistent (@history plain Ex4.chain [Add 1%nat; Add 2%nat]))
    as Hc.
  { apply (bool_decide_unpack _). by vm_compute. }
  split; [exact Hc|]. split; [by vm_compute|]. split; [by vm_compute|].
  apply (@ClosestCommonAncestor_closest plain _ localNames Hc); by vm_compute.
Defined.


(** ** The listings of edges and of statements *)

Section Flat.
Context {A B : Type}.

Lemma concat_perm (l k : list (list A)) : l ≡ₚ k -> concat l ≡ₚ concat k.
Proof.
  induction 1 as [|x l k _ IH|x y l|l k m _ IH1 _ IH2]; simpl.
  - done.
  - by rewrite IH.
  - rewrite !app_assoc. f_equiv. apply Permutation_app_comm.
  - by rewrite IH1.
Qed.

Lemma elem_of_concat (x : A) (ls : list (list A)) :
  x ∈ concat ls <-> exists l, x ∈ l /\ l ∈ ls.
Proof.
  induction ls as [|l ls IH]; simpl.
  - rewrite elem_of_nil. split; [done|]. by intros (l & _ & []%elem_of_nil).
  - rewrite elem_of_app, IH. split.
    + intros [Hx|(l' & Hx & Hl)]; [exists l; split; [done|by left]|].
      exists l'. split; [done|by right].
    + intros (l' & Hx & [->|Hl]%elem_of_cons); [by left|]. right. eauto.
Qed.

Lemma flat_perm (f : B -> list A) (l k : list B) :
  l ≡ₚ k -> concat (f <$> l) ≡ₚ concat (f <$> k).
Proof. intros Hlk. apply concat_perm. by rewrite Hlk. Qed.

Lemma flat_ext (f g : B -> list A) (l : list B) :
  (forall x, x ∈ l -> f x ≡ₚ g x) -> concat (f <$> l) ≡ₚ concat (g <$> l).
Proof.
  induction l as [|x l IH]; intros Hfg; [done|]. rewrite !fmap_cons. simpl.
  rewrite (Hfg x) by (by left). f_equiv. apply IH. intros y Hy. apply Hfg.
  by right.
Qed.

Lemma flat_nil (f : B -> list A) (l : list B) :
  (forall x, x ∈ l -> f x = []) -> concat (f <$> l) = [].
Proof.
  induction l as [|x l IH]; intros Hf; [done|]. rewrite fmap_cons. simpl.
  rewrite (Hf x) by (by left). apply IH. intros y Hy. apply Hf. by right.
Qed.

End Flat.

(** The entries of a list of keys that add nothing can be left out. *)
Lemma flat_subset {A} (f : Z -> list A) (l k : list Z) :
  NoDup l -> NoDup k -> (forall x, x ∈ k -> x ∈ l) ->
  (forall x, x ∈ l -> x ∉ k -> f x = []) ->
  concat (f <$> l) ≡ₚ concat (f <$> k).
Proof.
  intros Hl Hk Hsub Hnil.
  rewrite <- (flat_perm f _ _ (filter_app_complement (fun x => x ∈ k) l)).
  rewrite fmap_app, concat_app.
  rewrite (flat_nil f (filter (fun x => x ∉ k) l)), app_nil_r.
  - apply flat_perm, NoDup_Permutation; [by apply NoDup_filter|done|].
    intros x. rewrite list_elem_of_filter. naive_solver.
  - intros x [Hx Hin]%list_elem_of_filter. by apply Hnil.
Qed.

(** The loop over an iterator yields what its two parts hold, when no
    edge of it is without lines. *)
Lemma statements_run n : forall es ls,
  Forall (fun e => ELines e ≠ []) es ->
  (length ls + length (concat (ELines <$> es)) <= n)%nat ->
  statements n (mkStatements (Some es) (Some ls))
  = ls ++ concat (ELines <$> es).
Proof.
  induction n as [|n IH]; intros es ls Hes Hn.
  - destruct ls; [|simpl in Hn; lia].
    destruct (concat (ELines <$> es)); [done|simpl in Hn; lia].
  - destruct ls as [|a rest]; cbn [statements Next lit eit].
    + destruct es as [|e es]; [done|].
      apply Forall_cons in Hes as [He Hes]. rewrite fmap_cons in *.
      simpl in Hn. destruct (ELines e) as [|a rest]; [done|].
      rewrite (IH es rest Hes); [done|]. rewrite length_app in Hn.
      simpl in Hn. lia.
    + simpl in Hn. rewrite (IH es rest Hes); [done|lia].
Qed.

Lemma statements_start n es :
  statements n (mkStatements (Some es) None)
  = statements n (mkStatements (Some es) (Some [])).
Proof. destruct n; [done|]. cbn [statements Next lit eit]. by destruct es. Qed.

Lemma statements_lines n ls :
  (length ls <= n)%nat -> statements n (mkStatements None (Some ls)) = ls.
Proof.
  revert ls. induction n as [|n IH]; intros ls Hn.
  - destruct ls; [done|simpl in Hn; lia].
  - destruct ls as [|a rest]; cbn [statements Next lit eit]; [done|].
    simpl in Hn. rewrite IH; [done|lia].
Qed.

Lemma elem_of_allLines (idx : Index) a :
  a ∈ allLines idx <-> exists u v l, line idx u v l = Some a.
Proof.
  unfold allLines. rewrite elem_of_concat. split.
  - intros (ls & Ha & (mu & -> & ([u mu'] & -> & Hu)%list_elem_of_fmap)%list_elem_of_fmap).
    apply elem_of_map_to_list in Hu. simpl in Ha.
    apply elem_of_concat in Ha
      as (ls & Ha & (c & -> & ([v c'] & -> & Hv)%list_elem_of_fmap)%list_elem_of_fmap).
    apply elem_of_map_to_list in Hv. simpl in Ha.
    apply list_elem_of_fmap in Ha as ([l a'] & -> & Hl).
    apply elem_of_map_to_list in Hl. exists u, v, l.
    rewrite line_alt, Hu. simpl. rewrite Hv. done.
  - intros (u & v & l & Hl). rewrite line_alt in Hl.
    destruct (idx !! u) as [mu|] eqn:Hu; [|done]. simpl in Hl.
    destruct (mu !! v) as [c|] eqn:Hv; [|done]. simpl in Hl.
    eexists. split; cycle 1.
    { apply list_elem_of_fmap. exists mu. split; [done|].
      apply list_elem_of_fmap. exists (u, mu). split; [done|].
      by apply elem_of_map_to_list. }
    apply elem_of_concat. eexists. split; cycle 1.
    { apply list_elem_of_fmap. exists c. split; [done|].
      apply list_elem_of_fmap. exists (v, c). split; [done|].
      by apply elem_of_map_to_list. }
    apply list_elem_of_fmap. exists (l, a). split; [done|].
    by apply elem_of_map_to_list.
Qed.

Section Listed.
Context `{Runtime}.

(** The lines of the edges from one node. *)
Lemma edgesFrom_lines w u :
  concat (ELines <$> edgesFrom w u)
  = concat ((fun e : gmap Z addr => order ((map_to_list e).*2))
              <$> order ((map_to_list (from (graph w) !!! ID u)).*2)).
Proof.
  unfold edgesFrom.
  induction (order ((map_to_list (from (graph w) !!! ID u)).*2)) as [|e l IH];
    [done|].
  rewrite fmap_cons. cbn [omap list_omap concat].
  destruct (order ((map_to_list e).*2)) as [|l0 ls] eqn:He.
  - by rewrite IH.
  - rewrite fmap_cons. cbn [concat ELines]. by rewrite IH.
Qed.

Lemma edgesFrom_lined w u : Forall (fun e => ELines e ≠ []) (edgesFrom w u).
Proof.
  unfold edgesFrom. apply Forall_forall. intros e.
  rewrite list_elem_of_omap. intros (c & _ & Hc).
  destruct (order ((map_to_list c).*2)); [done|]. by injection Hc as <-.
Qed.

Lemma Edges_lined w : Forall (fun e => ELines e ≠ []) (Edges w).
Proof.
  unfold Edges. apply Forall_forall. intros e.
  rewrite elem_of_concat.
  intros (es & He & (u & -> & _)%list_elem_of_fmap).
  pose proof (edgesFrom_lined w u) as Hall. rewrite Forall_forall in Hall.
  by apply Hall.
Qed.

Lemma concat_concat_fmap {A B} (f : A -> list B) (ls : list (list A)) :
  concat (f <$> concat ls) = concat ((fun l => concat (f <$> l)) <$> ls).
Proof.
  induction ls as [|l ls IH]; [done|]. simpl.
  by rewrite fmap_app, concat_app, IH.
Qed.

(** The lines of the edges of a graph in which every node is stored
    under its ID and every ID with an entry in the index is one of a
    node. *)
Lemma Edges_lines w :
  keyed (graph w) ->
  (forall u, is_Some (from (graph w) !! u) -> is_Some (nodes (graph w) !! u)) ->
  concat (ELines <$> Edges w) ≡ₚ allLines (from (graph w)).
Proof.
  intros Hkeyed Hanch. unfold Edges, allLines.
  rewrite concat_concat_fmap, <- list_fmap_compose.
  set (F := fun k : Z =>
    concat ((fun c : gmap Z addr => (map_to_list c).*2)
              <$> (map_to_list (from (graph w) !!! k)).*2)).
  transitivity (concat ((F ∘ ID) <$> (map_to_list (nodes (graph w))).*2)).
  { rewrite (flat_perm _ _ _ (order_perm _ _)). apply flat_ext.
    intros u _. unfold compose. rewrite edgesFrom_lines.
    rewrite (flat_perm _ _ _ (order_perm _ _)). apply flat_ext.
    intros c _. apply order_perm. }
  transitivity (concat (F <$> (map_to_list (nodes (graph w))).*1)).
  { rewrite <- !list_fmap_compose. apply flat_ext.
    intros [k n] Hkn%elem_of_map_to_list. unfold compose. simpl.
    by rewrite (Hkeyed k n Hkn). }
  transitivity (concat (F <$> (map_to_list (from (graph w))).*1)).
  { apply flat_subset.
    - apply NoDup_fst_map_to_list.
    - apply NoDup_fst_map_to_list.
    - intros u ([u' mu] & -> & Hu%elem_of_map_to_list)%list_elem_of_fmap.
      destruct (Hanch u') as [n Hn]; [by eexists|].
      apply list_elem_of_fmap. exists (u', n). split; [done|].
      by apply elem_of_map_to_list.
    - intros u _ Hu. unfold F.
      assert (from (graph w) !! u = None) as Hnone.
      { destruct (from (graph w) !! u) as [mu|] eqn:Hmu; [|done].
        exfalso. apply Hu, list_elem_of_fmap. exists (u, mu).
        split; [done|]. by apply elem_of_map_to_list. }
      rewrite lookup_total_alt, Hnone. simpl. by rewrite map_to_list_empty. }
  rewrite <- !list_fmap_compose.
  apply flat_ext. intros [u mu] Hu%elem_of_map_to_list. unfold compose, F.
  simpl. by rewrite lookup_total_alt, Hu.
Qed.

(** The loop over [AllStatements] yields every line of the graph once:
    for every sequence of calls, the statements of the loop, when it
    has turns enough to end, are the lines of the forward index, each as
    often as the index holds it; they are the statements found in a
    cell of the index. *)
Theorem AllStatements_lists h ops k :
  let w := history h ops in
  let all := allLines (from (graph w)) in
  statements (length all + k) (AllStatements w) ≡ₚ all
  /\ forall a, a ∈ statements (length all + k) (AllStatements w)
       <-> exists u v l, line (from (graph w)) u v l = Some a.
Proof.
  intros w all.
  assert (concat (ELines <$> Edges w) ≡ₚ all) as Hall.
  { pose proof (kept_history h ops) as (_ & _ & _ & [Ha _] & Hk).
    by apply Edges_lines. }
  assert (statements (length all + k) (AllStatements w) ≡ₚ all) as Hperm.
  { unfold AllStatements. rewrite statements_start, statements_run.
    - done.
    - apply Edges_lined.
    - rewrite Hall. simpl. lia. }
  split; [done|]. intros a. rewrite Hperm. apply elem_of_allLines.
Qed.

(** After every sequence of calls, [Nodes] yields every node of the
    table once: no two of the nodes that it yields have the same ID, and
    it yields a term if and only if [Node] returns this term for its
    ID. *)
Theorem Nodes_listed h ops :
  let g := graph (history h ops) in
  NoDup (ID <$> Nodes g)
  /\ forall n, n ∈ Nodes g <-> Node g (ID n) = Some n.
Proof.
  intros g. pose proof (kept_history h ops) as (_ & _ & _ & _ & Hkeyed).
  fold g in Hkeyed. unfold Nodes, Node. split.
  - rewrite (order_perm _ _).
    assert (ID <$> (map_to_list (nodes g)).*2 = (map_to_list (nodes g)).*1)
      as ->; [|apply NoDup_fst_map_to_list].
    rewrite <- list_fmap_compose. apply list_fmap_ext.
    intros i [k n] Hkn%list_elem_of_lookup_2%elem_of_map_to_list. simpl.
    by apply Hkeyed.
  - intros n. rewrite (order_perm _ _), list_elem_of_fmap. split.
    + intros ([k n'] & -> & Hk%elem_of_map_to_list). simpl.
      by rewrite (Hkeyed _ _ Hk).
    + intros Hn. exists (ID n, n). split; [done|]. by apply elem_of_map_to_list.
Qed.

(** The loop over [g.Statements(u, v)] yields the lines from [u] to
    [v], in the order of [Lines]; an iterator whose first edge is
    without lines yields nothing, whatever follows that edge. *)
Theorem Statements_of_an_edge g u v k f t es n :
  statements (length (Lines g u v) + k) (GraphStatements g u v) = Lines g u v
  /\ statements n (mkStatements (Some (mkEdge f t [] :: es)) None) = [].
Proof.
  split.
  - unfold GraphStatements. apply statements_lines. lia.
  - by destruct n.
Qed.

Lemma order_of_nil {A} : order (@nil A) = [].
Proof. apply Permutation_nil_r, order_perm. Qed.

(** [Edges] lists the cells of the forward index that hold a line: in a
    graph whose statements agree with its node table, an edge is listed
    if and only if it is the edge of two nodes [nu] and [nv], neither
    end nil, with the lines from the one to the other, of which there
    is one at least. *)
Theorem Edges_listed w e :
  consistent w ->
  e ∈ Edges w
  <-> exists u v nu nv,
        nodes (graph w) !! u = Some nu /\ nodes (graph w) !! v = Some nv
        /\ Lines (graph w) u v ≠ []
        /\ e = mkEdge (Some nu) (Some nv) (Lines (graph w) u v).
Proof.
  intros sound.
  assert (forall u v c l0 ls,
    (from (graph w) !!! u) !! v = Some c ->
    order ((map_to_list c).*2) = l0 :: ls ->
    Lines (graph w) u v = l0 :: ls
    /\ Node (graph w) (ID (Object (heap w !!! l0)))
       = Some (Object (heap w !!! l0))
    /\ nodes (graph w) !! v = Some (Object (heap w !!! l0))) as Hcell.
  { intros u v c l0 ls Hc Hl.
    assert (cell (from (graph w)) u v = c) as Hcl.
    { unfold cell. by rewrite (lookup_total_alt _ v), Hc. }
    assert (Lines (graph w) u v = l0 :: ls) as HL.
    { unfold Lines. by rewrite Hcl. }
    split; [done|].
    assert (l0 ∈ Lines (graph w) u v) as [l Hline]%elem_of_Lines.
    { rewrite HL. by left. }
    destruct (line_from w sound _ _ _ _ Hline) as (_ & Hv & [nv Hnv] & _).
    destruct (node_ID w sound _ _ Hnv) as [Hid HN].
    rewrite HN in Hv. subst nv. unfold Node. by rewrite Hid. }
  unfold Edges. rewrite elem_of_concat. split.
  - intros (es & He & (n & -> & Hn)%list_elem_of_fmap).
    rewrite (order_perm _ _) in Hn.
    apply list_elem_of_fmap in Hn as ([k n'] & -> & Hk%elem_of_map_to_list).
    simpl in He. destruct (node_ID w sound _ _ Hk) as [Hid _].
    unfold edgesFrom in He. apply list_elem_of_omap in He as (c & Hc & Hsome).
    rewrite (order_perm _ _), Hid in Hc.
    apply list_elem_of_fmap in Hc as ([v c'] & -> & Hv%elem_of_map_to_list).
    simpl in Hsome.
    destruct (order ((map_to_list c').*2)) as [|l0 ls] eqn:Hl; [done|].
    injection Hsome as <-.
    destruct (Hcell k v c' l0 ls Hv Hl) as (HL & HT & Hnv).
    exists k, v, n', (Object (heap w !!! l0)).
    split; [done|]. split; [done|]. rewrite HL. split; [done|].
    unfold Node at 1. by rewrite Hid, Hk, HT.
  - intros (u & v & nu & nv & Hu & Hv & Hne & ->).
    destruct (node_ID w sound _ _ Hu) as [Hid _].
    exists (edgesFrom w nu). split; cycle 1.
    { apply list_elem_of_fmap. exists nu. split; [done|].
      rewrite (order_perm _ _). apply list_elem_of_fmap. exists (u, nu).
      split; [done|]. by apply elem_of_map_to_list. }
    destruct ((from (graph w) !!! u) !! v) as [c|] eqn:Hc; cycle 1.
    { exfalso. apply Hne. unfold Lines, cell.
      rewrite (lookup_total_alt _ v), Hc. simpl.
      rewrite map_to_list_empty. simpl. apply order_of_nil. }
    unfold edgesFrom. apply list_elem_of_omap. exists c. split.
    { rewrite (order_perm _ _), Hid. apply list_elem_of_fmap. exists (v, c).
      split; [done|]. by apply elem_of_map_to_list. }
    destruct (order ((map_to_list c).*2)) as [|l0 ls] eqn:Hl.
    { exfalso. apply Hne. unfold Lines, cell.
      by rewrite (lookup_total_alt _ v), Hc. }
    destruct (Hcell u v c l0 ls Hc Hl) as (HL & HT & Hnv).
    rewrite HL, HT. unfold Node. rewrite Hid, Hu. do 3 f_equal. congruence.
Qed.

End Listed.

Lemma Edges_listed_witness :
  let w := @history plain Ex4.chain [Add 1%nat; Add 2%nat] in
  let e := mkEdge (Some Ex4.GO_1) (Some Ex4.GO_2) [1%nat] in
  consistent w
  /\ (e ∈ @Edges plain w
      <-> exists u v nu nv,
            nodes (graph w) !! u = Some nu /\ nodes (graph w) !! v = Some nv
            /\ @Lines plain (graph w) u v ≠ []
            /\ e = mkEdge (Some nu) (Some nv) (@Lines plain (graph w) u v)).
Proof.
  cbv zeta.
  assert (consistent (@history plain Ex4.chain [Add 1%nat; Add 2%nat]))
    as Hc.
  { apply (bool_decide_unpack _). by vm_compute. }
  split; [exact Hc|].
  apply (@Edges_listed plain _ _ Hc).
Defined.


(** ** The query algebra, as sets of handles *)

Lemma Forall_sub {A} (P : A -> Prop) (l k : list A) :
  sublist l k -> Forall P k -> Forall P l.
Proof.
  induction 1 as [|x l k _ IH|x l k _ IH]; intros Hk; [done|..].
  - apply Forall_cons in Hk as [Hx Hk]. constructor; auto.
  - apply Forall_cons in Hk as [Hx Hk]. auto.
Qed.

Lemma sorted_sub {A} (R : A -> A -> Prop) (l k : list A) :
  sublist l k -> StronglySorted R k -> StronglySorted R l.
Proof.
  induction 1 as [|x l k Hlk IH|x l k _ IH]; intros Hk; [done|..].
  - apply StronglySorted_cons in Hk as [Hx Hk].
    constructor; [auto|]. by eapply Forall_sub.
  - apply StronglySorted_cons in Hk as [Hx Hk]. auto.
Qed.

Lemma sorted_drop_all l i : StronglySorted byID l -> StronglySorted byID (drop i l).
Proof. apply sorted_sub, sublist_drop. Qed.

(** A frontier in strictly ascending order of handle. *)
Lemma ascending_NoDup l :
  StronglySorted (fun x y => ID x < ID y) l -> NoDup (ID <$> l).
Proof.
  induction 1 as [|x l _ IH Hall]; [constructor|].
  rewrite fmap_cons. apply NoDup_cons. split; [|done].
  intros (y & Hy & Hin)%list_elem_of_fmap. rewrite Forall_forall in Hall.
  specialize (Hall y Hin). lia.
Qed.

Lemma ascending_byID l :
  StronglySorted (fun x y => ID x < ID y) l -> StronglySorted byID l.
Proof.
  induction 1 as [|x l _ IH Hall]; constructor; [done|].
  eapply Forall_impl; [exact Hall|]. unfold byID. simpl. intros; lia.
Qed.

Lemma filter_none {A} (P : A -> Prop) `{!forall x, Decision (P x)} (l : list A) :
  (forall x, x ∈ l -> ~ P x) -> filter P l = [].
Proof.
  induction l as [|x l IH]; intros HP; [done|].
  rewrite filter_cons_False by (apply HP; by left).
  apply IH. intros y Hy. apply HP. by right.
Qed.

(** The loop of [Unique] on a sorted frontier: it keeps the first term
    of every handle. *)
Lemma uniqueLoop_spec l : forall prev r,
  StronglySorted byID l ->
  (forall x, prev = Some x -> Forall (fun y => ID x <= ID y) l) ->
  exists u,
    uniqueLoop prev l r = r ++ u
    /\ sublist u l
    /\ StronglySorted (fun x y => ID x < ID y) u
    /\ (forall x, prev = Some x -> Forall (fun y => ID x < ID y) u)
    /\ (forall y, y ∈ l ->
          ID y ∈ ID <$> u \/ exists x, prev = Some x /\ ID x = ID y).
Proof.
  induction l as [|t l IH]; intros prev r Hs Hprev.
  - exists []. simpl. rewrite app_nil_r. split; [done|].
    split; [constructor|]. split; [constructor|]. split; [by constructor|].
    by intros y []%elem_of_nil.
  - apply StronglySorted_cons in Hs as [Hall Hs].
    assert (forall r', exists u,
      uniqueLoop (Some t) l r' = r' ++ u
      /\ sublist u l
      /\ StronglySorted (fun x y => ID x < ID y) u
      /\ Forall (fun y => ID t < ID y) u
      /\ (forall y, y ∈ l -> ID y ∈ ID <$> u \/ ID t = ID y)) as Hnext.
    { intros r'. destruct (IH (Some t) r' Hs) as (u & Hu & Hsub & Hsu & Hlt & Hin).
      { by intros x [= <-]. }
      exists u. repeat split; try done; [by apply Hlt|].
      intros y Hy. destruct (Hin y Hy) as [?|(x & [= <-] & ?)]; auto. }
    assert (exists u,
      uniqueLoop (Some t) l (r ++ [t]) = r ++ u
      /\ sublist u (t :: l)
      /\ StronglySorted (fun x y => ID x < ID y) u
      /\ (forall x, ID x < ID t -> Forall (fun y => ID x < ID y) u)
      /\ (forall y, y ∈ t :: l -> ID y ∈ ID <$> u)) as Hkeep.
    { destruct (Hnext (r ++ [t])) as (u & Hu & Hsub & Hsu & Hlt & Hin).
      exists (t :: u). split; [by rewrite Hu, <- app_assoc|].
      split; [by constructor|]. split; [by constructor|]. split.
      - intros x Hx. constructor; [done|].
        eapply Forall_impl; [exact Hlt|]. simpl. intros; lia.
      - intros y [->|Hy]%elem_of_cons; rewrite fmap_cons; [by left|].
        destruct (Hin y Hy) as [?|Heq]; [by right|]. rewrite Heq. by left. }
    cbn [uniqueLoop]. destruct prev as [x|].
    + specialize (Hprev x eq_refl). apply Forall_cons in Hprev as [Hxt Hxl].
      case_decide as Hne.
      * destruct Hkeep as (u & Hu & Hsub & Hsu & Hlt & Hin).
        exists u. repeat split; try done.
        -- intros x' [= <-]. apply Hlt. unfold ID in *. lia.
        -- intros y Hy. left. by apply Hin.
      * destruct (Hnext r) as (u & Hu & Hsub & Hsu & Hlt & Hin).
        assert (ID x = ID t) as Hxt'.
        { unfold ID. destruct (decide (UID t = UID x)); [done|]. by destruct Hne. }
        exists u. repeat split; try done.
        -- by constructor.
        -- intros x' [= <-]. by rewrite Hxt'.
        -- intros y [->|Hy]%elem_of_cons; [right; by exists x|].
           destruct (Hin y Hy) as [?|Heq]; [by left|]. right. exists x.
           split; [done|congruence].
    + destruct Hkeep as (u & Hu & Hsub & Hsu & Hlt & Hin).
      exists u. repeat split; try done. intros y Hy. left. by apply Hin.
Qed.

(** ID sets of the frontiers [appendNew] builds. *)
Lemma appendNew_IDs r t x :
  x ∈ ID <$> appendNew r t <-> x ∈ ID <$> r \/ x = ID t.
Proof.
  unfold appendNew, isNew. destruct (last r) as [y|] eqn:Hlast.
  - case_bool_decide as Hne.
    + rewrite fmap_app, elem_of_app, fmap_cons, list_elem_of_singleton. done.
    + assert (UID y = UID t) as Heq.
      { destruct (decide (UID y = UID t)); [done|]. by destruct Hne. }
      apply last_Some in Hlast as [r' ->]. split; [by left|].
      intros [?| ->]; [done|]. rewrite fmap_app, elem_of_app. right.
      rewrite fmap_cons. apply elem_of_cons. left. unfold ID. congruence.
  - rewrite fmap_app, elem_of_app, fmap_cons, list_elem_of_singleton. done.
Qed.

Lemma appendNew_elem r t x : x ∈ appendNew r t -> x ∈ r \/ x = t.
Proof.
  unfold appendNew. destruct (isNew r t); [|by left].
  rewrite elem_of_app, list_elem_of_singleton. done.
Qed.

Lemma appendNew_sorted r t :
  StronglySorted byID r -> (forall x, x ∈ r -> ID x <= ID t) ->
  StronglySorted byID (appendNew r t).
Proof.
  intros Hs Hle. unfold appendNew. destruct (isNew r t); [|done].
  apply StronglySorted_app_2; [|done|repeat constructor].
  intros x y Hx ->%list_elem_of_singleton. by apply Hle.
Qed.

Section Merges.
Context `{Runtime}.

(** The loop of [And] on two sorted frontiers. *)
Lemma andLoop_spec qs ps :
  StronglySorted byID qs -> StronglySorted byID ps ->
  forall n i j r,
    (length qs - i + (length ps - j) <= n)%nat ->
    exists u,
      andLoop n qs ps i j r = r ++ u
      /\ sublist u (drop i qs)
      /\ forall x, x ∈ ID <$> u
           <-> x ∈ ID <$> drop i qs /\ x ∈ ID <$> drop j ps.
Proof.
  intros Sq Sp n. induction n as [|n IH]; intros i j r Hn.
  - exists []. simpl. rewrite app_nil_r. split; [done|].
    split; [apply sublist_nil_l|]. intros x. rewrite ?fmap_nil, elem_of_nil.
    split; [done|]. intros [Hq Hp].
    destruct (decide (length qs <= i)%nat).
    + rewrite (drop_ge qs) in Hq by lia. by apply elem_of_nil in Hq.
    + rewrite (drop_ge ps) in Hp by lia. by apply elem_of_nil in Hp.
  - cbn [andLoop].
    destruct (qs !! i) as [qi|] eqn:Hqi; cycle 1.
    { exists []. rewrite app_nil_r. split; [done|].
      split; [apply sublist_nil_l|]. intros x. rewrite ?fmap_nil, elem_of_nil.
      apply lookup_ge_None in Hqi. rewrite (drop_ge qs) by lia.
      split; [done|]. by intros [[]%elem_of_nil _]. }
    destruct (ps !! j) as [pj|] eqn:Hpj; cycle 1.
    { exists []. rewrite app_nil_r. split; [done|].
      split; [apply sublist_nil_l|]. intros x. rewrite ?fmap_nil, elem_of_nil.
      apply lookup_ge_None in Hpj. rewrite (drop_ge ps) by lia.
      split; [done|]. by intros [_ []%elem_of_nil]. }
    pose proof (lookup_lt_Some _ _ _ Hqi) as Hlq.
    pose proof (lookup_lt_Some _ _ _ Hpj) as Hlp.
    pose proof (sorted_drop _ _ _ Sq Hqi) as Hqs.
    pose proof (sorted_drop _ _ _ Sp Hpj) as Hps.
    rewrite (drop_S qs qi i Hqi), (drop_S ps pj j Hpj).
    assert (forall x, x ∈ ID <$> drop (S i) qs -> ID qi <= x) as Hqs'.
    { intros x (y & -> & Hy)%list_elem_of_fmap. by apply Hqs. }
    assert (forall x, x ∈ ID <$> drop (S j) ps -> ID pj <= x) as Hps'.
    { intros x (y & -> & Hy)%list_elem_of_fmap. by apply Hps. }
    destruct (decide (ID qi < ID pj)) as [Hlt|Hge].
    + destruct (IH (S i) j r) as (u & -> & Hsub & Hin); [lia|].
      exists u. split; [done|]. split; [by constructor|].
      intros x. rewrite Hin, (drop_S ps pj j Hpj), !fmap_cons, !elem_of_cons.
      split; [naive_solver|].
      intros [[->|Hx] [Hp|Hp]]; [lia| |by auto|by auto].
      apply Hps' in Hp. lia.
    + destruct (decide (ID pj < ID qi)) as [Hlt|Hge'].
      * destruct (IH i (S j) r) as (u & -> & Hsub & Hin); [lia|].
        exists u. split; [done|].
        rewrite (drop_S qs qi i Hqi) in Hsub, Hin. split; [done|].
        intros x. rewrite Hin, !fmap_cons, !elem_of_cons.
        split; [naive_solver|].
        intros [[->|Hx] [Hp|Hp]]; [lia|by auto| |by auto].
        apply Hqs' in Hx. lia.
      * destruct (IH (S i) (S j) (r ++ [qi])) as (u & -> & Hsub & Hin); [lia|].
        exists (qi :: u). split; [by rewrite <- app_assoc|].
        split; [by constructor|].
        intros x. rewrite !fmap_cons, !elem_of_cons, Hin.
        split; [intros [->|[? ?]]; [split; left; [done|lia]|by auto]|].
        intros [[->|Hx] [Hp|Hp]]; [by left|by left|left; lia|by right].
Qed.

(** The loop of [Or] on two sorted frontiers. *)
Lemma orLoop_spec qs ps :
  StronglySorted byID qs -> StronglySorted byID ps ->
  forall n i j r,
    (length qs - i + (length ps - j) <= n)%nat ->
    StronglySorted byID r ->
    (forall x y, x ∈ r -> y ∈ drop i qs ++ drop j ps -> ID x <= ID y) ->
    exists i' j' r',
      orLoop n qs ps i j r = (i', j', r')
      /\ StronglySorted byID ((r' ++ drop i' qs) ++ drop j' ps)
      /\ forall x, x ∈ ID <$> ((r' ++ drop i' qs) ++ drop j' ps)
           <-> x ∈ ID <$> r \/ x ∈ ID <$> drop i qs \/ x ∈ ID <$> drop j ps.
Proof.
  intros Sq Sp n.
  assert (forall i j r,
    (drop i qs = [] \/ drop j ps = []) ->
    StronglySorted byID r ->
    (forall x y, x ∈ r -> y ∈ drop i qs ++ drop j ps -> ID x <= ID y) ->
    StronglySorted byID ((r ++ drop i qs) ++ drop j ps)
    /\ forall x, x ∈ ID <$> ((r ++ drop i qs) ++ drop j ps)
         <-> x ∈ ID <$> r \/ x ∈ ID <$> drop i qs \/ x ∈ ID <$> drop j ps)
    as Hend.
  { intros i j r Hnil Sr Hle. split.
    - rewrite <- app_assoc. apply StronglySorted_app_2; [done|done|].
      destruct Hnil as [-> | ->]; rewrite ?app_nil_l, ?app_nil_r;
        by apply sorted_drop_all.
    - intros x. rewrite !fmap_app, !elem_of_app. tauto. }
  induction n as [|n IH]; intros i j r Hn Sr Hle.
  - exists i, j, r. split; [done|]. apply Hend; [|done|done].
    destruct (decide (length qs <= i)%nat); [left|right]; apply drop_ge; lia.
  - cbn [orLoop].
    destruct (qs !! i) as [qi|] eqn:Hqi; cycle 1.
    { exists i, j, r. split; [done|]. apply Hend; [|done|done].
      left. apply drop_ge. by apply lookup_ge_None. }
    destruct (ps !! j) as [pj|] eqn:Hpj; cycle 1.
    { exists i, j, r. split; [done|]. apply Hend; [|done|done].
      right. apply drop_ge. by apply lookup_ge_None. }
    pose proof (lookup_lt_Some _ _ _ Hqi) as Hlq.
    pose proof (lookup_lt_Some _ _ _ Hpj) as Hlp.
    pose proof (sorted_drop _ _ _ Sq Hqi) as Hqs.
    pose proof (sorted_drop _ _ _ Sp Hpj) as Hps.
    rewrite (drop_S qs qi i Hqi), (drop_S ps pj j Hpj) in Hle.
    assert (forall x, x ∈ r -> ID x <= ID qi) as Hrq.
    { intros x Hx. apply (Hle x qi Hx). set_solver. }
    assert (forall x, x ∈ r -> ID x <= ID pj) as Hrp.
    { intros x Hx. apply (Hle x pj Hx). set_solver. }
    destruct (decide (ID qi < ID pj)) as [Hlt|Hge].
    + destruct (IH (S i) j (appendNew r qi))
        as (i' & j' & r' & -> & Hs & Hin); [lia|by apply appendNew_sorted|..].
      { intros x y [Hx| ->]%appendNew_elem Hy.
        - apply (Hle x y Hx). rewrite (drop_S ps pj j Hpj) in Hy. set_solver.
        - rewrite (drop_S ps pj j Hpj) in Hy.
          apply elem_of_app in Hy as [Hy|[->|Hy]%elem_of_cons].
          + by apply Hqs.
          + lia.
          + apply Hps in Hy. lia. }
      exists i', j', r'. split; [done|]. split; [done|].
      intros x. rewrite Hin, appendNew_IDs, (drop_S qs qi i Hqi), fmap_cons,
        elem_of_cons. tauto.
    + destruct (decide (ID pj < ID qi)) as [Hlt|Hge'].
      * destruct (IH i (S j) (appendNew r pj))
          as (i' & j' & r' & -> & Hs & Hin); [lia|by apply appendNew_sorted|..].
        { intros x y [Hx| ->]%appendNew_elem Hy.
          - apply (Hle x y Hx). rewrite (drop_S qs qi i Hqi) in Hy. set_solver.
          - rewrite (drop_S qs qi i Hqi) in Hy.
            apply elem_of_app in Hy as [[->|Hy]%elem_of_cons|Hy].
            + lia.
            + apply Hqs in Hy. lia.
            + by apply Hps. }
        exists i', j', r'. split; [done|]. split; [done|].
        intros x. rewrite Hin, appendNew_IDs, (drop_S ps pj j Hpj), fmap_cons,
          elem_of_cons. tauto.
      * destruct (IH (S i) (S j) (appendNew r qi))
          as (i' & j' & r' & -> & Hs & Hin); [lia|by apply appendNew_sorted|..].
        { intros x y [Hx| ->]%appendNew_elem Hy.
          - apply (Hle x y Hx). set_solver.
          - apply elem_of_app in Hy as [Hy|Hy].
            + by apply Hqs.
            + apply Hps in Hy. lia. }
        exists i', j', r'. split; [done|]. split; [done|].
        intros x. rewrite Hin, appendNew_IDs, (drop_S qs qi i Hqi),
          (drop_S ps pj j Hpj), !fmap_cons, !elem_of_cons.
        assert (ID pj = ID qi) by lia. intuition congruence.
Qed.

End Merges.

Section QuerySets.
Context `{Runtime}.

Lemma orLoop_empty n qs i j r : orLoop n qs [] i j r = (i, j, r).
Proof. destruct n; [done|]. simpl. by destruct (qs !! i). Qed.

(** [Unique] returns the first term of every handle of the frontier of
    its receiver, in strictly ascending order of handle: no handle
    twice, none left out. Applied to its own result it returns the same
    frontier. *)
Theorem Unique_ascending q (sl : Arrays) :
  bounded (terms q) sl ->
  exists r sl',
    Unique q sl = (Ok r, sl')
    /\ StronglySorted (fun x y => ID x < ID y) (Result r sl')
    /\ sublist (Result r sl') (Result q sl')
    /\ (forall t, t ∈ Result q sl -> ID t ∈ ID <$> Result r sl')
    /\ exists r2 sl2,
         Unique r sl' = (Ok r2, sl2) /\ Result r2 sl2 = Result r sl'.
Proof.
  intros Hq. unfold Unique at 1.
  set (sl1 := sortTerms q sl).
  assert (view (terms q) sl1 = sortByID (view (terms q) sl)) as Hv.
  { by apply sortTerms_self. }
  assert (bounded (terms q) sl1) as Hq1 by (by apply bounded_sortTerms).
  destruct (uniqueLoop_spec (view (terms q) sl1) None [])
    as (u & Hu & Hsub & Hsu & _ & Hin); [rewrite Hv; apply sortByID_byID|done|].
  rewrite app_nil_l in Hu. rewrite Hu.
  destruct (newQuery_spec (qg q) u sl1) as (l & Hl & ->).
  eexists _, _. split; [done|].
  rewrite Result_new, Result_old by done. unfold Result at 1.
  split; [done|]. split; [done|]. split.
  { intros t Ht. destruct (Hin t) as [?|(x & [=] & _)]; [|done].
    rewrite Hv, (sortByID_perm _). exact Ht. }
  set (r := mkQuery (qg q) (mkSlice l 0 (length u))).
  set (sl' := <[l := u]> sl1).
  assert (bounded (terms r) sl') as Hr.
  { exists u. split; [apply lookup_insert_eq|simpl; lia]. }
  assert (view (terms r) sl' = u) as Hvr by apply view_new.
  assert (NoDup (ID <$> u)) as Hnd by (by apply ascending_NoDup).
  assert (sortByID u = u) as Hsorted.
  { symmetry. apply sorted_perm_unique; [by apply ascending_byID| | |done].
    - apply sortByID_byID.
    - symmetry. apply sortByID_perm. }
  unfold Unique. rewrite sortTerms_self, Hvr, Hsorted by done.
  rewrite uniqueLoop_distinct, app_nil_l by done.
  destruct (newQuery_spec (qg r) u (sortTerms r sl')) as (l2 & Hl2 & ->).
  eexists _, _. split; [done|]. by rewrite Result_new.
Qed.

(** [q.Not(q)] is empty. *)
Theorem Not_self q (sl : Arrays) :
  bounded (terms q) sl ->
  exists r sl', Not q q sl = (Ok r, sl') /\ Result r sl' = [].
Proof.
  intros Hq.
  destruct (Not_spec q q sl eq_refl Hq Hq) as (r & sl' & Hn & Hres & Hperm & _);
    [by left|].
  exists r, sl'. split; [done|]. rewrite Hres. apply filter_none.
  intros t Ht Hnot. apply Hnot, list_elem_of_fmap_2. by rewrite <- Hperm.
Qed.

(** [And] is the intersection by handle: of two frontiers that are the
    same slice or share no element, [q.And(p)] holds terms of [q], in
    ascending order of handle, and a handle occurs in it if and only if
    it occurs in [q] and in [p]. *)
Theorem And_intersection q p (sl : Arrays) :
  qg q = qg p -> bounded (terms q) sl -> bounded (terms p) sl ->
  separate (terms q) (terms p) ->
  exists r sl',
    And q p sl = (Ok r, sl')
    /\ (forall x, x ∈ ID <$> Result r sl'
          <-> x ∈ ID <$> Result q sl /\ x ∈ ID <$> Result p sl)
    /\ sublist (Result r sl') (Result q sl')
    /\ StronglySorted byID (Result r sl').
Proof.
  intros Hg Hq Hp Hsep. unfold And. rewrite decide_False by (by intros []).
  set (sl2 := sortTerms p (sortTerms q sl)).
  destruct (sorted_after q p sl (terms q)) as [Pq Sq]; [by left|done..|].
  destruct (sorted_after q p sl (terms p)) as [Pp Sp]; [by right|done..|].
  fold sl2 in Pq, Sq, Pp, Sp.
  assert (bounded (terms q) sl2) as Hq2.
  { unfold sl2. by do 2 apply bounded_sortTerms. }
  destruct (andLoop_spec _ _ Sq Sp
              (length (view (terms q) sl2) + length (view (terms p) sl2))%nat
              0%nat 0%nat []) as (u & -> & Hsub & Hin); [lia|].
  rewrite app_nil_l. rewrite !drop_0 in Hsub, Hin.
  destruct (newQuery_spec (qg q) u sl2) as (l & Hl & ->).
  eexists _, _. split; [done|].
  rewrite Result_new, Result_old by done. unfold Result.
  split; [|split; [done|by eapply sorted_sub]].
  intros x. by rewrite Hin, Pq, Pp.
Qed.

(** [Or] is the union by handle: of two frontiers that are the same
    slice or share no element, [q.Or(p)] is in ascending order of
    handle, and a handle occurs in it if and only if it occurs in [q] or
    in [p]. With an empty [p] it is the frontier of [q] as the sort
    leaves it, every term as often as [q] holds it. *)
Theorem Or_union q p (sl : Arrays) :
  qg q = qg p -> bounded (terms q) sl -> bounded (terms p) sl ->
  separate (terms q) (terms p) ->
  exists r sl',
    Or q p sl = (Ok r, sl')
    /\ (forall x, x ∈ ID <$> Result r sl'
          <-> x ∈ ID <$> Result q sl \/ x ∈ ID <$> Result p sl)
    /\ StronglySorted byID (Result r sl')
    /\ (len (terms p) = 0%nat ->
        Result r sl' = Result q sl' /\ Result r sl' ≡ₚ Result q sl).
Proof.
  intros Hg Hq Hp Hsep. unfold Or. rewrite decide_False by (by intros []).
  set (sl2 := sortTerms p (sortTerms q sl)).
  destruct (sorted_after q p sl (terms q)) as [Pq Sq]; [by left|done..|].
  destruct (sorted_after q p sl (terms p)) as [Pp Sp]; [by right|done..|].
  fold sl2 in Pq, Sq, Pp, Sp.
  assert (bounded (terms q) sl2) as Hq2.
  { unfold sl2. by do 2 apply bounded_sortTerms. }
  assert (bounded (terms p) sl2) as Hp2.
  { unfold sl2. by do 2 apply bounded_sortTerms. }
  pose proof (orLoop_empty (length (view (terms q) sl2) + 0)
                (view (terms q) sl2) 0 0 []) as Hempty.
  destruct (orLoop_spec _ _ Sq Sp
              (length (view (terms q) sl2) + length (view (terms p) sl2))%nat
              0%nat 0%nat []) as (i & j & r & Hloop & Hs & Hin);
    [lia|constructor|by intros x y []%elem_of_nil|].
  rewrite Hloop.
  destruct (newQuery_spec (qg q)
              ((r ++ drop i (view (terms q) sl2)) ++ drop j (view (terms p) sl2))
              sl2) as (l & Hl & ->).
  eexists _, _. split; [done|].
  rewrite Result_new, Result_old by done. unfold Result.
  split; [|split; [done|]].
  - intros x. rewrite Hin, !drop_0, fmap_nil, elem_of_nil, Pq, Pp. tauto.
  - intros Hlen.
    assert (view (terms p) sl2 = []) as Hnil.
    { apply length_zero_iff_nil. by rewrite view_length. }
    rewrite Hnil in Hloop. simpl in Hloop. rewrite Hempty in Hloop.
    injection Hloop as <- <- <-. rewrite Hnil, drop_0, app_nil_l, app_nil_r.
    done.
Qed.

End QuerySets.

(** *** [Out] and [In] *)

Section Steps.
Context `{Runtime}.
Variable w : World.
Variable fn : Statement -> bool.

Lemma step_spec (edge : Z -> list addr) ns : forall r,
  None ∉ ns ->
  exists new,
    step (heap w) fn edge ns r = Ok (r ++ new)
    /\ forall t, t ∈ new
         <-> Some t ∈ ns /\ ConnectedByAny (heap w) (edge (ID t)) fn = true.
Proof.
  induction ns as [|[n|] ns IH]; intros r Hnil; cbn [step].
  - exists []. rewrite app_nil_r. split; [done|]. intros t.
    rewrite !elem_of_nil. tauto.
  - assert (None ∉ ns) as Hnil' by (intros ?; apply Hnil; by right).
    destruct (ConnectedByAny (heap w) (edge (ID n)) fn) eqn:Hc.
    + destruct (IH (r ++ [n]) Hnil') as (new & -> & Hin).
      exists (n :: new). split; [by rewrite <- app_assoc|].
      intros t. rewrite !elem_of_cons, Hin. split.
      * intros [->|[? ?]]; [by split; [left|]|]. split; [by right|done].
      * intros [[[= ->]|?] ?]; [by left|]. by right.
    + destruct (IH r Hnil') as (new & -> & Hin).
      exists new. split; [done|]. intros t. rewrite elem_of_cons, Hin. split.
      * intros [? ?]. split; [by right|done].
      * intros [[[= ->]|?] ?]; [congruence|done].
  - exfalso. apply Hnil. by left.
Qed.

Lemma outTerms_spec ts : forall r,
  (forall u, None ∉ From (graph w) u) ->
  exists new,
    outTerms w fn ts r = Ok (r ++ new)
    /\ forall t, t ∈ new
         <-> exists s, s ∈ ts /\ Some t ∈ From (graph w) (ID s)
               /\ ConnectedByAny (heap w) (Edge (graph w) (ID s) (ID t)) fn
                  = true.
Proof.
  induction ts as [|s ts IH]; intros r Hnil; cbn [outTerms].
  - exists []. rewrite app_nil_r. split; [done|]. intros t.
    rewrite elem_of_nil. split; [done|]. by intros (s & []%elem_of_nil & _).
  - destruct (step_spec (fun v => Edge (graph w) (ID s) v)
                (From (graph w) (ID s)) r (Hnil _)) as (new1 & -> & H1).
    destruct (IH (r ++ new1) Hnil) as (new2 & -> & H2).
    exists (new1 ++ new2). split; [by rewrite <- app_assoc|].
    intros t. rewrite elem_of_app, H1, H2. split.
    + intros [[? ?]|(s' & ? & ?)]; [exists s; split; [by left|done]|].
      exists s'. split; [by right|done].
    + intros (s' & [->|?]%elem_of_cons & ?); [by left|]. right. eauto.
Qed.

Lemma inTerms_spec ts : forall r,
  (forall u, None ∉ To (graph w) u) ->
  exists new,
    inTerms w fn ts r = Ok (r ++ new)
    /\ forall t, t ∈ new
         <-> exists s, s ∈ ts /\ Some t ∈ To (graph w) (ID s)
               /\ ConnectedByAny (heap w) (Edge (graph w) (ID t) (ID s)) fn
                  = true.
Proof.
  induction ts as [|s ts IH]; intros r Hnil; cbn [inTerms].
  - exists []. rewrite app_nil_r. split; [done|]. intros t.
    rewrite elem_of_nil. split; [done|]. by intros (s & []%elem_of_nil & _).
  - destruct (step_spec (fun u => Edge (graph w) u (ID s))
                (To (graph w) (ID s)) r (Hnil _)) as (new1 & -> & H1).
    destruct (IH (r ++ new1) Hnil) as (new2 & -> & H2).
    exists (new1 ++ new2). split; [by rewrite <- app_assoc|].
    intros t. rewrite elem_of_app, H1, H2. split.
    + intros [[? ?]|(s' & ? & ?)]; [exists s; split; [by left|done]|].
      exists s'. split; [by right|done].
    + intros (s' & [->|?]%elem_of_cons & ?); [by left|]. right. eauto.
Qed.

End Steps.

(** On a graph built by calls [Out] and [In] return, for a test without
    effects: [Out] holds the nodes to which a line that passes the test
    leads from a term of the receiver, [In] the nodes from which such a
    line leads to one. *)
Theorem Out_In_reach `{Runtime} h ops fn q (sl : Arrays) :
  let w := history h ops in
  (exists r sl',
     Out w fn q sl = (Ok r, sl')
     /\ forall t, t ∈ Result r sl' <->
          nodes (graph w) !! ID t = Some t
          /\ exists s, s ∈ Result q sl /\ linked w fn (ID s) (ID t))
  /\ (exists r sl',
     In w fn q sl = (Ok r, sl')
     /\ forall t, t ∈ Result r sl' <->
          nodes (graph w) !! ID t = Some t
          /\ exists s, s ∈ Result q sl /\ linked w fn (ID t) (ID s)).
Proof.
  intros w. pose proof (kept_history h ops) as Hk. fold w in Hk.
  pose proof Hk as (_ & _ & _ & _ & Hkeyed).
  split.
  - unfold Out.
    destruct (outTerms_spec w fn (view (terms q) sl) [])
      as (new & -> & Hin); [intros u; by apply kept_From_no_nil|].
    rewrite app_nil_l.
    destruct (newQuery_spec (qg q) new sl) as (l & Hl & ->).
    eexists _, _. split; [done|]. rewrite Result_new. intros t.
    rewrite Hin. unfold Result. split.
    + intros (s & Hs & (k & Hkey & Ht)%elem_of_From & Hc).
      pose proof (Hkeyed _ _ Ht) as <-. split; [done|]. exists s.
      split; [done|]. unfold linked. by apply ConnectedByAny_true.
    + intros (Ht & s & Hs & Hl'). exists s. split; [done|]. split.
      * apply elem_of_From. exists (ID t). split; [|done].
        destruct Hl' as (l' & x & Hline & _). by eapply line_key.
      * by apply ConnectedByAny_true.
  - unfold In.
    destruct (inTerms_spec w fn (view (terms q) sl) [])
      as (new & -> & Hin); [intros u; by apply kept_To_no_nil|].
    rewrite app_nil_l.
    destruct (newQuery_spec (qg q) new sl) as (l & Hl & ->).
    eexists _, _. split; [done|]. rewrite Result_new. intros t.
    rewrite Hin. unfold Result. split.
    + intros (s & Hs & (k & Hkey & Ht)%elem_of_To & Hc).
      pose proof (Hkeyed _ _ Ht) as <-. split; [done|]. exists s.
      split; [done|]. unfold linked. by apply ConnectedByAny_true.
    + intros (Ht & s & Hs & Hl'). exists s. split; [done|]. split.
      * apply elem_of_To. exists (ID t). split; [|done].
        apply kept_key; [done|].
        destruct Hl' as (l' & x & Hline & _). by eapply line_key.
      * by apply ConnectedByAny_true.
Qed.

Lemma Unique_ascending_witness :
  bounded (terms Ex3.twice) Ex3.slices
  /\ resultOf (@Unique plain Ex3.twice Ex3.slices) = Some [Ex.A]
  /\ exists r sl',
      @Unique plain Ex3.twice Ex3.slices = (Ok r, sl')
      /\ StronglySorted (fun x y => ID x < ID y) (Result r sl')
      /\ sublist (Result r sl') (Result Ex3.twice sl')
      /\ (forall t, t ∈ Result Ex3.twice Ex3.slices ->
            ID t ∈ ID <$> Result r sl')
      /\ exists r2 sl2,
           @Unique plain r sl' = (Ok r2, sl2) /\ Result r2 sl2 = Result r sl'.
Proof.
  assert (bounded (terms Ex3.twice) Ex3.slices) as Hb.
  { apply (bool_decide_unpack _). by vm_compute. }
  split; [exact Hb|]. split; [by vm_compute|].
  apply (@Unique_ascending plain Ex3.twice Ex3.slices). exact Hb.
Defined.

Lemma Not_self_witness :
  bounded (terms Ex3.twice) Ex3.slices
  /\ exists r sl',
      @Not plain Ex3.twice Ex3.twice Ex3.slices = (Ok r, sl')
      /\ Result r sl' = [].
Proof.
  assert (bounded (terms Ex3.twice) Ex3.slices) as Hb.
  { apply (bool_decide_unpack _). by vm_compute. }
  split; [exact Hb|].
  apply (@Not_self plain Ex3.twice Ex3.slices). exact Hb.
Defined.

Lemma And_intersection_witness :
  qg Ex3.q = qg Ex3.twice
  /\ bounded (terms Ex3.q) Ex3.slices
  /\ bounded (terms Ex3.twice) Ex3.slices
  /\ separate (terms Ex3.q) (terms Ex3.twice)
  /\ resultOf (@And plain Ex3.q Ex3.twice Ex3.slices) = Some [Ex.A]
  /\ exists r sl',
      @And plain Ex3.q Ex3.twice Ex3.slices = (Ok r, sl')
      /\ (forall x, x ∈ ID <$> Result r sl'
            <-> x ∈ ID <$> Result Ex3.q Ex3.slices
                /\ x ∈ ID <$> Result Ex3.twice Ex3.slices)
      /\ sublist (Result r sl') (Result Ex3.q sl')
      /\ StronglySorted byID (Result r sl').
Proof.
  assert (bounded (terms Ex3.q) Ex3.slices) as Hq.
  { apply (bool_decide_unpack _). by vm_compute. }
  assert (bounded (terms Ex3.twice) Ex3.slices) as Hp.
  { apply (bool_decide_unpack _). by vm_compute. }
  assert (separate (terms Ex3.q) (terms Ex3.twice)) as Hs.
  { apply (bool_decide_unpack _). by vm_compute. }
  split; [reflexivity|]. split; [exact Hq|]. split; [exact Hp|].
  split; [exact Hs|]. split; [by vm_compute|].
  apply (@And_intersection plain Ex3.q Ex3.twice Ex3.slices);
    [reflexivity|exact Hq|exact Hp|exact Hs].
Defined.

Lemma Or_union_witness :
  qg Ex3.q = qg Ex3.twice
  /\ bounded (terms Ex3.q) Ex3.slices
  /\ bounded (terms Ex3.twice) Ex3.slices
  /\ separate (terms Ex3.q) (terms Ex3.twice)
  /\ resultOf (@Or plain Ex3.q Ex3.twice Ex3.slices) = Some [Ex.A; Ex.B]
  /\ exists r sl',
      @Or plain Ex3.q Ex3.twice Ex3.slices = (Ok r, sl')
      /\ (forall x, x ∈ ID <$> Result r sl'
            <-> x ∈ ID <$> Result Ex3.q Ex3.slices
                \/ x ∈ ID <$> Result Ex3.twice Ex3.slices)
      /\ StronglySorted byID (Result r sl')
      /\ (len (terms Ex3.twice) = 0%nat ->
          Result r sl' = Result Ex3.q sl'
          /\ Result r sl' ≡ₚ Result Ex3.q Ex3.slices).
Proof.
  assert (bounded (terms Ex3.q) Ex3.slices) as Hq.
  { apply (bool_decide_unpack _). by vm_compute. }
  assert (bounded (terms Ex3.twice) Ex3.slices) as Hp.
  { apply (bool_decide_unpack _). by vm_compute. }
  assert (separate (terms Ex3.q) (terms Ex3.twice)) as Hs.
  { apply (bool_decide_unpack _). by vm_compute. }
  split; [reflexivity|]. split; [exact Hq|]. split; [exact Hp|].
  split; [exact Hs|]. split; [by vm_compute|].
  apply (@Or_union plain Ex3.q Ex3.twice Ex3.slices);
    [reflexivity|exact Hq|exact Hp|exact Hs].
Defined.


(** ** Handles: what [TermFor] finds and what a removal releases *)

Section Handles.
Context `{Runtime}.

(** [TermFor] does not find the predicate of a statement that came with
    the handle 0 for it: the statement is in the predicate index under
    0, the text is interned with the handle that [addTerm] assigned, and
    neither a node nor an entry of the predicate index has that
    handle. *)
Theorem TermFor_misses_assigned_predicate a w w' :
  AddStatement a w = (Ok tt, w') ->
  UID (Predicate (heap w !!! a)) = 0 ->
  UID (Predicate (heap w' !!! a)) ≠ 0 ->
  nodes (graph w') !! UID (Predicate (heap w' !!! a)) = None ->
  pred (graph w) !! UID (Predicate (heap w' !!! a)) = None ->
  termIDs (graph w') !! Value (Predicate (heap w !!! a))
  = Some (UID (Predicate (heap w' !!! a)))
  /\ (a ∈ pred (graph w') !!! 0)
  /\ TermFor w' (Value (Predicate (heap w !!! a))) = Ok (inhabitant, false).
Proof.
  intros Hadd Hz Hnz Hnode Hpred.
  apply AddStatement_done in Hadd
    as (i & j & k & Hs' & _ & _ & _ & _ & _ & _ & _ & _ & _ & Hp & _ & _ & Tj & _).
  rewrite Hs' in Hnz, Hnode, Hpred |- *.
  cbn [withUIDs Predicate UID] in *.
  split; [done|]. split.
  - rewrite Hp, Hz, lookup_total_insert_eq. apply elem_of_union. right.
    by apply elem_of_singleton.
  - unfold TermFor. rewrite Tj, Hnode, Hp, Hz, lookup_insert_ne by done.
    by rewrite Hpred.
Qed.

Lemma free_removeNode x id g :
  x ∈ uid.free (ids g) -> x ∈ uid.free (ids (removeNode id g)).
Proof.
  unfold removeNode. case_decide; [done|]. cbn. intros Hx.
  apply elem_of_union. by left.
Qed.

Lemma free_removeOrphan x t g :
  x ∈ uid.free (ids g) -> x ∈ uid.free (ids (removeOrphan t g)).
Proof.
  unfold removeOrphan. case_decide; [|done]. cbn [ids set_termIDs].
  apply free_removeNode.
Qed.

(** [RemoveStatement] releases the handle of the predicate with the
    line, also when other statements with this predicate stay: the
    handle is then free for [NewID] while the predicate index still holds
    statements under it. *)
Theorem RemoveStatement_releases_shared_handle a b w :
  let s := heap w !!! a in
  let w' := (RemoveStatement a w).2 in
  a ∈ pred (graph w) !!! UID (Predicate s) ->
  b ∈ pred (graph w) !!! UID (Predicate s) -> a ≠ b ->
  is_Some (nodes (graph w) !! UID (Subject s)) ->
  is_Some (nodes (graph w) !! UID (Object s)) ->
  (b ∈ pred (graph w') !!! UID (Predicate s))
  /\ UID (Predicate s) ∈ uid.free (ids (graph w')).
Proof.
  intros s w' Ha Hb Hab [ns Hns] [no Hno]. unfold w', RemoveStatement.
  unfold_M. cbn beta iota. fold s. rewrite decide_True by done.
  cbn [snd graph].
  set (g1 := removeLine (UID (Subject s)) (UID (Object s))
               (UID (Predicate s)) (graph w)).
  assert (UID (Predicate s) ∈ uid.free (ids g1)) as Hfree.
  { unfold g1, removeLine. rewrite !decide_False by congruence.
    cbn. apply elem_of_union. right. by apply elem_of_singleton. }
  assert (pred g1 = pred (graph w)) as Hp1 by apply pred_removeLine.
  set (g2 := unindex a s g1).
  assert (b ∈ pred g2 !!! UID (Predicate s)
          /\ UID (Predicate s) ∈ uid.free (ids g2)) as [Hb2 Hfree2].
  { unfold g2, unindex. cbn zeta.
    assert (b ∈ pred (set_pred (alter (fun st : gset addr => st ∖ {[a]})
                                  (UID (Predicate s))) g1)
                !!! UID (Predicate s)) as Hin.
    { cbn [pred set_pred]. rewrite lookup_total_alter_eq, Hp1.
      rewrite lookup_total_alt in Hb.
      destruct (pred (graph w) !! UID (Predicate s)) as [st|]; simpl in *.
      - apply elem_of_difference. split; [done|].
        intros Heq%elem_of_singleton. by apply Hab.
      - by apply elem_of_empty in Hb. }
    rewrite decide_False; [done|].
    intros Hsize%size_empty_iff. rewrite Hsize in Hin.
    by apply elem_of_empty in Hin. }
  rewrite !pred_removeOrphan. split; [done|].
  by do 2 apply free_removeOrphan.
Qed.

End Handles.

Lemma TermFor_misses_assigned_predicate_witness :
  let w := @history plain Ex2.triples [] in
  let w' := (@AddStatement plain 1%nat w).2 in
  @AddStatement plain 1%nat w = (Ok tt, w')
  /\ UID (Predicate (heap w !!! 1%nat)) = 0
  /\ UID (Predicate (heap w' !!! 1%nat)) ≠ 0
  /\ nodes (graph w') !! UID (Predicate (heap w' !!! 1%nat)) = None
  /\ pred (graph w) !! UID (Predicate (heap w' !!! 1%nat)) = None
  /\ termIDs (graph w') !! Value (Predicate (heap w !!! 1%nat))
     = Some (UID (Predicate (heap w' !!! 1%nat)))
  /\ (1%nat ∈ pred (graph w') !!! 0)
  /\ @TermFor plain w' (Value (Predicate (heap w !!! 1%nat)))
     = Ok (inhabitant, false).
Proof.
  cbv zeta.
  split; [by vm_compute|]. split; [by vm_compute|]. split; [by vm_compute|].
  split; [by vm_compute|]. split; [by vm_compute|].
  apply (@TermFor_misses_assigned_predicate plain 1%nat
           (@history plain Ex2.triples [])); by vm_compute.
Defined.

Lemma RemoveStatement_releases_shared_handle_witness :
  let w := @history plain Ex.twins [Add 1%nat; Add 2%nat] in
  let s := heap w !!! 1%nat in
  let w' := (@RemoveStatement plain 1%nat w).2 in
  (1%nat ∈ pred (graph w) !!! UID (Predicate s))
  /\ (2%nat ∈ pred (graph w) !!! UID (Predicate s))
  /\ is_Some (nodes (graph w) !! UID (Subject s))
  /\ is_Some (nodes (graph w) !! UID (Object s))
  /\ (2%nat ∈ pred (graph w') !!! UID (Predicate s))
  /\ UID (Predicate s) ∈ uid.free (ids (graph w')).
Proof.
  cbv zeta.
  assert (1%nat ∈ pred (graph (@history plain Ex.twins [Add 1%nat; Add 2%nat]))
            !!! UID (Predicate (heap (@history plain Ex.twins
                                        [Add 1%nat; Add 2%nat]) !!! 1%nat)))
    as H1.
  { apply (bool_decide_unpack _). by vm_compute. }
  assert (2%nat ∈ pred (graph (@history plain Ex.twins [Add 1%nat; Add 2%nat]))
            !!! UID (Predicate (heap (@history plain Ex.twins
                                        [Add 1%nat; Add 2%nat]) !!! 1%nat)))
    as H2.
  { apply (bool_decide_unpack _). by vm_compute. }
  assert (is_Some (nodes (graph (@history plain Ex.twins [Add 1%nat; Add 2%nat]))
            !! UID (Subject (heap (@history plain Ex.twins
                                     [Add 1%nat; Add 2%nat]) !!! 1%nat))))
    as H3.
  { apply (bool_decide_unpack _). by vm_compute. }
  assert (is_Some (nodes (graph (@history plain Ex.twins [Add 1%nat; Add 2%nat]))
            !! UID (Object (heap (@history plain Ex.twins
                                    [Add 1%nat; Add 2%nat]) !!! 1%nat))))
    as H4.
  { apply (bool_decide_unpack _). by vm_compute. }
  split; [exact H1|]. split; [exact H2|]. split; [exact H3|].
  split; [exact H4|].
  apply (@RemoveStatement_releases_shared_handle plain 1%nat 2%nat
           (@history plain Ex.twins [Add 1%nat; Add 2%nat]) H1 H2);
    [lia|exact H3|exact H4].
Defined.

(** ** What [Roots] returns *)

Section RootsSound.
Context `{Runtime}.
Variable w : World.
Variable nm : Names.
Hypothesis Hkept : kept (graph w).
Hypothesis Hpred : inhabited_pred (graph w).

Local Abbreviation g := (graph w).
Local Abbreviation isNode := (fun n : Term => exists k, nodes g !! k = Some n).
Local Abbreviation nodeIDs :=
  (list_to_set (ID <$> (map_to_list (nodes g)).*2) : gset Z).

Lemma kept_closed : closed g.
Proof. by destruct Hkept as (_ & ? & _). Qed.

(** [TermFor] returns: no set of the predicate index is empty. *)
Lemma TermFor_ok r : exists t ok, TermFor w r = Ok (t, ok).
Proof.
  unfold TermFor. destruct (termIDs g !! r) as [id|]; [|by eexists _, _].
  destruct (nodes g !! id); [by eexists _, _|].
  destruct (pred g !! id) as [st|] eqn:Hst; [|by eexists _, _].
  destruct (order (elements st)) as [|k l] eqn:Ho; [|by eexists _, _].
  exfalso. apply (order_nonempty (elements st)); [|done].
  intros He. apply (Hpred id st Hst). apply leibniz_equiv.
  by apply elements_empty_iff.
Qed.

Lemma knownRoots_found rs : forall K0,
  exists K,
    knownRoots w rs K0 = Ok K
    /\ forall t, t ∈ K <->
         t ∈ K0 \/ exists r, r ∈ rs /\ TermFor w r = Ok (t, true).
Proof.
  induction rs as [|r rs IH]; intros K0.
  - exists K0. split; [done|]. intros t. split; [by left|].
    intros [?|(r & []%elem_of_nil & _)]. done.
  - cbn [knownRoots]. destruct (TermFor_ok r) as (t0 & ok & Ht). rewrite Ht.
    destruct ok.
    + destruct (IH (K0 ∪ {[t0]})) as (K & -> & HK).
      exists K. split; [done|]. intros t. rewrite HK, elem_of_union,
        elem_of_singleton. split.
      * intros [[?| ->]|(r' & Hr' & Ht')]; [by left|right|right].
        -- exists r. split; [by left|done].
        -- exists r'. split; [by right|done].
      * intros [?|(r' & [->|Hr']%elem_of_cons & Ht')].
        -- left. by left.
        -- left. right. congruence.
        -- right. by exists r'.
    + destruct (IH K0) as (K & -> & HK).
      exists K. split; [done|]. intros t. rewrite HK. split.
      * intros [?|(r' & Hr' & Ht')]; [by left|right].
        exists r'. split; [by right|done].
      * intros [?|(r' & [->|Hr']%elem_of_cons & Ht')];
          [by left|congruence|right; by exists r'].
Qed.

(** The search adds nodes at which a walk ends, and only such nodes. *)
Lemma searchRoots_found ns : forall K : gset Term,
  (forall n, n ∈ ns -> isNode n) ->
  exists K',
    searchRoots w nm ns K = Ok K'
    /\ K ⊆ K'
    /\ forall t, t ∈ K' -> t ∈ K \/ (isNode t /\ isFinal w nm t = Ok true).
Proof.
  induction ns as [|t ns IH]; intros K Hns.
  { exists K. split; [done|]. split; [done|]. by left. }
  cbn [searchRoots]. unfold DepthFirstWalk.
  assert (isNode t) as Ht by (apply Hns; by left).
  assert (forall n, n ∈ ns -> isNode n) as Hns'.
  { intros n Hn. apply Hns. by right. }
  destruct (dfsLoop_spec (forward g)
              (fun e => ConnectedByAny (heap w) e (isaTo nm))
              (isFinal w nm) isNode nodeIDs (From_yields w)
              (From_no_nil w kept_closed)
              (fun t _ => isFinal_ok w nm kept_closed t) nodeIDs
              (tBound (forward g)) [t] {[ ID t ]}) as (o & -> & Ho).
  - by intros x ->%list_elem_of_singleton.
  - apply singleton_subseteq_l. by apply isNode_ID.
  - done.
  - rewrite size_singleton. pose proof (size_nodeIDs w kept_closed). simpl. lia.
  - destruct o as [f|].
    + destruct (Ho f eq_refl) as [Hf Hfin].
      destruct (IH (K ∪ {[f]}) Hns') as (K' & -> & Hsub & Hin).
      exists K'. split; [done|]. split; [set_solver|].
      intros x Hx.
      destruct (Hin x Hx) as [[?| ->%elem_of_singleton]%elem_of_union|?]; auto.
    + by apply IH.
Qed.

(** A query from one term that holds nothing: no line that passes the
    test leaves the term. *)
Lemma outTerms_none fn t new :
  outTerms w fn [t] [] = Ok new -> length new = 0%nat ->
  forall v, ~ linked w fn (ID t) v.
Proof.
  intros Hout Hlen v (l & x & Hl & Hfn).
  destruct (outTerms_spec w fn [t] []) as (new' & Hnew & Hin).
  { intros u. by apply kept_From_no_nil. }
  rewrite Hout in Hnew. injection Hnew as ->. simpl in Hlen.
  apply length_zero_iff_nil in Hlen. subst new'.
  pose proof (line_key _ _ _ _ _ Hl) as Hkey.
  destruct (kept_ends g _ _ Hkept Hkey) as [_ [n Hn]].
  pose proof Hkept as (_ & _ & _ & _ & Hkeyed).
  pose proof (Hkeyed _ _ Hn) as Hid.
  assert (n ∈ []) as []%elem_of_nil.
  apply Hin. exists t. split; [by left|]. split.
  - apply elem_of_From. exists v. by split.
  - apply ConnectedByAny_true. rewrite Hid. by exists l, x.
Qed.

Lemma isFinal_true t :
  isFinal w nm t = Ok true ->
  HasPrefix (Value t) (goTerm nm) = true
  /\ (forall v, ~ linked w (isDeprecated nm) (ID t) v)
  /\ (forall v, ~ linked w (isaTo nm) (ID t) v).
Proof.
  unfold isFinal.
  destruct (HasPrefix (Value t) (goTerm nm)); cbn [negb]; [|done].
  fold (isDeprecated nm).
  destruct (outTerms w (isDeprecated nm) [t] []) as [dep|] eqn:Hdep; [|done].
  case_decide as Hlen; [done|].
  destruct (outTerms w (isaTo nm) [t] []) as [more|] eqn:Hmore; [|done].
  intros [= Hm%bool_decide_eq_true]. split; [done|]. split.
  - eapply outTerms_none; [exact Hdep|].
    destruct (decide (length dep = 0%nat)); [done|]. by destruct Hlen.
  - by eapply outTerms_none.
Qed.

Lemma Roots_found force :
  names g = Some nm ->
  exists l,
    Roots w force = Ok l
    /\ NoDup l
    /\ (forall r t, r ∈ standardRoots nm -> TermFor w r = Ok (t, true) ->
          t ∈ l)
    /\ (forall t, t ∈ l ->
          (exists r, r ∈ standardRoots nm /\ TermFor w r = Ok (t, true))
          \/ (nodes g !! ID t = Some t
              /\ HasPrefix (Value t) (goTerm nm) = true
              /\ (forall v, ~ linked w (isDeprecated nm) (ID t) v)
              /\ (forall v, ~ linked w (isaTo nm) (ID t) v))).
Proof.
  intros Hnm. unfold Roots. rewrite Hnm.
  destruct (knownRoots_found (standardRoots nm) ∅) as (K & -> & HK).
  assert (forall K' : gset Term, NoDup (order (elements K'))) as Hnd.
  { intros K'. rewrite (order_perm _ _). apply NoDup_elements. }
  assert (forall (K' : gset Term) t, t ∈ order (elements K') <-> t ∈ K') as Hel.
  { intros K' t. by rewrite (order_perm _ _), elem_of_elements. }
  destruct (force || bool_decide (size K = 0%nat)).
  - destruct (searchRoots_found (order ((map_to_list (nodes g)).*2)) K)
      as (K' & -> & Hsub & Hin).
    { intros n. rewrite (order_perm _ _).
      intros ([k n'] & -> & Hk%elem_of_map_to_list)%list_elem_of_fmap.
      by exists k. }
    eexists. split; [done|]. split; [done|]. split.
    + intros r t Hr Ht. apply Hel, Hsub, HK. right. by exists r.
    + intros t [Ht|[[k Hk] Hfin]]%Hel%Hin.
      * apply HK in Ht as [[]%elem_of_empty|?]. by left.
      * right. pose proof Hkept as (_ & _ & _ & _ & Hkeyed).
        pose proof (Hkeyed _ _ Hk) as <-. split; [done|].
        by apply isFinal_true.
  - eexists. split; [done|]. split; [done|]. split.
    + intros r t Hr Ht. apply Hel, HK. right. by exists r.
    + intros t Ht%Hel%HK. destruct Ht as [[]%elem_of_empty|?]. by left.
Qed.

End RootsSound.

(** On a graph built by calls, with an established namespace, [Roots]
    returns, with or without a forced search, a list without
    repetition. It holds every standard root that [TermFor] finds. Every
    other term of it is a node in the ontology namespace from which no
    line leads to a deprecation mark and no sub-class statement to a GO
    term. *)
Theorem Roots_sound `{Runtime} h ops nm force :
  let w := history h ops in
  names (graph w) = Some nm ->
  exists l,
    Roots w force = Ok l
    /\ NoDup l
    /\ (forall r t, r ∈ standardRoots nm -> TermFor w r = Ok (t, true) ->
          t ∈ l)
    /\ (forall t, t ∈ l ->
          (exists r, r ∈ standardRoots nm /\ TermFor w r = Ok (t, true))
          \/ (nodes (graph w) !! ID t = Some t
              /\ HasPrefix (Value t) (goTerm nm) = true
              /\ (forall v, ~ linked w (isDeprecated nm) (ID t) v)
              /\ (forall v, ~ linked w (isaTo nm) (ID t) v))).
Proof.
  intros w. apply Roots_found; [apply kept_history|apply inhabited_pred_history].
Qed.

Lemma Roots_sound_witness :
  let w := @history plain Ex5.ontology Ex5.calls in
  names (graph w) = Some localNames
  /\ exists l,
      @Roots plain w true = Ok l
      /\ NoDup l
      /\ (forall r t, r ∈ standardRoots localNames ->
            @TermFor plain w r = Ok (t, true) -> t ∈ l)
      /\ (forall t, t ∈ l ->
            (exists r, r ∈ standardRoots localNames
                       /\ @TermFor plain w r = Ok (t, true))
            \/ (nodes (graph w) !! ID t = Some t
                /\ HasPrefix (Value t) (goTerm localNames) = true
                /\ (forall v, ~ linked w (isDeprecated localNames) (ID t) v)
                /\ (forall v, ~ linked w (isaTo localNames) (ID t) v))).
Proof.
  cbv zeta. split; [by vm_compute|].
  apply (@Roots_sound plain Ex5.ontology Ex5.calls localNames true).
  by vm_compute.
Defined.

